(** * Localized taxonomy types: indexing, filtering and count aggregation

    A shallow embedding of [src/utils/localizedTypes.ts] and the properties
    of its index builder, its filters, its display order and its memoised
    count aggregation.

    Modelling conventions.
    - An [Id] and every count or rank is a JavaScript number that holds an
      integer; it is a [Z] here. [_getTotalCount] adds counts as integers,
      which is what the program does while no total exceeds 2^53;
      [_getTotalCount_double] adds them as doubles.
    - A JavaScript string is a [string]; its characters stand for the code
      units that [<] and [>] compare, which covers code units below 256.
    - An object used as a dictionary and only ever read by key
      ([idIndex], [countsById], the memo table [result]) is a [gmap].
      [childrenById] is also enumerated by [for ... in], so it keeps its keys
      in the order the engine enumerates them from: see [ODict].
    - The recursion of [_getTotalCount] runs on the call stack; [fuel] is the
      number of nested frames that are available, and [None] is the
      exhausted stack. *)

From Stdlib Require Import ZArith String Ascii Sorted Permutation.
From stdpp Require Import base option list gmap sets strings.

Local Open Scope Z_scope.

(** ** JavaScript values *)

Abbreviation Id := Z.
Abbreviation IdDict T := (gmap Z T).

Definition PENDING_ID : Id := -1.

(** [x || ''] on a possibly undefined string. *)
Definition or_empty (x : option string) : string :=
  match x with
  | Some s => s
  | None => EmptyString
  end.

(** [x || 0] on a possibly undefined number. *)
Definition or_zero (x : option Z) : Z :=
  match x with
  | Some n => if Z.eqb n 0 then 0 else n
  | None => 0
  end.

(** [x ?? 0] on a possibly undefined number. *)
Definition nullish_zero (x : option Z) : Z :=
  match x with
  | Some n => n
  | None => 0
  end.

(** [!s] on a string: only the empty string is falsy. *)
Definition is_empty (s : string) : bool :=
  match s with
  | EmptyString => true
  | String _ _ => false
  end.

(** [d[k]] on a dictionary whose stored values may themselves be
    [undefined] (as [newCountsById] after [TypesFrequency.filter]). *)
Definition dict_get {T} (d : IdDict (option T)) (k : Id) : option T :=
  match d !! k with
  | Some v => v
  | None => None
  end.

(** ** Dictionaries that are enumerated

    An object keeps its own keys; [for (const k in o)] visits the keys that
    are array indices (integers from 0 to 2^32 - 2) in ascending order, and
    then the other keys in the order they were first assigned. An [ODict]
    is the list of bindings in that order of first assignment. *)

Definition ODict (T : Type) := list (Id * T).

Fixpoint oget {T} (d : ODict T) (k : Id) : option T :=
  match d with
  | [] => None
  | (k', v) :: d' => if Z.eqb k' k then Some v else oget d' k
  end.

Fixpoint oset {T} (d : ODict T) (k : Id) (v : T) : ODict T :=
  match d with
  | [] => [(k, v)]
  | (k', v') :: d' =>
      if Z.eqb k' k then (k', v) :: d' else (k', v') :: oset d' k v
  end.

Definition is_array_index (k : Id) : bool :=
  (0 <=? k) && (k <? 2 ^ 32 - 1).

(** A stable insertion sort; [le x y] is "x may stay before y". *)
Fixpoint insert_sorted {A} (le : A -> A -> bool) (x : A) (l : list A) : list A :=
  match l with
  | [] => [x]
  | y :: l' => if le x y then x :: y :: l' else y :: insert_sorted le x l'
  end.

Fixpoint stable_sort {A} (le : A -> A -> bool) (l : list A) : list A :=
  match l with
  | [] => []
  | x :: l' => insert_sorted le x (stable_sort le l')
  end.

(** The keys of [d] in [for ... in] order. *)
Definition own_keys {T} (d : ODict T) : list Id :=
  let ks := map fst d in
  stable_sort Z.leb (List.filter is_array_index ks)
    ++ List.filter (fun k => negb (is_array_index k)) ks.

(** [array.forEach((x, index) => ...)] threading the state the callback
    mutates. *)
Fixpoint forEach {A St} (f : St -> A -> nat -> St) (l : list A) (index : nat) (s : St) : St :=
  match l with
  | [] => s
  | x :: l' => forEach f l' (S index) (f s x index)
  end.

(** ** Records *)

(** Modelled from the spec: the raw schema record [components.schemas.Type]
    of [apiSchema], which is not part of the sources; section 6 of the
    specification lists its fields, all optional except [id]. *)
Module SchemaType.
Record t := mk {
  id : Id;
  parent_id : option Z;
  pending : option bool;
  scientific_names : option (list string);
  common_names : option (gmap string (list string));
  taxonomic_rank : option Z;
  urls : option (gmap string string)
}.
End SchemaType.

Module LocalizedType.
Record t := mk {
  id : Id;
  parentId : Id;
  scientificName : string;
  commonName : string;
  taxonomicRank : Z;
  urls : gmap string string
}.
End LocalizedType.

Module TypeSelectMenuEntry.
Record t := mk {
  value : Id;
  label : string;
  scientificName : string;
  commonName : string;
  taxonomicRank : Z
}.
End TypeSelectMenuEntry.

Abbreviation SchemaType := SchemaType.t.
Abbreviation LocalizedType := LocalizedType.t.
Abbreviation TypeSelectMenuEntry := TypeSelectMenuEntry.t.

(** ** Localizer *)

Definition truthy_pending (p : option bool) : bool :=
  match p with
  | Some b => b
  | None => false
  end.

(** [common_names?.[language]] *)
Definition names_in (common_names : option (gmap string (list string))) (language : string) : option (list string) :=
  match common_names with
  | Some m => m !! language
  | None => None
  end.

Definition localize (type : SchemaType) (language : string) : LocalizedType :=
  let scientificName :=
    or_empty (SchemaType.scientific_names type ≫= head) in
  let commonName :=
    or_empty (names_in (SchemaType.common_names type) language ≫= head) in
  let commonName :=
    if is_empty scientificName && is_empty commonName
    then or_empty (names_in (SchemaType.common_names type) "en" ≫= head)
    else commonName in
  {| LocalizedType.id := SchemaType.id type;
     LocalizedType.parentId :=
       if truthy_pending (SchemaType.pending type)
       then PENDING_ID
       else or_zero (SchemaType.parent_id type);
     LocalizedType.scientificName := scientificName;
     LocalizedType.commonName := commonName;
     LocalizedType.taxonomicRank := or_zero (SchemaType.taxonomic_rank type);
     LocalizedType.urls :=
       match SchemaType.urls type with
       | Some u => u
       | None => ∅
       end |}.

(** ** Index builder and TypesAccess *)

Module TypesAccess.
Record t := mk {
  localizedTypes : list LocalizedType;
  idIndex : IdDict nat;
  childrenById : ODict (list Id)
}.
End TypesAccess.
Abbreviation TypesAccess := TypesAccess.t.

(** [if (!d[p]) d[p] = []; d[p].push(c)] *)
Definition push_child (childrenById : ODict (list Id)) (p c : Id) : ODict (list Id) :=
  let childrenById :=
    match oget childrenById p with
    | Some _ => childrenById
    | None => oset childrenById p []
    end in
  match oget childrenById p with
  | Some cs => oset childrenById p (cs ++ [c])
  | None => childrenById
  end.

Definition createTypesAccess (localizedTypes : list LocalizedType) : TypesAccess :=
  let '(idIndex, childrenById) :=
    forEach (fun '(idIndex, childrenById) (type : LocalizedType) index =>
               (<[LocalizedType.id type := index]> idIndex,
                push_child childrenById
                  (LocalizedType.parentId type) (LocalizedType.id type)))
      localizedTypes 0%nat (∅, []) in
  TypesAccess.mk localizedTypes idIndex childrenById.

Definition dquote : string := String (ascii_of_nat 34) EmptyString.

Definition toMenuEntry (localizedType : LocalizedType) : TypeSelectMenuEntry :=
  let id := LocalizedType.id localizedType in
  let commonName := LocalizedType.commonName localizedType in
  let scientificName := LocalizedType.scientificName localizedType in
  let taxonomicRank := LocalizedType.taxonomicRank localizedType in
  let label :=
    if negb (is_empty scientificName) && negb (is_empty commonName)
    then (scientificName ++ " (" ++ commonName ++ ")")%string
    else if negb (is_empty scientificName)
         then scientificName
         else (dquote ++ commonName ++ dquote)%string in
  {| TypeSelectMenuEntry.value := id;
     TypeSelectMenuEntry.label := label;
     TypeSelectMenuEntry.commonName := commonName;
     TypeSelectMenuEntry.scientificName := scientificName;
     TypeSelectMenuEntry.taxonomicRank := taxonomicRank |}.

(** [this.localizedTypes[this.idIndex[id]]]: an absent id gives the index
    [undefined], and an array read at [undefined] gives [undefined]. *)
Definition record_at (a : TypesAccess) (id : Id) : option LocalizedType :=
  match TypesAccess.idIndex a !! id with
  | Some index => TypesAccess.localizedTypes a !! index
  | None => None
  end.

Definition getType (a : TypesAccess) (id : Id) : option LocalizedType :=
  record_at a id.

Definition getCommonName (a : TypesAccess) (id : Id) : string :=
  match record_at a id with
  | Some t => LocalizedType.commonName t
  | None => EmptyString
  end.

Definition getScientificName (a : TypesAccess) (id : Id) : string :=
  match record_at a id with
  | Some t => LocalizedType.scientificName t
  | None => EmptyString
  end.

Definition asMenuEntries (a : TypesAccess) : list TypeSelectMenuEntry :=
  map toMenuEntry (TypesAccess.localizedTypes a).

Definition getMenuEntry (a : TypesAccess) (id : Id) : option TypeSelectMenuEntry :=
  match record_at a id with
  | Some t => Some (toMenuEntry t)
  | None => None
  end.

(** [TypesAccess.filter]; the source repeats the loop of
    [createTypesAccess] rather than calling it. *)
Definition TypesAccess_filter (a : TypesAccess) (predicate : LocalizedType -> bool) : TypesAccess :=
  let filteredTypes := List.filter predicate (TypesAccess.localizedTypes a) in
  let '(newIdIndex, newChildrenById) :=
    forEach (fun '(newIdIndex, newChildrenById) (type : LocalizedType) index =>
               (<[LocalizedType.id type := index]> newIdIndex,
                push_child newChildrenById
                  (LocalizedType.parentId type) (LocalizedType.id type)))
      filteredTypes 0%nat (∅, []) in
  TypesAccess.mk filteredTypes newIdIndex newChildrenById.

Definition onlyAllowedParents (a : TypesAccess) : TypesAccess :=
  TypesAccess_filter a (fun t =>
    negb (LocalizedType.taxonomicRank t =? 9)
    && negb (LocalizedType.id t =? PENDING_ID)).

Definition addType (a : TypesAccess) (newType : SchemaType) (language : string) : TypesAccess :=
  createTypesAccess (TypesAccess.localizedTypes a ++ [localize newType language]).

(** ** Aggregation engine *)

(** [childrenById[id]?.forEach(...)] visits the children of [id], and
    nothing when [id] is not a key. *)
Definition children_of (childrenById : ODict (list Id)) (id : Id) : list Id :=
  match oget childrenById id with
  | Some children => children
  | None => []
  end.

(** [result[id]] where the key has been assigned ([result_read_present]
    below shows that the second case is never reached by the engine). *)
Definition result_read (result : IdDict Z) (id : Id) : Z :=
  match result !! id with
  | Some total => total
  | None => 0
  end.

(** The loop [forEach((childId) => { result[id] += call(childId) })]:
    [+=] reads [result[id]], then makes the call, then writes the sum. *)
Fixpoint add_children (call : IdDict Z -> Id -> option (IdDict Z * Z))
    (id : Id) (children : list Id) (result : IdDict Z) : option (IdDict Z) :=
  match children with
  | [] => Some result
  | childId :: rest =>
      let old := result_read result id in
      match call result childId with
      | Some (result', total) =>
          add_children call id rest (<[id := old + total]> result')
      | None => None
      end
  end.

Fixpoint _getTotalCount (fuel : nat) (result : IdDict Z) (id : Id)
    (childrenById : ODict (list Id)) (countsById : IdDict (option Z))
    : option (IdDict Z * Z) :=
  match fuel with
  | O => None
  | S fuel' =>
      match result !! id with
      | Some total => Some (result, total)
      | None =>
          let result := <[id := nullish_zero (dict_get countsById id)]> result in
          match add_children
                  (fun r childId => _getTotalCount fuel' r childId childrenById countsById)
                  id (children_of childrenById id) result with
          | Some result => Some (result, result_read result id)
          | None => None
          end
      end
  end.

(** The [for ... in] loop of [calculateAggregatedCounts] over [keys]. *)
Fixpoint aggregate_keys (fuel : nat) (keys : list Id) (result : IdDict Z)
    (childrenById : ODict (list Id)) (countsById : IdDict (option Z))
    : option (IdDict Z) :=
  match keys with
  | [] => Some result
  | id :: rest =>
      match _getTotalCount fuel result id childrenById countsById with
      | Some (result', _) => aggregate_keys fuel rest result' childrenById countsById
      | None => None
      end
  end.

Definition calculateAggregatedCounts (fuel : nat)
    (childrenById : ODict (list Id)) (countsById : IdDict (option Z))
    : option (IdDict Z) :=
  aggregate_keys fuel (own_keys childrenById) ∅ childrenById countsById.

(** ** TypesFrequency *)

Module TypesFrequency.
Record t := mk {
  base : TypesAccess;
  countsById : IdDict (option Z);
  aggregatedCountsById : IdDict Z
}.
End TypesFrequency.
Abbreviation TypesFrequency := TypesFrequency.t.

(** The constructor of [TypesFrequency]. *)
Definition new_TypesFrequency (fuel : nat) (localizedTypes : list LocalizedType)
    (idIndex : IdDict nat) (childrenById : ODict (list Id))
    (countsById : IdDict (option Z)) : option TypesFrequency :=
  match calculateAggregatedCounts fuel childrenById countsById with
  | Some aggregated =>
      Some (TypesFrequency.mk
              (TypesAccess.mk localizedTypes idIndex childrenById)
              countsById aggregated)
  | None => None
  end.

Definition createTypesFrequency (fuel : nat) (typesAccess : TypesAccess)
    (countsById : IdDict (option Z)) : option TypesFrequency :=
  new_TypesFrequency fuel
    (TypesAccess.localizedTypes typesAccess)
    (TypesAccess.idIndex typesAccess)
    (TypesAccess.childrenById typesAccess)
    countsById.

Definition getCount (f : TypesFrequency) (id : Id) : Z :=
  or_zero (dict_get (TypesFrequency.countsById f) id).

Definition getAggregatedCount (f : TypesFrequency) (id : Id) : Z :=
  or_zero (TypesFrequency.aggregatedCountsById f !! id).

Definition TypesFrequency_filter (fuel : nat) (f : TypesFrequency)
    (predicate : LocalizedType -> bool) : option TypesFrequency :=
  let filteredTypes :=
    List.filter predicate (TypesAccess.localizedTypes (TypesFrequency.base f)) in
  let '(newIdIndex, newChildrenById, newCountsById) :=
    forEach (fun '(newIdIndex, newChildrenById, newCountsById) (type : LocalizedType) index =>
               (<[LocalizedType.id type := index]> newIdIndex,
                push_child newChildrenById
                  (LocalizedType.parentId type) (LocalizedType.id type),
                <[LocalizedType.id type :=
                    dict_get (TypesFrequency.countsById f) (LocalizedType.id type)]>
                  newCountsById))
      filteredTypes 0%nat (∅, [], ∅) in
  new_TypesFrequency fuel filteredTypes newIdIndex newChildrenById newCountsById.

Definition dropZeroCounts (fuel : nat) (f : TypesFrequency) : option TypesFrequency :=
  TypesFrequency_filter fuel f
    (fun localizedType => 0 <? getAggregatedCount f (LocalizedType.id localizedType)).

(** ** Display order *)

(** [sortBy] of lodash, a library outside the repository: a stable sort
    that compares the values of the first iteratee, on a tie those of the
    next one, and so on, each in ascending order; elements that tie on
    every iteratee keep their order. [compareMultiple] is that chained
    comparison. *)
Definition not_after {A} (compareMultiple : A -> A -> comparison) (a b : A) : bool :=
  match compareMultiple a b with
  | Gt => false
  | _ => true
  end.

Definition sortBy {A} (compareMultiple : A -> A -> comparison) (collection : list A) : list A :=
  stable_sort (not_after compareMultiple) collection.

Definition then_compare (c : comparison) (next : comparison) : comparison :=
  match c with
  | Eq => next
  | _ => c
  end.

(** The four iteratees of [toDisplayOrder]: [!o.scientificName] (false
    sorts before true), [scientificName], [-o.taxonomicRank],
    [commonName]. *)
Definition display_compare (a b : LocalizedType) : comparison :=
  then_compare
    (Bool.compare (is_empty (LocalizedType.scientificName a))
                  (is_empty (LocalizedType.scientificName b)))
    (then_compare
       (String.compare (LocalizedType.scientificName a)
                       (LocalizedType.scientificName b))
       (then_compare
          (Z.compare (- LocalizedType.taxonomicRank a)
                     (- LocalizedType.taxonomicRank b))
          (String.compare (LocalizedType.commonName a)
                          (LocalizedType.commonName b)))).

Definition toDisplayOrder (localizedTypes : list LocalizedType) : list LocalizedType :=
  sortBy display_compare localizedTypes.

Definition pendingReview : LocalizedType :=
  {| LocalizedType.id := PENDING_ID;
     LocalizedType.parentId := 0;
     LocalizedType.scientificName := EmptyString;
     LocalizedType.commonName := "Pending Review";
     LocalizedType.taxonomicRank := 0;
     LocalizedType.urls := ∅ |}.

Definition typesAccessInLanguage (types : list SchemaType) (language : string) : TypesAccess :=
  let localizedTypes := map (fun t => localize t language) types in
  let localizedTypes :=
    if existsb (fun type => truthy_pending (SchemaType.pending type)) types
    then localizedTypes ++ [pendingReview]
    else localizedTypes in
  createTypesAccess (toDisplayOrder localizedTypes).

(** ** The same operations on a store of objects

    The functions above take the record list and the two dictionaries of a
    TypesAccess as values. In the program they are objects that instances
    refer to, and [createTypesAccess] fills its dictionaries and the
    arrays of children by assignments and [push]. This section keeps the
    objects in a store, so that what a call writes, and to which object,
    can be stated. *)

Module Heap.
Abbreviation loc := positive.

Inductive object :=
| Records (elements : list LocalizedType)
| Ids (elements : list Id)
| Index (entries : IdDict nat)
| Children (entries : ODict loc).

Abbreviation heap := (gmap loc object).

(** A TypesAccess object: its three fields hold references. *)
Record instance := mk {
  localizedTypes : loc;
  idIndex : loc;
  childrenById : loc
}.

(** A new object, at a reference that is not in use. *)
Definition alloc (h : heap) (o : object) : loc * heap :=
  let l := fresh (dom h) in (l, <[l := o]> h).

Definition read_records (h : heap) (l : loc) : option (list LocalizedType) :=
  match h !! l with
  | Some (Records elements) => Some elements
  | _ => None
  end.

Definition read_ids (h : heap) (l : loc) : option (list Id) :=
  match h !! l with
  | Some (Ids elements) => Some elements
  | _ => None
  end.

Definition read_index (h : heap) (l : loc) : option (IdDict nat) :=
  match h !! l with
  | Some (Index entries) => Some entries
  | _ => None
  end.

Definition read_children (h : heap) (l : loc) : option (ODict loc) :=
  match h !! l with
  | Some (Children entries) => Some entries
  | _ => None
  end.

(** The body of the loop of [createTypesAccess]; [None] is a read of an
    object of the wrong kind. *)
Definition build_step (idIndex childrenById : loc)
    (state : option heap) (type : LocalizedType) (index : nat) : option heap :=
  h ← state;
  (* idIndex[type.id] = index *)
  entries ← read_index h idIndex;
  let h := <[idIndex := Index (<[LocalizedType.id type := index]> entries)]> h in
  (* if (!childrenById[type.parentId]) childrenById[type.parentId] = [] *)
  children ← read_children h childrenById;
  let '(h, children) :=
    match oget children (LocalizedType.parentId type) with
    | Some _ => (h, children)
    | None =>
        let '(array, h) := alloc h (Ids []) in
        let children := oset children (LocalizedType.parentId type) array in
        (<[childrenById := Children children]> h, children)
    end in
  (* childrenById[type.parentId].push(type.id) *)
  array ← oget children (LocalizedType.parentId type);
  ids ← read_ids h array;
  Some (<[array := Ids (ids ++ [LocalizedType.id type])]> h).

Definition createTypesAccess (localizedTypes : loc) (h : heap) : option (instance * heap) :=
  records ← read_records h localizedTypes;
  let '(idIndex, h) := alloc h (Index ∅) in
  let '(childrenById, h) := alloc h (Children []) in
  h ← forEach (build_step idIndex childrenById) records 0%nat (Some h);
  Some (mk localizedTypes idIndex childrenById, h).

(** [[...this.localizedTypes, localize(newType, language)]] is a new
    array. *)
Definition addType (this : instance) (newType : SchemaType) (language : string)
    (h : heap) : option (instance * heap) :=
  records ← read_records h (localizedTypes this);
  let '(array, h) := alloc h (Records (records ++ [localize newType language])) in
  createTypesAccess array h.

(** [TypesAccess.filter]: [this.localizedTypes.filter(predicate)] is a new
    array, and the loop of [createTypesAccess] is repeated on it. *)
Definition filter (this : instance) (predicate : LocalizedType -> bool)
    (h : heap) : option (instance * heap) :=
  records ← read_records h (localizedTypes this);
  let filteredTypes := List.filter predicate records in
  let '(array, h) := alloc h (Records filteredTypes) in
  let '(newIdIndex, h) := alloc h (Index ∅) in
  let '(newChildrenById, h) := alloc h (Children []) in
  h ← forEach (build_step newIdIndex newChildrenById) filteredTypes 0%nat (Some h);
  Some (mk array newIdIndex newChildrenById, h).

(** [this.localizedTypes[this.idIndex[id]]]; the outer [None] is a read
    of an object of the wrong kind, the inner one is [undefined]. *)
Definition getType (this : instance) (id : Id) (h : heap) : option (option LocalizedType) :=
  records ← read_records h (localizedTypes this);
  entries ← read_index h (idIndex this);
  Some (match entries !! id with
        | Some index => records !! index
        | None => None
        end).

(** The dictionary of children with each reference replaced by the
    array it refers to. *)
Definition ids_at (h : heap) (l : loc) : list Id :=
  match h !! l with
  | Some (Ids elements) => elements
  | _ => []
  end.

Definition resolve (h : heap) (children : ODict loc) : ODict (list Id) :=
  map (fun '(k, l) => (k, ids_at h l)) children.

(** [children] refers to arrays of ids only, and to each one once. *)
Definition children_wf (h : heap) (children : ODict loc) : Prop :=
  NoDup (map snd children)
  ∧ Forall (fun l => is_Some (read_ids h l)) (map snd children).

(** The TypesAccess value that the instance [this] stands for in [h]. *)
Definition view (h : heap) (this : instance) (a : TypesAccess) : Prop :=
  read_records h (localizedTypes this) = Some (TypesAccess.localizedTypes a)
  ∧ read_index h (idIndex this) = Some (TypesAccess.idIndex a)
  ∧ exists children,
      read_children h (childrenById this) = Some children
      ∧ children_wf h children
      ∧ resolve h children = TypesAccess.childrenById a.
End Heap.

(** ** Auxiliary definitions used by the statements *)

(** The two components of the loop of [createTypesAccess]. *)
Definition id_step (idIndex : IdDict nat) (type : LocalizedType) (index : nat) : IdDict nat :=
  <[LocalizedType.id type := index]> idIndex.

Definition child_step (childrenById : ODict (list Id)) (type : LocalizedType) (index : nat) : ODict (list Id) :=
  push_child childrenById (LocalizedType.parentId type) (LocalizedType.id type).

Definition build_idIndex (l : list LocalizedType) : IdDict nat :=
  forEach id_step l 0%nat ∅.

Definition build_childrenById (l : list LocalizedType) : ODict (list Id) :=
  forEach child_step l 0%nat [].

(** The ids of the records of [l] whose parent is [p], in record order. *)
Definition ids_with_parent (p : Id) (l : list LocalizedType) : list Id :=
  map LocalizedType.id (List.filter (fun r => LocalizedType.parentId r =? p) l).

Definition Zsum (l : list Z) : Z := foldr Z.add 0 l.

(** [edge ch p c]: [c] is listed among the children of [p]. *)
Definition edge (childrenById : ODict (list Id)) (p c : Id) : Prop :=
  c ∈ children_of childrenById p.

(** No id is its own descendant. *)
Definition Acyclic (childrenById : ODict (list Id)) : Prop :=
  forall x, ~ tc (edge childrenById) x x.

(** [rank] decreases from every key of the index to each child listed
    under it. *)
Definition ranked_by (rank : Id -> Z) (childrenById : ODict (list Id)) : bool :=
  forallb (fun '(p, cs) => forallb (fun c => rank c <? rank p) cs) childrenById.

(** The ids the hierarchy mentions: the keys of [childrenById] and the
    children listed under them. *)
Definition in_hierarchy (childrenById : ODict (list Id)) (id : Id) : Prop :=
  is_Some (oget childrenById id) \/ exists p, id ∈ children_of childrenById p.

Definition hierarchy_ids (childrenById : ODict (list Id)) : gset Id :=
  list_to_set (map fst childrenById ++ concat (map snd childrenById)).

(** What a frame may assume of the calls it makes: a call leaves the
    entries of the memo table as they are, and returns the entry of its
    id. *)
Definition call_grows (call : IdDict Z -> Id -> option (IdDict Z * Z)) : Prop :=
  forall r c r' v, call r c = Some (r', v) -> r ⊆ r' ∧ r' !! c = Some v.

Definition closed_under_children (childrenById : ODict (list Id)) (U : gset Id) : Prop :=
  forall p c, c ∈ children_of childrenById p -> c ∈ U.

(** [countsById[id] ?? 0], the raw count the engine starts from. *)
Definition own_count (countsById : IdDict (option Z)) (id : Id) : Z :=
  nullish_zero (dict_get countsById id).

(** A comparison of keys that is a total order: [Eq] is equality, swapping
    the arguments swaps [Lt] and [Gt], and [Lt] is transitive. *)
Record KeyOrder {K} (cmp : K -> K -> comparison) : Prop := {
  key_eq : forall x y, cmp x y = Eq <-> x = y;
  key_swap : forall x y, cmp y x = CompOpp (cmp x y);
  key_lt_trans : forall x y z, cmp x y = Lt -> cmp y z = Lt -> cmp x z = Lt
}.

(** A comparison of records that is a total preorder. *)
Record RecordOrder {A} (cmp : A -> A -> comparison) : Prop := {
  rec_swap : forall a b, cmp b a = CompOpp (cmp a b);
  rec_trans : forall a b c,
    not_after cmp a b = true -> not_after cmp b c = true -> not_after cmp a c = true
}.

(** The display order in the words of the specification: [a] may stand
    before [b]. *)
Definition display_before (a b : LocalizedType) : Prop :=
  (LocalizedType.scientificName a = EmptyString ->
   LocalizedType.scientificName b = EmptyString)
  ∧ (LocalizedType.scientificName a ≠ EmptyString ->
     LocalizedType.scientificName b ≠ EmptyString ->
     String.leb (LocalizedType.scientificName a) (LocalizedType.scientificName b) = true
     ∧ (LocalizedType.scientificName a = LocalizedType.scientificName b ->
        LocalizedType.taxonomicRank b <= LocalizedType.taxonomicRank a
        ∧ (LocalizedType.taxonomicRank a = LocalizedType.taxonomicRank b ->
           String.leb (LocalizedType.commonName a) (LocalizedType.commonName b) = true))).

(** The entries of the memo table [r] outside the set [S] of ids whose
    frames are still running are final: their children are in the table
    and outside [S], and their value is the raw count plus the values of
    the children. *)
Definition settled (childrenById : ODict (list Id)) (countsById : IdDict (option Z))
    (S : gset Id) (r : IdDict Z) : Prop :=
  forall x v, r !! x = Some v -> x ∉ S ->
    (forall c, c ∈ children_of childrenById x -> (c ∉ S) ∧ is_Some (r !! c))
    ∧ v = own_count countsById x
          + Zsum (map (result_read r) (children_of childrenById x)).

(** What the loop of the frame of [id] has reached after the children
    [pre]. *)
Definition loop_inv (childrenById : ODict (list Id)) (countsById : IdDict (option Z))
    (S : gset Id) (id : Id) (pre : list Id) (r : IdDict Z) : Prop :=
  settled childrenById countsById (S ∪ {[id]}) r
  ∧ r !! id = Some (own_count countsById id + Zsum (map (result_read r) pre))
  ∧ Forall (fun c => (c ∉ S ∪ {[id]}) ∧ is_Some (r !! c)) pre.

(** The children of every entry outside [S] are in the memo table. *)
Definition children_memoised (childrenById : ODict (list Id)) (S : gset Id) (r : IdDict Z) : Prop :=
  forall x, is_Some (r !! x) -> x ∉ S ->
    forall c, c ∈ children_of childrenById x -> is_Some (r !! c).

(** Every entry of the memo table is at least the raw count of its id. *)
Definition above_own (countsById : IdDict (option Z)) (r : IdDict Z) : Prop :=
  forall x v, r !! x = Some v -> own_count countsById x <= v.

(** Every supplied raw count is nonnegative. *)
Definition counts_nonneg (countsById : IdDict (option Z)) : Prop :=
  forall k n, countsById !! k = Some (Some n) -> 0 <= n.

(** What the loop of [Heap.createTypesAccess] keeps true, for a call that
    started in the store [h0] and allocated its two dictionaries at
    [idIndex] and [childrenById]: the dictionaries in the current store [h]
    hold the values [entries] and [children] that the loop of
    [createTypesAccess] has computed from the same records; the arrays of
    children are objects of this call, one for each key; and every object of
    [h0] is as it was. *)
Definition build_inv (h0 : Heap.heap) (idIndex childrenById : Heap.loc)
    (h : Heap.heap) (entries : IdDict nat) (children : ODict (list Id)) : Prop :=
  Heap.read_index h idIndex = Some entries
  ∧ (exists refs,
        Heap.read_children h childrenById = Some refs
        ∧ Heap.children_wf h refs
        ∧ Heap.resolve h refs = children
        ∧ forall l, l ∈ map snd refs -> h0 !! l = None ∧ l ≠ idIndex ∧ l ≠ childrenById)
  ∧ (forall l, is_Some (h0 !! l) -> h !! l = h0 !! l).

(** ** Example hierarchies *)

(** A record with nothing but its id and its parent. *)
Definition plain (id parentId : Id) : LocalizedType :=
  {| LocalizedType.id := id;
     LocalizedType.parentId := parentId;
     LocalizedType.scientificName := EmptyString;
     LocalizedType.commonName := EmptyString;
     LocalizedType.taxonomicRank := 0;
     LocalizedType.urls := ∅ |}.

(** The chain A = 1, B = 2 (child of A), C = 3 (child of B), with the counts
    1, 2 and 3. *)
Definition chain : TypesAccess :=
  createTypesAccess [plain 1 0; plain 2 1; plain 3 2].

Definition chain_counts : IdDict (option Z) :=
  <[1 := Some 1]> (<[2 := Some 2]> (<[3 := Some 3]> ∅)).

(** Two records that name each other as parent. *)
Definition loop2 : TypesAccess :=
  createTypesAccess [plain 1 2; plain 2 1].

(** One record, and a raw count for an id (7) that no record mentions. *)
Definition single : TypesAccess :=
  createTypesAccess [plain 1 0].

Definition stray_counts : IdDict (option Z) :=
  <[1 := Some 2]> (<[7 := Some 5]> ∅).

(** A raw count below zero for the one record of [single]. *)
Definition owing_counts : IdDict (option Z) :=
  <[1 := Some (-2)]> ∅.

(** Two children of the root, one of them with a child; only the
    grandchild has been counted. *)
Definition forked : TypesAccess :=
  createTypesAccess [plain 1 0; plain 2 1; plain 3 0].

Definition forked_counts : IdDict (option Z) :=
  <[2 := Some 4]> ∅.

(** The instance [single] as objects of a store. *)
Definition single_heap : Heap.heap :=
  <[1%positive := Heap.Records [plain 1 0]]>
    (<[2%positive := Heap.Index (<[1 := 0%nat]> ∅)]>
       (<[3%positive := Heap.Children [(0, 4%positive)]]>
          (<[4%positive := Heap.Ids [1]]> ∅))).

Definition single_instance : Heap.instance :=
  Heap.mk 1%positive 2%positive 3%positive.

(** ** The engine on JavaScript numbers

    [_getTotalCount] above adds integers. A JavaScript number is a double:
    an integer of magnitude at most 2^53 is a double, the sum of two
    doubles is the exact sum rounded to the nearest double, a tie going to
    the double with the even significand, and the sum of integers is exact
    as long as it stays within 2^53. The functions below are the engine
    with [+=] as the addition of doubles, on counts that are integers.
    The two engines agree as long as no total exceeds 2^53, and part
    above it. Counts that are no integers, and NaN, are outside both. *)

Definition MAX_EXACT : Z := 9007199254740992.

(** The double nearest to the integer [x]; [None] where it is an infinity.
    Above 2^53 the doubles are the multiples [m * ulp] of a power of two
    with [2^52 <= m < 2^53]. *)
Definition double_round (x : Z) : option Z :=
  let a := Z.abs x in
  if a <=? MAX_EXACT then Some x
  else
    let ulp := 2 ^ (Z.log2 a - 52) in
    let m := a / ulp in
    let m' :=
      match (2 * (a mod ulp)) ?= ulp with
      | Lt => m
      | Gt => m + 1
      | Eq => if Z.even m then m else m + 1
      end in
    if 2 ^ 1024 <=? m' * ulp then None else Some (Z.sgn x * (m' * ulp)).

Definition is_double (x : Z) : bool :=
  match double_round x with
  | Some y => y =? x
  | None => false
  end.

(** [a + b] on doubles that are integers. *)
Definition double_add (a b : Z) : option Z :=
  if is_double a && is_double b then double_round (a + b) else None.

(** [add_children] with [+=] on doubles. *)
Fixpoint add_children_double (call : IdDict Z -> Id -> option (IdDict Z * Z))
    (id : Id) (children : list Id) (result : IdDict Z) : option (IdDict Z) :=
  match children with
  | [] => Some result
  | childId :: rest =>
      let old := result_read result id in
      match call result childId with
      | Some (result', total) =>
          match double_add old total with
          | Some sum => add_children_double call id rest (<[id := sum]> result')
          | None => None
          end
      | None => None
      end
  end.

(** [_getTotalCount] on doubles: [None] for the exhausted stack, as
    before, and where a count is no double or a total is an infinity. *)
Fixpoint _getTotalCount_double (fuel : nat) (result : IdDict Z) (id : Id)
    (childrenById : ODict (list Id)) (countsById : IdDict (option Z))
    : option (IdDict Z * Z) :=
  match fuel with
  | O => None
  | S fuel' =>
      match result !! id with
      | Some total => Some (result, total)
      | None =>
          let own := nullish_zero (dict_get countsById id) in
          if is_double own
          then
            match add_children_double
                    (fun r childId =>
                       _getTotalCount_double fuel' r childId childrenById countsById)
                    id (children_of childrenById id) (<[id := own]> result) with
            | Some result => Some (result, result_read result id)
            | None => None
            end
          else None
      end
  end.

(** The loop, the function and the constructor over this engine. *)
Fixpoint aggregate_keys_double (fuel : nat) (keys : list Id) (result : IdDict Z)
    (childrenById : ODict (list Id)) (countsById : IdDict (option Z))
    : option (IdDict Z) :=
  match keys with
  | [] => Some result
  | id :: rest =>
      match _getTotalCount_double fuel result id childrenById countsById with
      | Some (result', _) =>
          aggregate_keys_double fuel rest result' childrenById countsById
      | None => None
      end
  end.

Definition calculateAggregatedCounts_double (fuel : nat)
    (childrenById : ODict (list Id)) (countsById : IdDict (option Z))
    : option (IdDict Z) :=
  aggregate_keys_double fuel (own_keys childrenById) ∅ childrenById countsById.

Definition new_TypesFrequency_double (fuel : nat) (localizedTypes : list LocalizedType)
    (idIndex : IdDict nat) (childrenById : ODict (list Id))
    (countsById : IdDict (option Z)) : option TypesFrequency :=
  match calculateAggregatedCounts_double fuel childrenById countsById with
  | Some aggregated =>
      Some (TypesFrequency.mk
              (TypesAccess.mk localizedTypes idIndex childrenById)
              countsById aggregated)
  | None => None
  end.

Definition createTypesFrequency_double (fuel : nat) (typesAccess : TypesAccess)
    (countsById : IdDict (option Z)) : option TypesFrequency :=
  new_TypesFrequency_double fuel
    (TypesAccess.localizedTypes typesAccess)
    (TypesAccess.idIndex typesAccess)
    (TypesAccess.childrenById typesAccess)
    countsById.

(** No entry of the memo table exceeds 2^53. *)
Definition bounded (r : IdDict Z) : Prop :=
  forall x y, r !! x = Some y -> y <= MAX_EXACT.

(** Every entry of [r] is an entry of [r'] that is at least as large. *)
Definition below (r r' : IdDict Z) : Prop :=
  forall x y, r !! x = Some y -> exists y', r' !! x = Some y' ∧ y <= y'.

(** A record with two children, and a raw count of 2^53 for it and of 1
    for each child. *)
Definition two_children : TypesAccess :=
  createTypesAccess [plain 1 0; plain 2 1; plain 3 1].

Definition large_counts : IdDict (option Z) :=
  <[1 := Some MAX_EXACT]> (<[2 := Some 1]> (<[3 := Some 1]> ∅)).

(** ** Definitions used by the further properties *)

(** The last record of [l] whose id is [k]. *)
Definition last_with_id (k : Id) (l : list LocalizedType) : option LocalizedType :=
  last (List.filter (fun r => LocalizedType.id r =? k) l).

(** The predicate of [onlyAllowedParents]. *)
Definition allowed_parent (t : LocalizedType) : bool :=
  negb (LocalizedType.taxonomicRank t =? 9)
  && negb (LocalizedType.id t =? PENDING_ID).

(** * Properties *)

(** ** The embedding on small inputs *)

Example own_keys_order :
  own_keys [(5, [1]); (-1, [2]); (3, [4]); (4294967295, [6]); (0, [7])]
  = [0; 3; 5; -1; 4294967295].
Proof. reflexivity. Qed.

Example chain_childrenById :
  TypesAccess.childrenById chain = [(0, [1]); (1, [2]); (2, [3])].
Proof. reflexivity. Qed.

Example chain_needs_four_frames :
  calculateAggregatedCounts 3 (TypesAccess.childrenById chain) chain_counts = None
  ∧ calculateAggregatedCounts 4 (TypesAccess.childrenById chain) chain_counts
    = Some (<[0 := 6]> (<[1 := 6]> (<[2 := 5]> (<[3 := 3]> ∅)))).
Proof. split; by vm_compute. Qed.

Example menu_label_both :
  TypeSelectMenuEntry.label
    (toMenuEntry (LocalizedType.mk 1 0 "Quercus alba" "White oak" 8 ∅))
  = "Quercus alba (White oak)"%string.
Proof. reflexivity. Qed.

Example menu_label_scientific_only :
  TypeSelectMenuEntry.label
    (toMenuEntry (LocalizedType.mk 1 0 "Quercus alba" EmptyString 8 ∅))
  = "Quercus alba"%string.
Proof. reflexivity. Qed.

Example menu_label_common_only :
  TypeSelectMenuEntry.label
    (toMenuEntry (LocalizedType.mk 1 0 EmptyString "Unknown" 8 ∅))
  = (dquote ++ "Unknown" ++ dquote)%string.
Proof. reflexivity. Qed.

Example localize_falls_back_to_english :
  LocalizedType.commonName
    (localize
       (SchemaType.mk 4 None None None
          (Some (<["en"%string := ["Apple"%string]]> ∅)) None None)
       "fr")
  = "Apple"%string.
Proof. by vm_compute. Qed.

Example localize_pending_parent :
  LocalizedType.parentId
    (localize (SchemaType.mk 4 (Some 7) (Some true) None None None None) "en")
  = PENDING_ID.
Proof. reflexivity. Qed.

(** ** Ordered dictionaries *)

Section ODictFacts.
Context {T : Type}.
Implicit Types (d : ODict T) (k : Id) (v : T).

Lemma oget_oset_eq d k v : oget (oset d k v) k = Some v.
Proof.
  induction d as [|[k' v'] d IH]; simpl.
  - by rewrite Z.eqb_refl.
  - destruct (Z.eqb k' k) eqn:E; simpl; rewrite E; auto.
Qed.

Lemma oget_oset_ne d k k' v : k ≠ k' -> oget (oset d k v) k' = oget d k'.
Proof.
  intros Hne. induction d as [|[k0 v0] d IH]; simpl.
  - destruct (Z.eqb_spec k k'); congruence.
  - destruct (Z.eqb_spec k0 k) as [->|Hk]; simpl.
    + destruct (Z.eqb_spec k k'); congruence.
    + destruct (Z.eqb_spec k0 k'); auto.
Qed.

Lemma oget_Some_key d k v : oget d k = Some v -> k ∈ map fst d.
Proof.
  induction d as [|[k0 v0] d IH]; simpl; [done|].
  destruct (Z.eqb_spec k0 k) as [->|Hk]; intros H.
  - left.
  - right. auto.
Qed.

Lemma oget_Some_elem d k v : oget d k = Some v -> (k, v) ∈ d.
Proof.
  induction d as [|[k0 v0] d IH]; simpl; [done|].
  destruct (Z.eqb_spec k0 k) as [->|Hk]; intros H.
  - injection H as ->. left.
  - right. auto.
Qed.

Lemma oget_key_Some d k : k ∈ map fst d -> is_Some (oget d k).
Proof.
  induction d as [|[k0 v0] d IH]; simpl.
  - intros H. by apply elem_of_nil in H.
  - intros H. destruct (Z.eqb_spec k0 k) as [->|Hk]; [eauto|].
    apply elem_of_cons in H as [H|H]; [congruence|auto].
Qed.
End ODictFacts.

Lemma push_child_same ch p c :
  oget (push_child ch p c) p = Some (children_of ch p ++ [c]).
Proof.
  unfold push_child, children_of.
  destruct (oget ch p) as [cs|] eqn:E.
  - rewrite E. apply oget_oset_eq.
  - rewrite oget_oset_eq. apply oget_oset_eq.
Qed.

Lemma push_child_other ch p c p' :
  p ≠ p' -> oget (push_child ch p c) p' = oget ch p'.
Proof.
  intros Hne. unfold push_child.
  destruct (oget ch p) as [cs|] eqn:E.
  - rewrite E. by apply oget_oset_ne.
  - rewrite oget_oset_eq. by rewrite !oget_oset_ne.
Qed.

(** ** The index builder *)

Lemma forEach_pair {A S1 S2} (f : S1 -> A -> nat -> S1) (g : S2 -> A -> nat -> S2) l i s1 s2 :
  forEach (fun '(a, b) x index => (f a x index, g b x index)) l i (s1, s2)
  = (forEach f l i s1, forEach g l i s2).
Proof.
  revert i s1 s2. induction l as [|x l IH]; intros; simpl; [done|]. apply IH.
Qed.

Lemma forEach_triple {A S1 S2 S3} (f : S1 -> A -> nat -> S1) (g : S2 -> A -> nat -> S2)
    (h : S3 -> A -> nat -> S3) l i s1 s2 s3 :
  forEach (fun '(a, b, c) x index => (f a x index, g b x index, h c x index))
    l i (s1, s2, s3)
  = (forEach f l i s1, forEach g l i s2, forEach h l i s3).
Proof.
  revert i s1 s2 s3. induction l as [|x l IH]; intros; simpl; [done|]. apply IH.
Qed.

Lemma forEach_app {A St} (f : St -> A -> nat -> St) l1 l2 i s :
  forEach f (l1 ++ l2) i s = forEach f l2 (i + length l1)%nat (forEach f l1 i s).
Proof.
  revert i s. induction l1 as [|x l1 IH]; intros; simpl.
  - f_equal. lia.
  - rewrite IH. f_equal. lia.
Qed.

Lemma createTypesAccess_unfold l :
  createTypesAccess l = TypesAccess.mk l (build_idIndex l) (build_childrenById l).
Proof.
  unfold createTypesAccess.
  change (forEach _ l 0%nat (∅, []))
    with (forEach (fun '(a, b) x index => (id_step a x index, child_step b x index))
            l 0%nat (∅ : IdDict nat, [] : ODict (list Id))).
  by rewrite forEach_pair.
Qed.

Lemma createTypesAccess_localizedTypes l :
  TypesAccess.localizedTypes (createTypesAccess l) = l.
Proof. by rewrite createTypesAccess_unfold. Qed.

Lemma TypesAccess_filter_unfold a p :
  TypesAccess_filter a p = createTypesAccess (List.filter p (TypesAccess.localizedTypes a)).
Proof. reflexivity. Qed.

(** [idIndex] maps an id to the position of the last record that has it. *)
Lemma forEach_id_step_Some l i0 idx0 k i :
  forEach id_step l i0 idx0 !! k = Some i ->
  (idx0 !! k = Some i ∧ k ∉ map LocalizedType.id l)
  ∨ (∃ r, (i0 <= i)%nat ∧ l !! (i - i0)%nat = Some r ∧ LocalizedType.id r = k).
Proof.
  revert i0 idx0. induction l as [|x l IH]; intros i0 idx0 H; simpl in *.
  - left. split; [done|]. apply not_elem_of_nil.
  - apply IH in H as [[H Hnot]|(r & Hle & Hr & Hid)].
    + unfold id_step in H. rewrite lookup_insert in H. case_decide as Hk.
      * right. injection H as <-. exists x. rewrite Nat.sub_diag. auto.
      * left. split; [done|]. rewrite not_elem_of_cons. auto.
    + right. exists r. split; [lia|]. split; [|done].
      replace (i - i0)%nat with (S (i - S i0)) by lia. done.
Qed.

Lemma forEach_id_step_None l i0 idx0 k :
  k ∉ map LocalizedType.id l -> forEach id_step l i0 idx0 !! k = idx0 !! k.
Proof.
  revert i0 idx0. induction l as [|x l IH]; intros i0 idx0 H; simpl in *; [done|].
  apply not_elem_of_cons in H as [H1 H2].
  rewrite IH by done. unfold id_step. by rewrite lookup_insert_ne.
Qed.

Lemma forEach_id_step_is_Some l i0 idx0 k :
  k ∈ map LocalizedType.id l -> is_Some (forEach id_step l i0 idx0 !! k).
Proof.
  revert i0 idx0. induction l as [|x l IH]; intros i0 idx0 H; simpl in *.
  - by apply elem_of_nil in H.
  - destruct (decide (k ∈ map LocalizedType.id l)) as [Hin|Hnot]; [by apply IH|].
    apply elem_of_cons in H as [->|H]; [|done].
    rewrite forEach_id_step_None by done.
    unfold id_step. rewrite lookup_insert_eq. eauto.
Qed.

(** [childrenById[p]] lists, in record order, the ids of the records whose
    [parentId] is [p]; [p] is a key exactly when there is such a record. *)
Lemma forEach_child_step_children l i0 ch0 p :
  children_of (forEach child_step l i0 ch0) p
  = children_of ch0 p ++ ids_with_parent p l.
Proof.
  revert i0 ch0. induction l as [|x l IH]; intros i0 ch0; simpl.
  - unfold ids_with_parent. simpl. by rewrite app_nil_r.
  - rewrite IH. unfold ids_with_parent. simpl.
    destruct (Z.eqb_spec (LocalizedType.parentId x) p) as [<-|Hne]; simpl.
    + unfold child_step, children_of at 1. rewrite push_child_same.
      by rewrite <- app_assoc.
    + unfold child_step, children_of at 1. rewrite push_child_other by done.
      done.
Qed.

Lemma forEach_child_step_key l i0 ch0 p :
  is_Some (oget (forEach child_step l i0 ch0) p)
  <-> is_Some (oget ch0 p) ∨ p ∈ map LocalizedType.parentId l.
Proof.
  revert i0 ch0. induction l as [|x l IH]; intros i0 ch0; simpl.
  - split; [auto|]. intros [H|H]; [done|]. by apply elem_of_nil in H.
  - rewrite IH. unfold child_step. rewrite elem_of_cons.
    destruct (decide (LocalizedType.parentId x = p)) as [<-|Hne].
    + rewrite push_child_same. split; eauto.
    + rewrite push_child_other by done. split; [tauto|].
      intros [H|[H|H]]; [tauto|congruence|tauto].
Qed.

Lemma build_childrenById_children l p :
  children_of (build_childrenById l) p = ids_with_parent p l.
Proof. unfold build_childrenById. by rewrite forEach_child_step_children. Qed.

Lemma build_childrenById_key l p :
  is_Some (oget (build_childrenById l) p) <-> p ∈ map LocalizedType.parentId l.
Proof.
  unfold build_childrenById. rewrite forEach_child_step_key. simpl.
  split; [|auto]. intros [[? H]|H]; [done|done].
Qed.

(** ** The aggregation engine: memo table and stack depth *)

Lemma Zsum_app l1 l2 : Zsum (l1 ++ l2) = Zsum l1 + Zsum l2.
Proof. unfold Zsum. induction l1 as [|x l1 IH]; simpl; lia. Qed.

Lemma Zsum_nonneg l : Forall (fun x => 0 <= x) l -> 0 <= Zsum l.
Proof. unfold Zsum. induction 1; simpl; lia. Qed.

Lemma or_zero_Z x : or_zero (Some x) = x.
Proof. simpl. destruct (Z.eqb_spec x 0); lia. Qed.

Lemma or_zero_nullish x : or_zero x = nullish_zero x.
Proof. destruct x; [apply or_zero_Z|done]. Qed.

Lemma result_read_Some (r : IdDict Z) k v : r !! k = Some v -> result_read r k = v.
Proof. unfold result_read. by intros ->. Qed.

Lemma result_read_insert_ne (r : IdDict Z) k k' v :
  k ≠ k' -> result_read (<[k := v]> r) k' = result_read r k'.
Proof. intros. unfold result_read. by rewrite lookup_insert_ne. Qed.

Section Engine.
Variable childrenById : ODict (list Id).
Variable countsById : IdDict (option Z).

Local Abbreviation run fuel r id := (_getTotalCount fuel r id childrenById countsById).

(** The loop of a frame only rewrites the entry of the frame's own id,
    and never removes an entry. *)
Lemma add_children_grows call id cs r r' :
  call_grows call ->
  add_children call id cs r = Some r' ->
  (forall k, k ≠ id -> forall x, r !! k = Some x -> r' !! k = Some x)
  ∧ dom r ⊆ dom r'.
Proof.
  intros Hcall. revert r. induction cs as [|c cs IH]; intros r H; simpl in H.
  - injection H as ->. auto.
  - destruct (call r c) as [[r1 v]|] eqn:E; [|done].
    apply Hcall in E as [Hsub Hc].
    pose proof (IH _ H) as [Hkeep Hdom]. split.
    + intros k Hk x Hx. apply Hkeep; [done|].
      rewrite lookup_insert_ne by done. eapply lookup_weaken; eauto.
    + etrans; [|exact Hdom]. rewrite dom_insert.
      apply subseteq_dom in Hsub. set_solver.
Qed.

(** A call never changes an entry that is already in the memo table, and
    it returns the entry of its id. *)
Lemma getTotalCount_grows fuel : call_grows (fun r c => run fuel r c).
Proof.
  induction fuel as [|fuel IH]; intros r id r' v H; simpl in H; [done|].
  destruct (r !! id) as [total|] eqn:Hid.
  - injection H as <- <-. auto.
  - destruct (add_children _ id _ _) as [r2|] eqn:E; [|done].
    injection H as <- <-.
    pose proof (add_children_grows _ _ _ _ _ IH E) as [Hkeep Hdom].
    split.
    + apply map_subseteq_spec. intros k x Hx.
      assert (k ≠ id) by congruence.
      apply Hkeep; [done|]. by rewrite lookup_insert_ne.
    + assert (id ∈ dom r2) as Hin.
      { apply Hdom. rewrite dom_insert. set_solver. }
      apply elem_of_dom in Hin as [x Hx].
      rewrite Hx. f_equal. symmetry. by apply result_read_Some.
Qed.

(** Every read [result[id]] of the loop finds the key. *)
Lemma result_read_present fuel r id r' :
  add_children (fun r c => run fuel r c) id (children_of childrenById id)
    (<[id := own_count countsById id]> r) = Some r' ->
  is_Some (r' !! id).
Proof.
  intros H. apply add_children_grows in H as [_ Hdom]; [|apply getTotalCount_grows].
  apply elem_of_dom, Hdom. rewrite dom_insert. set_solver.
Qed.

Lemma aggregate_keys_grows fuel keys r r' :
  aggregate_keys fuel keys r childrenById countsById = Some r' ->
  r ⊆ r' ∧ (forall k, k ∈ keys -> is_Some (r' !! k)).
Proof.
  revert r. induction keys as [|k keys IH]; intros r H; simpl in H.
  - injection H as ->. split; [done|]. intros k Hk. by apply elem_of_nil in Hk.
  - destruct (run fuel r k) as [[r1 v]|] eqn:E; [|done].
    apply getTotalCount_grows in E as [Hsub Hk].
    pose proof (IH _ H) as [Hsub' Hkeys]. split; [by etrans|].
    intros k' [->|Hin]%elem_of_cons; [|auto].
    exists v. eapply lookup_weaken; eauto.
Qed.

(** *** Stack depth *)

Lemma hierarchy_ids_closed : closed_under_children childrenById (hierarchy_ids childrenById).
Proof.
  intros p c Hc. unfold children_of in Hc.
  destruct (oget childrenById p) as [cs|] eqn:E; [|by apply elem_of_nil in Hc].
  apply oget_Some_elem in E. unfold hierarchy_ids.
  apply elem_of_list_to_set, elem_of_app. right.
  apply list_elem_of_In, in_concat. exists cs. split.
  - apply in_map_iff. exists (p, cs). split; [done|]. by apply list_elem_of_In.
  - by apply list_elem_of_In.
Qed.

Lemma hierarchy_ids_key k :
  k ∈ map fst childrenById -> k ∈ hierarchy_ids childrenById.
Proof.
  intros H. unfold hierarchy_ids. apply elem_of_list_to_set, elem_of_app. by left.
Qed.

Lemma size_diff_insert (U : gset Id) (r : IdDict Z) id v :
  id ∈ U -> r !! id = None ->
  (size (U ∖ dom (<[id := v]> r)) < size (U ∖ dom r))%nat.
Proof.
  intros HU Hr. apply subset_size. rewrite dom_insert.
  apply not_elem_of_dom in Hr. set_solver.
Qed.

Lemma size_diff_mono (U : gset Id) (r r' : IdDict Z) :
  dom r ⊆ dom r' -> (size (U ∖ dom r') <= size (U ∖ dom r))%nat.
Proof. intros H. apply subseteq_size. set_solver. Qed.

Section Depth.
Variable U : gset Id.
Hypothesis U_closed : closed_under_children childrenById U.

Lemma add_children_returns call fuel id cs r :
  call_grows call ->
  (forall r c, c ∈ U -> (size (U ∖ dom r) < fuel)%nat -> is_Some (call r c)) ->
  Forall (fun c => c ∈ U) cs ->
  (size (U ∖ dom r) < fuel)%nat ->
  is_Some (add_children call id cs r).
Proof.
  intros Hgrow Hcall Hcs. revert r.
  induction Hcs as [|c cs Hc Hcs IH]; intros r Hsize; simpl; [eauto|].
  destruct (Hcall r c Hc Hsize) as [[r1 v] E]. rewrite E.
  apply IH. apply Hgrow in E as [Hsub _].
  eapply Nat.le_lt_trans; [|exact Hsize].
  apply size_diff_mono. rewrite dom_insert.
  apply subseteq_dom in Hsub. set_solver.
Qed.

(** A call returns as soon as the stack has one frame more than there
    are ids of [U] still missing from the memo table. *)
Lemma getTotalCount_returns fuel r id :
  id ∈ U -> (size (U ∖ dom r) < fuel)%nat -> is_Some (run fuel r id).
Proof.
  revert r id. induction fuel as [|fuel IH]; intros r id Hid Hsize; [lia|].
  simpl. destruct (r !! id) as [total|] eqn:Hr; [eauto|].
  match goal with |- is_Some (match ?x with _ => _ end) =>
    assert (is_Some x) as [r2 ->]; [|eauto] end.
  apply (add_children_returns _ fuel).
  - apply getTotalCount_grows.
  - intros; by apply IH.
  - apply Forall_forall. intros c Hc. by eapply U_closed.
  - pose proof (size_diff_insert U r id (nullish_zero (dict_get countsById id)) Hid Hr).
    lia.
Qed.

Lemma aggregate_keys_returns fuel keys r :
  Forall (fun k => k ∈ U) keys ->
  (size (U ∖ dom r) < fuel)%nat ->
  is_Some (aggregate_keys fuel keys r childrenById countsById).
Proof.
  intros Hkeys. revert r. induction Hkeys as [|k keys Hk Hkeys IH]; intros r Hsize; simpl; [eauto|].
  destruct (getTotalCount_returns fuel r k Hk Hsize) as [[r1 v] E]. rewrite E.
  apply IH. apply getTotalCount_grows in E as [Hsub _].
  eapply Nat.le_lt_trans; [|exact Hsize].
  apply size_diff_mono. by apply subseteq_dom.
Qed.
End Depth.
End Engine.

(** ** The aggregation engine on an acyclic hierarchy *)

Lemma map_result_read_insert (r : IdDict Z) id v l :
  Forall (fun c => c ≠ id) l ->
  map (result_read (<[id := v]> r)) l = map (result_read r) l.
Proof.
  induction 1 as [|c l Hc Hl IH]; simpl; [done|].
  rewrite IH. f_equal. by apply result_read_insert_ne.
Qed.

Lemma map_result_read_weaken (r r' : IdDict Z) l :
  r ⊆ r' -> Forall (fun c => is_Some (r !! c)) l ->
  map (result_read r') l = map (result_read r) l.
Proof.
  intros Hsub. induction 1 as [|c l [x Hc] Hl IH]; simpl; [done|].
  rewrite IH. f_equal. unfold result_read.
  rewrite Hc. by rewrite (lookup_weaken _ _ _ _ Hc Hsub).
Qed.

Section Settled.
Variable childrenById : ODict (list Id).
Variable countsById : IdDict (option Z).

Local Abbreviation run fuel r id := (_getTotalCount fuel r id childrenById countsById).
Local Abbreviation settled' := (settled childrenById countsById).
Local Abbreviation loop_inv' := (loop_inv childrenById countsById).

Lemma settled_insert_running S id v r :
  settled' (S ∪ {[id]}) r -> settled' (S ∪ {[id]}) (<[id := v]> r).
Proof.
  intros Hs x vx Hx Hnot.
  assert (x ≠ id) as Hne by set_solver.
  rewrite lookup_insert_ne in Hx by done.
  destruct (Hs x vx Hx Hnot) as [Hch Heq]. split.
  - intros c Hc. destruct (Hch c Hc) as [HcS Hcr]. split; [done|].
    apply lookup_insert_is_Some. destruct (decide (id = c)); auto.
  - rewrite map_result_read_insert; [done|].
    apply Forall_forall. intros c Hc. destruct (Hch c Hc). set_solver.
Qed.

Lemma loop_inv_step S id pre c r r1 v :
  loop_inv' S id pre r ->
  c ∉ S ∪ {[id]} ->
  r ⊆ r1 -> r1 !! c = Some v ->
  settled' (S ∪ {[id]}) r1 ->
  loop_inv' S id (pre ++ [c]) (<[id := result_read r id + v]> r1).
Proof.
  intros (Hs & Hid & Hpre) HcS Hsub Hc Hs1.
  assert (c ≠ id) as Hne by set_solver.
  assert (Forall (fun c' => c' ≠ id) pre) as Hpre_ne.
  { eapply Forall_impl; [exact Hpre|]. simpl. intros c' [? _]. set_solver. }
  assert (Forall (fun c' => is_Some (r !! c')) pre) as Hpre_in.
  { eapply Forall_impl; [exact Hpre|]. simpl. tauto. }
  split; [by apply settled_insert_running|]. split.
  - rewrite lookup_insert_eq. f_equal.
    rewrite (result_read_Some _ _ _ Hid).
    rewrite map_app, Zsum_app. simpl.
    rewrite result_read_insert_ne by done.
    rewrite (result_read_Some _ _ _ Hc).
    rewrite map_result_read_insert by done.
    rewrite (map_result_read_weaken r r1) by done.
    lia.
  - apply Forall_app. split.
    + eapply Forall_impl; [exact Hpre|]. simpl. intros c' [HS [x Hx]].
      split; [done|]. apply lookup_insert_is_Some.
      destruct (decide (id = c')); [auto|]. right. split; [done|].
      exists x. eapply lookup_weaken; eauto.
    + constructor; [|constructor]. split; [done|].
      apply lookup_insert_is_Some. right. split; [congruence|eauto].
Qed.

Lemma add_children_loop_inv call S id pre cs r r' :
  call_grows call ->
  (forall r c r' v, c ∈ cs -> call r c = Some (r', v) ->
     settled' (S ∪ {[id]}) r -> settled' (S ∪ {[id]}) r') ->
  Forall (fun c => c ∉ S ∪ {[id]}) cs ->
  loop_inv' S id pre r ->
  add_children call id cs r = Some r' ->
  loop_inv' S id (pre ++ cs) r'.
Proof.
  intros Hgrow. revert pre r.
  induction cs as [|c cs IH]; intros pre r Hcall Hcs Hinv H; simpl in H.
  - injection H as <-. by rewrite app_nil_r.
  - destruct (call r c) as [[r1 v]|] eqn:E; [|done].
    apply Forall_cons in Hcs as [Hc Hcs].
    destruct (Hgrow _ _ _ _ E) as [Hsub Hv].
    assert (settled' (S ∪ {[id]}) r1) as Hs1.
    { eapply Hcall; [left|exact E|apply Hinv]. }
    replace (pre ++ c :: cs) with ((pre ++ [c]) ++ cs) by by rewrite <- app_assoc.
    eapply IH; [|done| |exact H].
    + intros r0 c0 r0' v0 Hin. apply Hcall. by right.
    + by apply loop_inv_step.
Qed.

Hypothesis acyclic : Acyclic childrenById.

(** A call on an id none of whose descendants has a running frame leaves
    the settled part of the memo table settled, and settles what it
    adds. *)
Lemma getTotalCount_settled fuel r id S r' v :
  run fuel r id = Some (r', v) ->
  (forall s, s ∈ S -> ~ rtc (edge childrenById) id s) ->
  settled' S r -> settled' S r'.
Proof.
  revert r id S r' v.
  induction fuel as [|fuel IH]; intros r id S r' v H Hreach Hs; simpl in H; [done|].
  destruct (r !! id) as [total|] eqn:Hid.
  - by injection H as <- <-.
  - destruct (add_children _ id _ _) as [r2|] eqn:E; [|done].
    injection H as <- <-.
    assert (id ∉ S) as HidS.
    { intros Hin. by apply (Hreach id Hin). }
    assert (forall c s, c ∈ children_of childrenById id -> s ∈ S ∪ {[id]} ->
              ~ rtc (edge childrenById) c s) as Hreach'.
    { intros c s Hc [Hin| ->%elem_of_singleton]%elem_of_union Hrtc.
      - apply (Hreach s Hin). by eapply rtc_l.
      - apply (acyclic id). eapply tc_rtc_r; [|exact Hrtc]. by apply tc_once. }
    eapply (add_children_loop_inv _ S id [] _ _ r2) in E.
    + destruct E as (Hs2 & Hid2 & Hch). simpl in *.
      intros x vx Hx HxS. destruct (decide (x = id)) as [->|Hne].
      * split.
        -- intros c Hc. rewrite Forall_forall in Hch.
           destruct (Hch c Hc) as [HcS Hcr]. split; [set_solver|done].
        -- congruence.
      * destruct (Hs2 x vx Hx) as [Hc Heq]; [set_solver|]. split; [|done].
        intros c Hin. destruct (Hc c Hin). split; [set_solver|done].
    + apply getTotalCount_grows.
    + intros r0 c r0' v0 Hc Hrun. eapply IH; [exact Hrun|].
      intros s Hin. by apply Hreach'.
    + apply Forall_forall. intros c Hc Hin. by apply (Hreach' c c Hc Hin).
    + split; [|split].
      * intros x vx Hx HxS. assert (x ≠ id) as Hne by set_solver.
        rewrite lookup_insert_ne in Hx by done.
        destruct (Hs x vx Hx) as [Hc Heq]; [set_solver|].
        assert (forall c, c ∈ children_of childrenById x -> c ≠ id) as Hcne.
        { intros c Hin ->. destruct (Hc id Hin) as [_ [? ?]]. congruence. }
        split.
        -- intros c Hin. destruct (Hc c Hin) as [HcS Hcr]. split.
           ++ specialize (Hcne c Hin). set_solver.
           ++ apply lookup_insert_is_Some. right. split; [|done].
              specialize (Hcne c Hin). congruence.
        -- rewrite map_result_read_insert; [done|].
           apply Forall_forall. intros c Hin. by apply Hcne.
      * rewrite lookup_insert_eq. unfold own_count, Zsum. simpl. f_equal. lia.
      * constructor.
Qed.

Lemma aggregate_keys_settled fuel keys r r' :
  aggregate_keys fuel keys r childrenById countsById = Some r' ->
  settled' ∅ r -> settled' ∅ r'.
Proof.
  revert r. induction keys as [|k keys IH]; intros r H Hs; simpl in H.
  - by injection H as <-.
  - destruct (run fuel r k) as [[r1 v]|] eqn:E; [|done].
    eapply IH; [exact H|]. eapply getTotalCount_settled; [exact E| |done].
    intros s Hin. set_solver.
Qed.
End Settled.

(** ** The aggregation engine on any hierarchy: coverage and lower bounds *)

Section Coverage.
Variable childrenById : ODict (list Id).
Variable countsById : IdDict (option Z).

Local Abbreviation run fuel r id := (_getTotalCount fuel r id childrenById countsById).
Local Abbreviation memoised := (children_memoised childrenById).

Lemma add_children_memoised call S id pre cs r r' :
  call_grows call ->
  (forall r c r' v, call r c = Some (r', v) ->
     memoised (S ∪ {[id]}) r -> memoised (S ∪ {[id]}) r') ->
  memoised (S ∪ {[id]}) r ->
  is_Some (r !! id) ->
  Forall (fun c => is_Some (r !! c)) pre ->
  add_children call id cs r = Some r' ->
  memoised (S ∪ {[id]}) r' ∧ Forall (fun c => is_Some (r' !! c)) (pre ++ cs).
Proof.
  intros Hgrow Hcall. revert pre r.
  induction cs as [|c cs IH]; intros pre r Hm Hid Hpre H; simpl in H.
  - injection H as <-. by rewrite app_nil_r.
  - destruct (call r c) as [[r1 v]|] eqn:E; [|done].
    destruct (Hgrow _ _ _ _ E) as [Hsub Hv].
    pose proof (Hcall _ _ _ _ E Hm) as Hm1.
    assert (forall k, is_Some (r1 !! k) ->
              is_Some (<[id := result_read r id + v]> r1 !! k)) as Hins.
    { intros k Hk. apply lookup_insert_is_Some. destruct (decide (id = k)); auto. }
    replace (pre ++ c :: cs) with ((pre ++ [c]) ++ cs) by by rewrite <- app_assoc.
    eapply IH; [| | |exact H].
    + intros x Hx HxS c0 Hc0. apply Hins.
      assert (x ≠ id) by set_solver.
      rewrite lookup_insert_ne in Hx by done. by eapply Hm1.
    + rewrite lookup_insert_eq. eauto.
    + apply Forall_app. split.
      * eapply Forall_impl; [exact Hpre|]. simpl. intros k [x Hk].
        apply Hins. exists x. eapply lookup_weaken; eauto.
      * constructor; [|constructor]. apply Hins. eauto.
Qed.

Lemma getTotalCount_memoised fuel r id S r' v :
  run fuel r id = Some (r', v) -> memoised S r -> memoised S r'.
Proof.
  revert r id S r' v.
  induction fuel as [|fuel IH]; intros r id S r' v H Hm; simpl in H; [done|].
  destruct (r !! id) as [total|] eqn:Hid.
  - by injection H as <- <-.
  - destruct (add_children _ id _ _) as [r2|] eqn:E; [|done].
    injection H as <- <-.
    eapply (add_children_memoised _ S id [] _ _ r2) in E.
    + destruct E as [Hm2 Hch]. simpl in Hch. rewrite Forall_forall in Hch.
      intros x Hx HxS c Hc. destruct (decide (x = id)) as [->|Hne]; [auto|].
      eapply Hm2; [exact Hx|set_solver|exact Hc].
    + apply getTotalCount_grows.
    + intros r0 c r0' v0 Hrun. eapply IH. exact Hrun.
    + intros x Hx HxS c Hc.
      assert (x ≠ id) by set_solver.
      rewrite lookup_insert_ne in Hx by done.
      apply lookup_insert_is_Some. destruct (decide (id = c)); [auto|].
      right. split; [done|]. eapply Hm; [exact Hx|set_solver|exact Hc].
    + rewrite lookup_insert_eq. eauto.
    + constructor.
Qed.

Lemma aggregate_keys_memoised fuel keys r r' :
  aggregate_keys fuel keys r childrenById countsById = Some r' ->
  memoised ∅ r -> memoised ∅ r'.
Proof.
  revert r. induction keys as [|k keys IH]; intros r H Hm; simpl in H.
  - by injection H as <-.
  - destruct (run fuel r k) as [[r1 v]|] eqn:E; [|done].
    eapply IH; [exact H|]. eapply getTotalCount_memoised; eauto.
Qed.

(** *** Lower bounds *)

Hypothesis nonneg : counts_nonneg countsById.

Lemma own_count_nonneg id : 0 <= own_count countsById id.
Proof.
  unfold own_count, dict_get.
  destruct (countsById !! id) as [[n|]|] eqn:E; simpl; [|lia|lia].
  by eapply nonneg.
Qed.

Lemma add_children_above_own call id cs r r' :
  call_grows call ->
  (forall r c r' v, call r c = Some (r', v) ->
     above_own countsById r -> above_own countsById r') ->
  above_own countsById r ->
  is_Some (r !! id) ->
  add_children call id cs r = Some r' ->
  above_own countsById r'.
Proof.
  intros Hgrow Hcall. revert r.
  induction cs as [|c cs IH]; intros r Ha Hid H; simpl in H.
  - by injection H as <-.
  - destruct (call r c) as [[r1 v]|] eqn:E; [|done].
    destruct (Hgrow _ _ _ _ E) as [Hsub Hv].
    pose proof (Hcall _ _ _ _ E Ha) as Ha1.
    eapply IH; [| |exact H].
    + intros x vx Hx. rewrite lookup_insert in Hx. case_decide as Hk.
      * subst x. injection Hx as <-. destruct Hid as [old Hold].
        rewrite (result_read_Some _ _ _ Hold).
        pose proof (Ha _ _ Hold). pose proof (Ha1 _ _ Hv).
        pose proof (own_count_nonneg c). lia.
      * by eapply Ha1.
    + rewrite lookup_insert_eq. eauto.
Qed.

Lemma getTotalCount_above_own fuel r id r' v :
  run fuel r id = Some (r', v) -> above_own countsById r -> above_own countsById r'.
Proof.
  revert r id r' v.
  induction fuel as [|fuel IH]; intros r id r' v H Ha; simpl in H; [done|].
  destruct (r !! id) as [total|] eqn:Hid.
  - by injection H as <- <-.
  - destruct (add_children _ id _ _) as [r2|] eqn:E; [|done].
    injection H as <- <-.
    eapply add_children_above_own; [| | | |exact E].
    + apply getTotalCount_grows.
    + intros r0 c r0' v0 Hrun. eapply IH. exact Hrun.
    + intros x vx Hx. rewrite lookup_insert in Hx. case_decide as Hk.
      * subst x. injection Hx as <-. unfold own_count. lia.
      * by eapply Ha.
    + rewrite lookup_insert_eq. eauto.
Qed.

Lemma aggregate_keys_above_own fuel keys r r' :
  aggregate_keys fuel keys r childrenById countsById = Some r' ->
  above_own countsById r -> above_own countsById r'.
Proof.
  revert r. induction keys as [|k keys IH]; intros r H Ha; simpl in H.
  - by injection H as <-.
  - destruct (run fuel r k) as [[r1 v]|] eqn:E; [|done].
    eapply IH; [exact H|]. eapply getTotalCount_above_own; eauto.
Qed.
End Coverage.

(** ** Sorting *)

Section StableSort.
Context {A : Type} (le : A -> A -> bool).

Lemma insert_sorted_Permutation x l : Permutation (insert_sorted le x l) (x :: l).
Proof.
  induction l as [|y l IH]; simpl; [done|].
  destruct (le x y); [done|].
  rewrite IH. apply perm_swap.
Qed.

Lemma stable_sort_Permutation l : Permutation (stable_sort le l) l.
Proof.
  induction l as [|x l IH]; simpl; [done|].
  rewrite insert_sorted_Permutation. by constructor.
Qed.

Lemma elem_of_stable_sort x l : x ∈ stable_sort le l <-> x ∈ l.
Proof. by rewrite stable_sort_Permutation. Qed.

Hypothesis le_total : forall a b, le a b = false -> le b a = true.
Hypothesis le_trans : forall a b c, le a b = true -> le b c = true -> le a c = true.

Lemma insert_sorted_StronglySorted x l :
  StronglySorted (fun a b => le a b = true) l ->
  StronglySorted (fun a b => le a b = true) (insert_sorted le x l).
Proof.
  induction 1 as [|y l Hl IH Hy]; simpl.
  - repeat constructor.
  - destruct (le x y) eqn:E.
    + constructor; [by constructor|]. constructor; [done|].
      eapply Forall_impl; [exact Hy|]. simpl. intros z Hz. by eapply le_trans.
    + constructor; [done|].
      rewrite insert_sorted_Permutation.
      constructor; [by apply le_total|done].
Qed.

Lemma stable_sort_StronglySorted l :
  StronglySorted (fun a b => le a b = true) (stable_sort le l).
Proof.
  induction l as [|x l IH]; simpl; [constructor|].
  by apply insert_sorted_StronglySorted.
Qed.
End StableSort.

Lemma StronglySorted_lookup_lt {A} (R : A -> A -> Prop) l i j a b :
  StronglySorted R l -> (i < j)%nat ->
  l !! i = Some a -> l !! j = Some b -> R a b.
Proof.
  intros Hl. revert i j. induction Hl as [|x l Hl IH Hx]; intros i j Hij Ha Hb.
  - done.
  - destruct j as [|j]; [lia|]. simpl in Hb. destruct i as [|i]; simpl in Ha.
    + injection Ha as <-. rewrite Forall_forall in Hx. apply Hx.
      by eapply list_elem_of_lookup_2.
    + eapply IH; [|exact Ha|exact Hb]. lia.
Qed.

Lemma elem_of_own_keys {T} (d : ODict T) k : k ∈ own_keys d <-> k ∈ map fst d.
Proof.
  unfold own_keys. rewrite elem_of_app, elem_of_stable_sort.
  rewrite !list_elem_of_In, !filter_In.
  destruct (is_array_index k); simpl; intuition congruence.
Qed.

(** ** The display order *)

Lemma ascii_compare_refl a : Ascii.compare a a = Eq.
Proof. unfold Ascii.compare. apply N.compare_refl. Qed.

Lemma ascii_compare_lt_trans a b c :
  Ascii.compare a b = Lt -> Ascii.compare b c = Lt -> Ascii.compare a c = Lt.
Proof. unfold Ascii.compare. rewrite !N.compare_lt_iff. lia. Qed.

Lemma string_compare_refl s : String.compare s s = Eq.
Proof. induction s as [|a s IH]; simpl; [done|]. by rewrite ascii_compare_refl. Qed.

Lemma string_compare_lt_trans x y z :
  String.compare x y = Lt -> String.compare y z = Lt -> String.compare x z = Lt.
Proof.
  revert y z. induction x as [|a x IH]; intros [|b y] [|c z]; simpl; try done.
  destruct (Ascii.compare a b) eqn:Eab; try done;
    destruct (Ascii.compare b c) eqn:Ebc; try done; intros Hxy Hyz.
  - apply Ascii.compare_eq_iff in Eab as ->. rewrite Ebc. by eapply IH.
  - apply Ascii.compare_eq_iff in Eab as ->. by rewrite Ebc.
  - apply Ascii.compare_eq_iff in Ebc as <-. by rewrite Eab.
  - by rewrite (ascii_compare_lt_trans a b c).
Qed.

Lemma string_KeyOrder : KeyOrder String.compare.
Proof.
  split.
  - intros x y. split; [apply String.compare_eq_iff|].
    intros ->. apply string_compare_refl.
  - intros x y. apply String.compare_antisym.
  - apply string_compare_lt_trans.
Qed.

Lemma Z_KeyOrder : KeyOrder Z.compare.
Proof.
  split.
  - apply Z.compare_eq_iff.
  - intros x y. apply Z.compare_antisym.
  - intros x y z. rewrite !Z.compare_lt_iff. lia.
Qed.

Lemma bool_KeyOrder : KeyOrder Bool.compare.
Proof.
  split.
  - intros [] []; simpl; split; congruence.
  - by intros [] [].
  - by intros [] [] [].
Qed.

Lemma not_after_total {A} (cmp : A -> A -> comparison) a b :
  RecordOrder cmp -> not_after cmp a b = false -> not_after cmp b a = true.
Proof.
  intros [Hswap _]. unfold not_after. rewrite (Hswap a b).
  by destruct (cmp a b).
Qed.

Lemma keyed_RecordOrder {A K} (cmp : K -> K -> comparison) (k : A -> K) :
  KeyOrder cmp -> RecordOrder (fun a b => cmp (k a) (k b)).
Proof.
  intros [Heq Hswap Htrans]. split; [by intros|].
  intros a b c. unfold not_after.
  destruct (cmp (k a) (k b)) eqn:E1; [| |done];
    destruct (cmp (k b) (k c)) eqn:E2; try done; intros _ _.
  - apply Heq in E1. apply Heq in E2.
    assert (cmp (k a) (k c) = Eq) as -> by (apply Heq; congruence). done.
  - apply Heq in E1. by rewrite E1, E2.
  - apply Heq in E2. by rewrite <- E2, E1.
  - by rewrite (Htrans _ _ _ E1 E2).
Qed.

Lemma lex_RecordOrder {A K} (cmp : K -> K -> comparison) (k : A -> K)
    (next : A -> A -> comparison) :
  KeyOrder cmp -> RecordOrder next ->
  RecordOrder (fun a b => then_compare (cmp (k a) (k b)) (next a b)).
Proof.
  intros [Heq Hswap Htrans] [Hswap' Htrans']. split.
  - intros a b. rewrite (Hswap (k a) (k b)).
    destruct (cmp (k a) (k b)); simpl; [apply Hswap'|done|done].
  - intros a b c. unfold not_after.
    destruct (cmp (k a) (k b)) eqn:E1; simpl; [| |done];
      destruct (cmp (k b) (k c)) eqn:E2; simpl; try done.
    + apply Heq in E1. apply Heq in E2.
      assert (cmp (k a) (k c) = Eq) as -> by (apply Heq; congruence).
      simpl. apply Htrans'.
    + apply Heq in E1. rewrite E1, E2. simpl. done.
    + apply Heq in E2. rewrite <- E2, E1. simpl. done.
    + rewrite (Htrans _ _ _ E1 E2). simpl. done.
Qed.

Lemma display_compare_RecordOrder : RecordOrder display_compare.
Proof.
  unfold display_compare.
  apply (lex_RecordOrder Bool.compare
           (fun a => is_empty (LocalizedType.scientificName a))); [apply bool_KeyOrder|].
  apply (lex_RecordOrder String.compare LocalizedType.scientificName);
    [apply string_KeyOrder|].
  apply (lex_RecordOrder Z.compare (fun a => - LocalizedType.taxonomicRank a));
    [apply Z_KeyOrder|].
  apply (keyed_RecordOrder String.compare LocalizedType.commonName).
  apply string_KeyOrder.
Qed.

(** The chained comparison says what the specification says. *)
Lemma not_after_display_before a b :
  not_after display_compare a b = true -> display_before a b.
Proof.
  destruct a as [ia pa sa ca ra ua], b as [ib pb sb cb rb ub].
  unfold not_after, display_compare, display_before, String.leb. simpl.
  destruct sa as [|xa sa], sb as [|xb sb]; simpl; try done.
  intros H. split; [done|]. intros _ _.
  destruct (Ascii.compare xa xb) eqn:Ex; simpl in *; [| |done].
  - destruct (String.compare sa sb) eqn:Es; simpl in *; [| |done].
    + split; [done|]. intros _.
      destruct (Z.compare (- ra) (- rb)) eqn:Er; simpl in *; [| |done].
      * apply Z.compare_eq_iff in Er. split; [lia|]. intros _.
        by destruct (String.compare ca cb).
      * rewrite Z.compare_lt_iff in Er. split; [lia|]. intros ->. lia.
    + split; [done|]. intros Heq. injection Heq as -> ->.
      by rewrite string_compare_refl in Es.
  - split; [done|]. intros Heq. injection Heq as -> ->.
    by rewrite ascii_compare_refl in Ex.
Qed.

Lemma sortBy_Permutation {A} (cmp : A -> A -> comparison) l :
  Permutation (sortBy cmp l) l.
Proof. apply stable_sort_Permutation. Qed.

Lemma sortBy_StronglySorted {A} (cmp : A -> A -> comparison) l :
  RecordOrder cmp ->
  StronglySorted (fun a b => not_after cmp a b = true) (sortBy cmp l).
Proof.
  intros Hcmp. apply stable_sort_StronglySorted.
  - intros a b. by apply not_after_total.
  - apply Hcmp.
Qed.

(** Records that tie on every iteratee keep their relative order. *)
Lemma insert_sorted_stable {A} (cmp : A -> A -> comparison) (P : A -> bool) x l :
  (forall a b, P a = true -> P b = true -> cmp a b = Eq) ->
  List.filter P (insert_sorted (not_after cmp) x l) = List.filter P (x :: l).
Proof.
  intros Htie. induction l as [|y l IH]; [done|].
  simpl. destruct (not_after cmp x y) eqn:E; [done|].
  simpl. simpl in IH. rewrite IH.
  destruct (P x) eqn:Px, (P y) eqn:Py; try done.
  unfold not_after in E. by rewrite (Htie x y Px Py) in E.
Qed.

Lemma sortBy_stable {A} (cmp : A -> A -> comparison) (P : A -> bool) l :
  (forall a b, P a = true -> P b = true -> cmp a b = Eq) ->
  List.filter P (sortBy cmp l) = List.filter P l.
Proof.
  intros Htie. unfold sortBy. induction l as [|x l IH]; [done|].
  simpl stable_sort. rewrite insert_sorted_stable by done.
  simpl. by rewrite IH.
Qed.

(** ** calculateAggregatedCounts *)

Lemma in_hierarchy_ids ch id : in_hierarchy ch id -> id ∈ hierarchy_ids ch.
Proof.
  intros [[cs H]|[p H]].
  - apply hierarchy_ids_key. by eapply oget_Some_key.
  - by eapply hierarchy_ids_closed.
Qed.

Lemma own_keys_in_hierarchy_ids ch :
  Forall (fun k => k ∈ hierarchy_ids ch) (own_keys ch).
Proof.
  apply Forall_forall. intros k Hk.
  apply hierarchy_ids_key. by apply elem_of_own_keys.
Qed.

(** The stack the engine needs: one frame more than the hierarchy has ids. *)
Lemma calculateAggregatedCounts_returns ch counts fuel :
  (size (hierarchy_ids ch) < fuel)%nat ->
  is_Some (calculateAggregatedCounts fuel ch counts).
Proof.
  intros Hfuel. unfold calculateAggregatedCounts.
  apply (aggregate_keys_returns ch counts (hierarchy_ids ch)).
  - apply hierarchy_ids_closed.
  - apply own_keys_in_hierarchy_ids.
  - rewrite dom_empty_L, difference_empty_L. done.
Qed.

(** Every id of the hierarchy gets an entry. *)
Lemma calculateAggregatedCounts_covers ch counts fuel agg :
  calculateAggregatedCounts fuel ch counts = Some agg ->
  forall id, in_hierarchy ch id -> is_Some (agg !! id).
Proof.
  intros H id Hid. unfold calculateAggregatedCounts in H.
  pose proof (aggregate_keys_grows _ _ _ _ _ _ H) as [_ Hkeys].
  pose proof (aggregate_keys_memoised _ _ _ _ _ _ H) as Hm.
  assert (forall k, is_Some (oget ch k) -> is_Some (agg !! k)) as Hkey.
  { intros k [cs Hk]. apply Hkeys, elem_of_own_keys. by eapply oget_Some_key. }
  assert (children_memoised ch ∅ ∅) as Hm0.
  { intros x [? Hx]. by rewrite lookup_empty in Hx. }
  specialize (Hm Hm0).
  destruct Hid as [Hk|[p Hp]]; [auto|].
  eapply (Hm p); [|set_solver|exact Hp].
  apply Hkey. unfold children_of in Hp.
  destruct (oget ch p); [eauto|]. by apply elem_of_nil in Hp.
Qed.

Lemma calculateAggregatedCounts_settled ch counts fuel agg :
  Acyclic ch ->
  calculateAggregatedCounts fuel ch counts = Some agg ->
  settled ch counts ∅ agg.
Proof.
  intros Hacyc H. eapply aggregate_keys_settled; [done|exact H|].
  intros x v Hx. by rewrite lookup_empty in Hx.
Qed.

Lemma calculateAggregatedCounts_above_own ch counts fuel agg :
  counts_nonneg counts ->
  calculateAggregatedCounts fuel ch counts = Some agg ->
  above_own counts agg.
Proof.
  intros Hnn H. eapply aggregate_keys_above_own; [done|exact H|].
  intros x v Hx. by rewrite lookup_empty in Hx.
Qed.

(** The result of a call does not depend on how much stack is left over. *)
Lemma add_children_call_mono call call' id cs r r' :
  (forall r c x, call r c = Some x -> call' r c = Some x) ->
  add_children call id cs r = Some r' -> add_children call' id cs r = Some r'.
Proof.
  intros Hcall. revert r. induction cs as [|c cs IH]; intros r H; simpl in *; [done|].
  destruct (call r c) as [[r1 v]|] eqn:E; [|done].
  rewrite (Hcall _ _ _ E). by apply IH.
Qed.

Lemma getTotalCount_fuel_mono ch counts fuel fuel' r id x :
  (fuel <= fuel')%nat ->
  _getTotalCount fuel r id ch counts = Some x ->
  _getTotalCount fuel' r id ch counts = Some x.
Proof.
  revert fuel' r id x. induction fuel as [|fuel IH]; intros fuel' r id x Hle H; [done|].
  destruct fuel' as [|fuel']; [lia|]. simpl in *.
  destruct (r !! id); [done|].
  destruct (add_children _ id _ _) as [r2|] eqn:E; [|done].
  erewrite add_children_call_mono; [exact H| |exact E].
  intros r0 c x0. apply IH. lia.
Qed.

Lemma calculateAggregatedCounts_fuel_mono ch counts fuel fuel' agg :
  (fuel <= fuel')%nat ->
  calculateAggregatedCounts fuel ch counts = Some agg ->
  calculateAggregatedCounts fuel' ch counts = Some agg.
Proof.
  intros Hle. unfold calculateAggregatedCounts. generalize (∅ : IdDict Z).
  induction (own_keys ch) as [|k keys IH]; intros r H; simpl in *; [done|].
  destruct (_getTotalCount fuel r k ch counts) as [[r1 v]|] eqn:E; [|done].
  rewrite (getTotalCount_fuel_mono _ _ _ _ _ _ _ Hle E). by apply IH.
Qed.

(** A ranking that decreases from parent to child shows that there is no
    cycle; [ranked_by] checks one on a given index. *)
Lemma ranked_by_edge rank ch :
  ranked_by rank ch = true -> forall p c, edge ch p c -> rank c < rank p.
Proof.
  intros H p c Hc. unfold edge, children_of in Hc.
  destruct (oget ch p) as [cs|] eqn:E; [|by apply elem_of_nil in Hc].
  apply oget_Some_elem in E. unfold ranked_by in H.
  rewrite forallb_forall in H. apply list_elem_of_In in E.
  specialize (H _ E). simpl in H. rewrite forallb_forall in H.
  apply list_elem_of_In in Hc. specialize (H _ Hc). lia.
Qed.

Lemma ranked_by_Acyclic rank ch : ranked_by rank ch = true -> Acyclic ch.
Proof.
  intros H x Hx.
  assert (forall a b, tc (edge ch) a b -> rank b < rank a) as Htc.
  { induction 1 as [a b Hab|a b c Hab Hbc IH].
    - by eapply ranked_by_edge.
    - pose proof (ranked_by_edge _ _ H _ _ Hab). lia. }
  specialize (Htc x x Hx). lia.
Qed.

(** The ids of an index built from records. *)
Lemma in_hierarchy_build l id :
  in_hierarchy (build_childrenById l) id
  <-> id ∈ map LocalizedType.parentId l ∨ id ∈ map LocalizedType.id l.
Proof.
  unfold in_hierarchy. rewrite build_childrenById_key.
  split; (intros [H|H]; [by left|right]).
  - destruct H as [p Hp]. rewrite build_childrenById_children in Hp.
    unfold ids_with_parent in Hp.
    rewrite list_elem_of_In, in_map_iff in Hp.
    destruct Hp as (r & <- & Hr). apply filter_In in Hr as [Hr _].
    rewrite list_elem_of_In. by apply in_map.
  - rewrite list_elem_of_In, in_map_iff in H.
    destruct H as (r & <- & Hr). exists (LocalizedType.parentId r).
    rewrite build_childrenById_children. unfold ids_with_parent.
    rewrite list_elem_of_In. apply in_map, filter_In. split; [done|].
    apply Z.eqb_refl.
Qed.

(** Only ids of the hierarchy get an entry. *)
Section Domain.
Variable childrenById : ODict (list Id).
Variable countsById : IdDict (option Z).
Variable U : gset Id.
Hypothesis U_closed : closed_under_children childrenById U.

Lemma add_children_dom call id cs r r' :
  (forall r c r' v, c ∈ cs -> call r c = Some (r', v) -> dom r ⊆ U -> dom r' ⊆ U) ->
  id ∈ U -> dom r ⊆ U ->
  add_children call id cs r = Some r' -> dom r' ⊆ U.
Proof.
  revert r. induction cs as [|c cs IH]; intros r Hcall Hid Hr H; simpl in H.
  - by injection H as <-.
  - destruct (call r c) as [[r1 v]|] eqn:E; [|done].
    eapply IH; [|done| |exact H].
    + intros r0 c0 r0' v0 Hin. apply Hcall. by right.
    + rewrite dom_insert. assert (dom r1 ⊆ U) by (eapply Hcall; [left|exact E|done]).
      set_solver.
Qed.

Lemma getTotalCount_dom fuel r id r' v :
  id ∈ U -> dom r ⊆ U ->
  _getTotalCount fuel r id childrenById countsById = Some (r', v) ->
  dom r' ⊆ U.
Proof.
  revert r id r' v.
  induction fuel as [|fuel IH]; intros r id r' v Hid Hr H; simpl in H; [done|].
  destruct (r !! id) as [total|] eqn:Er.
  - by injection H as <- <-.
  - destruct (add_children _ id _ _) as [r2|] eqn:E; [|done].
    injection H as <- <-.
    eapply add_children_dom; [|exact Hid| |exact E].
    + intros r0 c r0' v0 Hc Hrun Hr0. eapply IH; [|exact Hr0|exact Hrun].
      by eapply U_closed.
    + rewrite dom_insert. set_solver.
Qed.

Lemma aggregate_keys_dom fuel keys r r' :
  Forall (fun k => k ∈ U) keys -> dom r ⊆ U ->
  aggregate_keys fuel keys r childrenById countsById = Some r' ->
  dom r' ⊆ U.
Proof.
  intros Hkeys. revert r. induction Hkeys as [|k keys Hk Hkeys IH]; intros r Hr H; simpl in H.
  - by injection H as <-.
  - destruct (_getTotalCount fuel r k childrenById countsById) as [[r1 v]|] eqn:E; [|done].
    eapply IH; [|exact H]. by eapply getTotalCount_dom.
Qed.
End Domain.

Lemma calculateAggregatedCounts_dom ch counts fuel agg :
  calculateAggregatedCounts fuel ch counts = Some agg ->
  dom agg ⊆ hierarchy_ids ch.
Proof.
  intros H. eapply aggregate_keys_dom; [| | |exact H].
  - apply hierarchy_ids_closed.
  - apply own_keys_in_hierarchy_ids.
  - rewrite dom_empty_L. set_solver.
Qed.

(** ** TypesFrequency *)

Lemma new_TypesFrequency_Some fuel l idx ch counts f :
  new_TypesFrequency fuel l idx ch counts = Some f ->
  TypesFrequency.base f = TypesAccess.mk l idx ch
  ∧ TypesFrequency.countsById f = counts
  ∧ calculateAggregatedCounts fuel ch counts = Some (TypesFrequency.aggregatedCountsById f).
Proof.
  unfold new_TypesFrequency. destruct (calculateAggregatedCounts fuel ch counts); [|done].
  by intros [= <-].
Qed.

Lemma new_TypesFrequency_returns fuel l idx ch counts :
  (size (hierarchy_ids ch) < fuel)%nat ->
  is_Some (new_TypesFrequency fuel l idx ch counts).
Proof.
  intros H. unfold new_TypesFrequency.
  destruct (calculateAggregatedCounts_returns ch counts fuel H) as [agg ->]. eauto.
Qed.

Lemma getCount_own f id :
  getCount f id = own_count (TypesFrequency.countsById f) id.
Proof. unfold getCount, own_count. apply or_zero_nullish. Qed.

Lemma getAggregatedCount_read f id :
  getAggregatedCount f id = result_read (TypesFrequency.aggregatedCountsById f) id.
Proof.
  unfold getAggregatedCount, result_read.
  destruct (_ !! id); [apply or_zero_Z|done].
Qed.

Lemma TypesFrequency_filter_unfold fuel f p :
  TypesFrequency_filter fuel f p =
  let kept := List.filter p (TypesAccess.localizedTypes (TypesFrequency.base f)) in
  new_TypesFrequency fuel kept (build_idIndex kept) (build_childrenById kept)
    (forEach (fun c (type : LocalizedType) (_ : nat) =>
                <[LocalizedType.id type :=
                    dict_get (TypesFrequency.countsById f) (LocalizedType.id type)]> c)
       kept 0%nat ∅).
Proof.
  unfold TypesFrequency_filter. simpl.
  set (kept := List.filter p _).
  change (forEach _ kept 0%nat (∅, [], ∅))
    with (forEach (fun '(a, b, c) x index =>
             (id_step a x index, child_step b x index,
              (fun c (type : LocalizedType) (_ : nat) =>
                 <[LocalizedType.id type :=
                     dict_get (TypesFrequency.countsById f) (LocalizedType.id type)]> c)
                c x index))
            kept 0%nat (∅ : IdDict nat, [] : ODict (list Id), ∅ : IdDict (option Z))).
  by rewrite forEach_triple.
Qed.

Lemma counts_nonneg_empty : counts_nonneg ∅.
Proof. intros k n H. by rewrite lookup_empty in H. Qed.

Lemma counts_nonneg_insert k n counts :
  0 <= n -> counts_nonneg counts -> counts_nonneg (<[k := Some n]> counts).
Proof.
  intros Hn Hc k' n' H. rewrite lookup_insert in H. case_decide.
  - by injection H as <-.
  - by eapply Hc.
Qed.

(** ** Filtering *)

Lemma filter_idem {A} (p : A -> bool) l :
  List.filter p (List.filter p l) = List.filter p l.
Proof.
  induction l as [|x l IH]; simpl; [done|].
  destruct (p x) eqn:E; simpl; [|done]. by rewrite E, IH.
Qed.

Lemma filter_sublist {A} (p : A -> bool) l : sublist (List.filter p l) l.
Proof.
  induction l as [|x l IH]; simpl; [constructor|].
  destruct (p x); by constructor.
Qed.

Lemma elem_of_filter_bool {A} (p : A -> bool) l x :
  x ∈ List.filter p l <-> x ∈ l ∧ p x = true.
Proof. rewrite !list_elem_of_In. apply filter_In. Qed.

(** ** Lookup *)

Lemma getType_createTypesAccess l id :
  getType (createTypesAccess l) id
  = match build_idIndex l !! id with
    | Some index => l !! index
    | None => None
    end.
Proof. by rewrite createTypesAccess_unfold. Qed.

(** ** The factory *)

Lemma filter_length_Permutation {A} (p : A -> bool) l l' :
  Permutation l l' -> length (List.filter p l) = length (List.filter p l').
Proof.
  induction 1 as [|x l l' _ IH|x y l|l l' l'' _ IH1 _ IH2]; simpl.
  - done.
  - destruct (p x); simpl; by rewrite IH.
  - by destruct (p x), (p y).
  - by rewrite IH1.
Qed.

Lemma filter_pending_id_localize types language :
  (forall t, t ∈ types -> SchemaType.id t ≠ PENDING_ID) ->
  List.filter (fun r => LocalizedType.id r =? PENDING_ID)
    (map (fun t => localize t language) types) = [].
Proof.
  induction types as [|t types IH]; intros H; simpl; [done|].
  destruct (Z.eqb_spec (SchemaType.id t) PENDING_ID) as [E|_].
  - exfalso. apply (H t); [left|done].
  - apply IH. intros t' Ht'. apply H. by right.
Qed.

Lemma typesAccessInLanguage_localizedTypes types language :
  TypesAccess.localizedTypes (typesAccessInLanguage types language)
  = toDisplayOrder
      (map (fun t => localize t language) types
         ++ (if existsb (fun t => truthy_pending (SchemaType.pending t)) types
             then [pendingReview] else [])).
Proof.
  unfold typesAccessInLanguage. rewrite createTypesAccess_unfold. simpl.
  destruct (existsb _ types); [done|]. by rewrite app_nil_r.
Qed.

(** ** The store *)

Lemma oget_resolve h refs k :
  oget (Heap.resolve h refs) k = Heap.ids_at h <$> oget refs k.
Proof.
  induction refs as [|[k0 l0] refs IH]; simpl; [done|].
  destruct (Z.eqb k0 k); [done|apply IH].
Qed.

Lemma resolve_oset h refs k l :
  Heap.resolve h (oset refs k l) = oset (Heap.resolve h refs) k (Heap.ids_at h l).
Proof.
  induction refs as [|[k0 l0] refs IH]; simpl; [done|].
  destruct (Z.eqb k0 k); simpl; [done|]. by rewrite IH.
Qed.

Lemma resolve_ext h h' refs :
  (forall l, l ∈ map snd refs -> h' !! l = h !! l) ->
  Heap.resolve h' refs = Heap.resolve h refs.
Proof.
  induction refs as [|[k0 l0] refs IH]; intros H; simpl; [done|].
  rewrite IH by (intros l Hl; apply H; by right).
  unfold Heap.ids_at. rewrite (H l0); [done|]. left.
Qed.

Lemma oget_Some_ref (refs : ODict Heap.loc) k l :
  oget refs k = Some l -> l ∈ map snd refs.
Proof.
  intros H. apply oget_Some_elem in H.
  apply list_elem_of_In, in_map_iff. exists (k, l). split; [done|].
  by apply list_elem_of_In.
Qed.

(** Writing the array of one key changes the value of that key only: no
    other key refers to the same array. *)
Lemma resolve_update h refs k l ids :
  oget refs k = Some l -> NoDup (map snd refs) ->
  Heap.resolve (<[l := Heap.Ids ids]> h) refs = oset (Heap.resolve h refs) k ids.
Proof.
  induction refs as [|[k0 l0] refs IH]; simpl; [done|].
  intros Hget Hnd. apply NoDup_cons in Hnd as [Hl0 Hnd].
  destruct (Z.eqb k0 k) eqn:E.
  - injection Hget as ->. f_equal.
    + unfold Heap.ids_at. by rewrite lookup_insert_eq.
    + apply resolve_ext. intros l' Hl'. apply lookup_insert_ne. by intros ->.
  - assert (l0 ≠ l) as Hne.
    { intros ->. apply Hl0. by eapply oget_Some_ref. }
    f_equal; [|by apply IH].
    unfold Heap.ids_at. by rewrite lookup_insert_ne.
Qed.

Lemma map_snd_oset_None (refs : ODict Heap.loc) k l :
  oget refs k = None -> map snd (oset refs k l) = map snd refs ++ [l].
Proof.
  induction refs as [|[k0 l0] refs IH]; simpl; [done|].
  destruct (Z.eqb k0 k); [done|]. intros H. simpl. by rewrite IH.
Qed.

Lemma read_ids_insert_ne h l l' o :
  l ≠ l' -> Heap.read_ids (<[l := o]> h) l' = Heap.read_ids h l'.
Proof. intros. unfold Heap.read_ids. by rewrite lookup_insert_ne. Qed.

Lemma read_ids_ids_at h l ids : Heap.read_ids h l = Some ids -> Heap.ids_at h l = ids.
Proof.
  unfold Heap.read_ids, Heap.ids_at.
  destruct (h !! l) as [[]|]; congruence.
Qed.

Lemma read_ids_is_Some h l : is_Some (Heap.read_ids h l) -> is_Some (h !! l).
Proof. unfold Heap.read_ids. destruct (h !! l); [eauto|]. by intros [? ?]. Qed.

Lemma is_fresh_lookup (h : Heap.heap) : h !! fresh (dom h) = None.
Proof. apply not_elem_of_dom, is_fresh. Qed.

Section Build.
Variables (h0 : Heap.heap) (idxL chL : Heap.loc).
Hypothesis idx_new : h0 !! idxL = None.
Hypothesis ch_new : h0 !! chL = None.
Hypothesis idx_ch : idxL ≠ chL.

(** The last statement of the loop body: [push] on the array of the
    parent. *)
Lemma push_inv h entries children p c refs l ids :
  build_inv h0 idxL chL h entries children ->
  Heap.read_children h chL = Some refs ->
  oget refs p = Some l ->
  Heap.read_ids h l = Some ids ->
  build_inv h0 idxL chL (<[l := Heap.Ids (ids ++ [c])]> h) entries
    (oset children p (ids ++ [c])).
Proof.
  intros (Hidx & (refs' & Hch & [Hnd Hids] & Hres & Hlocs) & Hframe) Hrefs Hget Hl.
  assert (refs' = refs) as -> by congruence.
  pose proof (oget_Some_ref _ _ _ Hget) as Hin.
  destruct (Hlocs l Hin) as (Hl0 & HlI & HlC).
  split; [|split].
  - unfold Heap.read_index. rewrite lookup_insert_ne by done. exact Hidx.
  - exists refs. split; [|split; [|split]].
    + unfold Heap.read_children. rewrite lookup_insert_ne by done. exact Hch.
    + split; [done|]. rewrite Forall_forall in Hids. apply Forall_forall.
      intros l' Hl'. destruct (decide (l = l')) as [<-|Hne].
      * unfold Heap.read_ids. rewrite lookup_insert_eq. eauto.
      * rewrite read_ids_insert_ne by done. auto.
    + rewrite <- Hres. by apply resolve_update.
    + done.
  - intros l' Hl'. rewrite lookup_insert_ne; [auto|].
    intros <-. rewrite Hl0 in Hl'. by destruct Hl'.
Qed.

Lemma build_step_inv h entries children type index :
  build_inv h0 idxL chL h entries children ->
  exists h', Heap.build_step idxL chL (Some h) type index = Some h'
    ∧ build_inv h0 idxL chL h'
        (id_step entries type index) (child_step children type index).
Proof.
  intros Hinv.
  pose proof Hinv as (Hidx & (refs & Hch & [Hnd Hids] & Hres & Hlocs) & Hframe).
  unfold Heap.build_step. simpl. rewrite Hidx. simpl.
  set (h1 := <[idxL := _]> h).
  assert (Heap.read_children h1 chL = Some refs) as Hch1.
  { unfold Heap.read_children, h1. rewrite lookup_insert_ne by done. exact Hch. }
  assert (build_inv h0 idxL chL h1 (id_step entries type index) children) as Hinv1.
  { split; [|split].
    - unfold Heap.read_index, h1. by rewrite lookup_insert_eq.
    - exists refs. split; [done|]. split; [|split; [|done]].
      + split; [done|]. rewrite Forall_forall in Hids. apply Forall_forall.
        intros l Hl. unfold h1. rewrite read_ids_insert_ne; [auto|].
        intros <-. by destruct (Hlocs _ Hl) as (_ & ? & _).
      + rewrite <- Hres. apply resolve_ext. intros l Hl.
        unfold h1. apply lookup_insert_ne.
        intros <-. by destruct (Hlocs _ Hl) as (_ & ? & _).
    - intros l Hl. unfold h1. rewrite lookup_insert_ne; [auto|].
      intros <-. rewrite idx_new in Hl. by destruct Hl. }
  rewrite Hch1. simpl.
  unfold child_step, push_child.
  assert (oget children (LocalizedType.parentId type)
          = Heap.ids_at h1 <$> oget refs (LocalizedType.parentId type)) as Hpure.
  { destruct Hinv1 as (_ & (refs' & Hch' & _ & Hres' & _) & _).
    assert (refs' = refs) as -> by congruence.
    rewrite <- Hres'. apply oget_resolve. }
  destruct (oget refs (LocalizedType.parentId type)) as [l|] eqn:Hget.
  - (* the parent already has an array *)
    simpl in Hpure. rewrite Hpure. rewrite Hget. simpl.
    pose proof Hinv1 as (Hidx1 & (refs' & Hch' & [Hnd' Hids'] & Hres' & Hlocs') & Hframe1).
    assert (refs' = refs) as -> by congruence.
    rewrite Forall_forall in Hids'.
    destruct (Hids' l (oget_Some_ref _ _ _ Hget)) as [ids Hl].
    rewrite Hl. simpl. eexists. split; [reflexivity|].
    rewrite Hpure, (read_ids_ids_at _ _ _ Hl).
    eapply push_inv; [exact Hinv1|exact Hch1|exact Hget|exact Hl].
  - (* a new array for the parent *)
    simpl in Hpure. rewrite Hpure. rewrite oget_oset_eq.
    unfold Heap.alloc. set (l := fresh (dom h1)).
    set (refs2 := oset refs (LocalizedType.parentId type) l).
    set (h2 := <[chL := Heap.Children refs2]> (<[l := Heap.Ids []]> h1)).
    assert (h1 !! l = None) as Hl1 by apply is_fresh_lookup.
    pose proof Hinv1 as (Hidx1 & (refs' & Hch' & [Hnd' Hids'] & Hres' & Hlocs') & Hframe1).
    assert (refs' = refs) as -> by congruence.
    rewrite Forall_forall in Hids'.
    assert (l ≠ chL) as HlC.
    { intros E. unfold Heap.read_children in Hch1. rewrite <- E, Hl1 in Hch1. done. }
    assert (l ≠ idxL) as HlI.
    { intros E. unfold Heap.read_index in Hidx1. rewrite <- E, Hl1 in Hidx1. done. }
    assert (forall l', l' ∈ map snd refs -> l' ≠ l) as Hold.
    { intros l' Hl' ->. apply Hids', read_ids_is_Some in Hl'.
      rewrite Hl1 in Hl'. by destruct Hl'. }
    assert (h0 !! l = None) as Hl0.
    { destruct (h0 !! l) eqn:E; [|done].
      rewrite <- (Hframe1 l), Hl1 in E; [done|]. rewrite E. eauto. }
    assert (build_inv h0 idxL chL h2 (id_step entries type index)
              (oset children (LocalizedType.parentId type) [])) as Hinv2.
    { split; [|split].
      - unfold Heap.read_index, h2. by rewrite !lookup_insert_ne.
      - exists refs2. split; [|split; [|split]].
        + unfold Heap.read_children, h2. by rewrite lookup_insert_eq.
        + split.
          * unfold refs2. rewrite map_snd_oset_None by done.
            apply NoDup_app. split; [done|]. split; [|apply NoDup_singleton].
            intros l' Hl' ->%list_elem_of_singleton. by apply (Hold l).
          * unfold refs2. rewrite map_snd_oset_None by done.
            apply Forall_app. split.
            -- apply Forall_forall. intros l' Hl'. unfold h2.
               rewrite !read_ids_insert_ne; [auto|by apply not_eq_sym, Hold|].
               intros <-. by destruct (Hlocs' _ Hl') as (_ & _ & ?).
            -- constructor; [|constructor]. unfold h2, Heap.read_ids.
               rewrite lookup_insert_ne by done. rewrite lookup_insert_eq. eauto.
        + unfold refs2. rewrite resolve_oset. f_equal.
          * rewrite <- Hres'. apply resolve_ext. intros l' Hl'. unfold h2.
            rewrite !lookup_insert_ne; [done|by apply not_eq_sym, Hold|].
            intros <-. by destruct (Hlocs' _ Hl') as (_ & _ & ?).
          * unfold Heap.ids_at, h2. rewrite lookup_insert_ne by done.
            by rewrite lookup_insert_eq.
        + unfold refs2. rewrite map_snd_oset_None by done.
          intros l' [Hl'| ->%list_elem_of_singleton]%elem_of_app; auto.
      - intros l' Hl'. unfold h2. rewrite !lookup_insert_ne; [auto| |].
        + intros <-. rewrite Hl0 in Hl'. by destruct Hl'.
        + intros <-. rewrite ch_new in Hl'. by destruct Hl'. }
    fold h2. fold refs2.
    assert (oget refs2 (LocalizedType.parentId type) = Some l) as Hget2
      by apply oget_oset_eq.
    assert (Heap.read_ids h2 l = Some []) as Hl2.
    { unfold Heap.read_ids, h2. rewrite lookup_insert_ne by done.
      by rewrite lookup_insert_eq. }
    simpl. rewrite Hl2. simpl. rewrite oget_oset_eq.
    eexists. split; [reflexivity|].
    eapply (push_inv h2 _ _ _ _ refs2 l []); [exact Hinv2| |exact Hget2|exact Hl2].
    unfold Heap.read_children, h2. by rewrite lookup_insert_eq.
Qed.

Lemma forEach_build_step_inv records index h entries children :
  build_inv h0 idxL chL h entries children ->
  exists h', forEach (Heap.build_step idxL chL) records index (Some h) = Some h'
    ∧ build_inv h0 idxL chL h'
        (forEach id_step records index entries)
        (forEach child_step records index children).
Proof.
  revert index h entries children.
  induction records as [|type records IH]; intros index h entries children Hinv;
    cbn [forEach].
  - eauto.
  - destruct (build_step_inv h entries children type index Hinv) as (h1 & -> & Hinv1).
    by apply IH.
Qed.
End Build.

Lemma read_records_frame h h' l records :
  (forall l, is_Some (h !! l) -> h' !! l = h !! l) ->
  Heap.read_records h l = Some records -> Heap.read_records h' l = Some records.
Proof.
  intros Hframe. unfold Heap.read_records.
  destruct (h !! l) as [o|] eqn:E; [|done]. by rewrite Hframe, E by eauto.
Qed.

Lemma read_index_frame h h' l entries :
  (forall l, is_Some (h !! l) -> h' !! l = h !! l) ->
  Heap.read_index h l = Some entries -> Heap.read_index h' l = Some entries.
Proof.
  intros Hframe. unfold Heap.read_index.
  destruct (h !! l) as [o|] eqn:E; [|done]. by rewrite Hframe, E by eauto.
Qed.

Lemma read_children_frame h h' l refs :
  (forall l, is_Some (h !! l) -> h' !! l = h !! l) ->
  Heap.read_children h l = Some refs -> Heap.read_children h' l = Some refs.
Proof.
  intros Hframe. unfold Heap.read_children.
  destruct (h !! l) as [o|] eqn:E; [|done]. by rewrite Hframe, E by eauto.
Qed.

(** An instance stands for the same value in every store that has kept
    the objects it refers to. *)
Lemma view_frame h h' this a :
  (forall l, is_Some (h !! l) -> h' !! l = h !! l) ->
  Heap.view h this a -> Heap.view h' this a.
Proof.
  intros Hframe (Hrec & Hidx & refs & Hch & [Hnd Hids] & Hres).
  split; [by eapply read_records_frame|]. split; [by eapply read_index_frame|].
  exists refs. split; [by eapply read_children_frame|].
  rewrite Forall_forall in Hids.
  assert (forall l, l ∈ map snd refs -> h' !! l = h !! l) as Hsame.
  { intros l Hl. apply Hframe, read_ids_is_Some. auto. }
  split; [split; [done|]|].
  - apply Forall_forall. intros l Hl. unfold Heap.read_ids.
    rewrite (Hsame l Hl). by apply Hids.
  - rewrite <- Hres. by apply resolve_ext.
Qed.

Lemma getType_view h this a id :
  Heap.view h this a -> Heap.getType this id h = Some (getType a id).
Proof.
  intros (Hrec & Hidx & _). unfold Heap.getType. by rewrite Hrec, Hidx.
Qed.

(** [Heap.createTypesAccess] returns; its result stands for the value of
    [createTypesAccess]; it is made of new objects; and it writes to no
    object of the store it was called in. *)
Lemma heap_createTypesAccess h0 l records :
  Heap.read_records h0 l = Some records ->
  exists this h',
    Heap.createTypesAccess l h0 = Some (this, h')
    ∧ Heap.localizedTypes this = l
    ∧ h0 !! Heap.idIndex this = None
    ∧ h0 !! Heap.childrenById this = None
    ∧ (forall l, is_Some (h0 !! l) -> h' !! l = h0 !! l)
    ∧ Heap.view h' this (createTypesAccess records).
Proof.
  intros Hrec. unfold Heap.createTypesAccess. rewrite Hrec. simpl.
  set (idxL := fresh (dom h0)).
  set (h1 := <[idxL := Heap.Index ∅]> h0).
  set (chL := fresh (dom h1)).
  set (h2 := <[chL := Heap.Children []]> h1).
  assert (h0 !! idxL = None) as Hidx0 by apply is_fresh_lookup.
  assert (h1 !! chL = None) as Hch1 by apply is_fresh_lookup.
  assert (idxL ≠ chL) as Hne.
  { intros E. unfold h1 in Hch1. rewrite <- E, lookup_insert_eq in Hch1. done. }
  assert (h0 !! chL = None) as Hch0.
  { unfold h1 in Hch1. by rewrite lookup_insert_ne in Hch1. }
  assert (build_inv h0 idxL chL h2 ∅ []) as Hinv.
  { split; [|split].
    - unfold Heap.read_index, h2, h1.
      rewrite lookup_insert_ne by done. by rewrite lookup_insert_eq.
    - exists []. split; [|split; [|split]].
      + unfold Heap.read_children, h2. by rewrite lookup_insert_eq.
      + split; [apply NoDup_nil_2|constructor].
      + done.
      + intros l' Hl'. by apply elem_of_nil in Hl'.
    - intros l' Hl'. unfold h2, h1. rewrite !lookup_insert_ne; [done| |].
      + intros <-. rewrite Hidx0 in Hl'. by destruct Hl'.
      + intros <-. rewrite Hch0 in Hl'. by destruct Hl'. }
  destruct (forEach_build_step_inv h0 idxL chL Hidx0 Hch0 Hne records 0 h2 ∅ [] Hinv)
    as (h' & -> & Hidx & (refs & Hch & Hwf & Hres & _) & Hframe).
  simpl. eexists. eexists. split; [reflexivity|]. simpl.
  split; [done|]. split; [done|]. split; [done|]. split; [done|].
  rewrite createTypesAccess_unfold. split; [|split].
  - simpl. by eapply read_records_frame.
  - done.
  - exists refs. split; [exact Hch|]. split; [exact Hwf|exact Hres].
Qed.

(** ** Where the additions of doubles are exact *)

Lemma double_round_exact x : 0 <= x -> x <= MAX_EXACT -> double_round x = Some x.
Proof.
  intros H0 H1. unfold double_round.
  rewrite Z.abs_eq by done. by rewrite (proj2 (Z.leb_le _ _) H1).
Qed.

Lemma is_double_exact x : 0 <= x -> x <= MAX_EXACT -> is_double x = true.
Proof.
  intros H0 H1. unfold is_double. rewrite double_round_exact by done.
  apply Z.eqb_refl.
Qed.

Lemma double_add_exact a b :
  0 <= a -> 0 <= b -> a + b <= MAX_EXACT -> double_add a b = Some (a + b).
Proof.
  intros Ha Hb Hab. unfold double_add.
  rewrite !is_double_exact by lia. simpl. apply double_round_exact; lia.
Qed.

Lemma below_refl r : below r r.
Proof. intros x y H. exists y. split; [done|lia]. Qed.

Lemma below_trans r1 r2 r3 : below r1 r2 -> below r2 r3 -> below r1 r3.
Proof.
  intros H12 H23 x y H. destruct (H12 _ _ H) as (y2 & H2 & Hle).
  destruct (H23 _ _ H2) as (y3 & H3 & Hle'). exists y3. split; [done|lia].
Qed.

Lemma subseteq_below (r r' : IdDict Z) : r ⊆ r' -> below r r'.
Proof.
  intros Hsub x y H. exists y. split; [|lia]. eapply lookup_weaken; eauto.
Qed.

Lemma below_bounded r r' : below r r' -> bounded r' -> bounded r.
Proof.
  intros Hb Hr' x y H. destruct (Hb _ _ H) as (y' & H' & Hle).
  pose proof (Hr' _ _ H'). lia.
Qed.

Lemma below_insert (r : IdDict Z) id old v :
  r !! id = Some old -> 0 <= v -> below r (<[id := old + v]> r).
Proof.
  intros Hold Hv x y H. destruct (decide (x = id)) as [->|Hne].
  - rewrite lookup_insert_eq. exists (old + v). split; [done|].
    rewrite Hold in H. injection H as <-. lia.
  - rewrite lookup_insert_ne by done. exists y. split; [done|lia].
Qed.

Lemma bounded_getAggregatedCount f id :
  bounded (TypesFrequency.aggregatedCountsById f) ->
  getAggregatedCount f id <= MAX_EXACT.
Proof.
  intros Hb. unfold getAggregatedCount.
  destruct (TypesFrequency.aggregatedCountsById f !! id) as [y|] eqn:E; simpl.
  - pose proof (Hb _ _ E). destruct (Z.eqb_spec y 0); [by subst|done].
  - done.
Qed.

Lemma getAggregatedCount_bounded f :
  (forall id, getAggregatedCount f id <= MAX_EXACT) ->
  bounded (TypesFrequency.aggregatedCountsById f).
Proof.
  intros H x y Hx. specialize (H x). unfold getAggregatedCount in H.
  rewrite Hx in H. simpl in H. destruct (Z.eqb_spec y 0); [by subst|done].
Qed.

Section Exact.
Variable childrenById : ODict (list Id).
Variable countsById : IdDict (option Z).
Hypothesis nonneg : counts_nonneg countsById.

Local Abbreviation run fuel r id := (_getTotalCount fuel r id childrenById countsById).
Local Abbreviation run_double fuel r id :=
  (_getTotalCount_double fuel r id childrenById countsById).

Lemma above_own_nonneg r x y :
  above_own countsById r -> r !! x = Some y -> 0 <= y.
Proof.
  intros Ha Hx. pose proof (Ha _ _ Hx).
  pose proof (own_count_nonneg countsById nonneg x). lia.
Qed.

Lemma above_own_add r id old v :
  above_own countsById r -> own_count countsById id <= old -> 0 <= v ->
  above_own countsById (<[id := old + v]> r).
Proof.
  intros Ha Hold Hv x y Hx. rewrite lookup_insert in Hx. case_decide as Hk.
  - subst x. injection Hx as <-. lia.
  - by eapply Ha.
Qed.

(** The entries only grow while a frame adds its children: each call adds
    entries, and [+=] adds a total that is not negative. *)
Lemma add_children_below call id cs r r' :
  call_grows call ->
  (forall r c r1 v, call r c = Some (r1, v) ->
     above_own countsById r -> above_own countsById r1) ->
  above_own countsById r -> is_Some (r !! id) ->
  add_children call id cs r = Some r' ->
  below r r'.
Proof.
  intros Hgrow Hpres. revert r.
  induction cs as [|c cs IH]; intros r Ha [old Hold] H; simpl in H.
  - injection H as <-. apply below_refl.
  - destruct (call r c) as [[r1 v]|] eqn:E; [|done].
    destruct (Hgrow _ _ _ _ E) as [Hsub Hv].
    pose proof (Hpres _ _ _ _ E Ha) as Ha1.
    pose proof (above_own_nonneg _ _ _ Ha1 Hv) as Hv0.
    pose proof (lookup_weaken _ _ _ _ Hold Hsub) as Hold1.
    rewrite (result_read_Some _ _ _ Hold) in H.
    apply below_trans with r1; [by apply subseteq_below|].
    apply below_trans with (<[id := old + v]> r1); [by apply below_insert|].
    apply IH; [|by rewrite lookup_insert_eq; eauto|exact H].
    apply above_own_add; [done| |done]. by eapply Ha.
Qed.

Lemma add_children_double_agrees call call_double id cs r r' :
  call_grows call ->
  (forall r c r1 v, call r c = Some (r1, v) ->
     above_own countsById r -> above_own countsById r1) ->
  (forall r c r1 v, call r c = Some (r1, v) ->
     above_own countsById r -> bounded r1 -> call_double r c = Some (r1, v)) ->
  above_own countsById r -> is_Some (r !! id) ->
  add_children call id cs r = Some r' ->
  bounded r' ->
  add_children_double call_double id cs r = Some r'.
Proof.
  intros Hgrow Hpres Hagree. revert r.
  induction cs as [|c cs IH]; intros r Ha [old Hold] H Hb; simpl in H |- *.
  - done.
  - destruct (call r c) as [[r1 v]|] eqn:E; [|done].
    destruct (Hgrow _ _ _ _ E) as [Hsub Hv].
    pose proof (Hpres _ _ _ _ E Ha) as Ha1.
    pose proof (above_own_nonneg _ _ _ Ha1 Hv) as Hv0.
    pose proof (above_own_nonneg _ _ _ Ha Hold) as Hold0.
    pose proof (lookup_weaken _ _ _ _ Hold Hsub) as Hold1.
    rewrite (result_read_Some _ _ _ Hold) in H |- *.
    assert (above_own countsById (<[id := old + v]> r1)) as Ha2.
    { apply above_own_add; [done| |done]. by eapply Ha. }
    assert (is_Some (<[id := old + v]> r1 !! id)) as Hid2.
    { rewrite lookup_insert_eq. eauto. }
    pose proof (add_children_below _ _ _ _ _ Hgrow Hpres Ha2 Hid2 H) as Hbelow.
    pose proof (below_bounded _ _ Hbelow Hb) as Hb2.
    assert (bounded r1) as Hb1.
    { eapply below_bounded; [|exact Hb2]. by apply below_insert. }
    rewrite (Hagree _ _ _ _ E Ha Hb1).
    rewrite double_add_exact; [|done|done|].
    + by apply IH.
    + apply (Hb2 id). by rewrite lookup_insert_eq.
Qed.

Lemma getTotalCount_double_agrees fuel r id r' v :
  run fuel r id = Some (r', v) ->
  above_own countsById r -> bounded r' ->
  run_double fuel r id = Some (r', v).
Proof.
  revert r id r' v.
  induction fuel as [|fuel IH]; intros r id r' v H Ha Hb; simpl in H |- *; [done|].
  destruct (r !! id) as [total|] eqn:Hid; [done|].
  destruct (add_children _ id _ _) as [r2|] eqn:E; [|done].
  injection H as <- <-.
  assert (above_own countsById (<[id := nullish_zero (dict_get countsById id)]> r)) as Ha0.
  { intros x vx Hx. rewrite lookup_insert in Hx. case_decide as Hk.
    - subst x. injection Hx as <-. unfold own_count. lia.
    - by eapply Ha. }
  assert (is_Some (<[id := nullish_zero (dict_get countsById id)]> r !! id)) as Hid0.
  { rewrite lookup_insert_eq. eauto. }
  assert (forall r c r1 v, run fuel r c = Some (r1, v) ->
            above_own countsById r -> above_own countsById r1) as Hpres.
  { intros r0 c r1 v0 Hrun. by eapply getTotalCount_above_own. }
  pose proof (add_children_below _ _ _ _ _
                (getTotalCount_grows childrenById countsById fuel) Hpres Ha0 Hid0 E) as Hbelow.
  pose proof (below_bounded _ _ Hbelow Hb) as Hb0.
  rewrite is_double_exact.
  - erewrite add_children_double_agrees; [done| | | |exact Ha0|exact Hid0|exact E|exact Hb].
    + apply getTotalCount_grows.
    + exact Hpres.
    + intros r0 c r1 v0 Hrun Ha1 Hb1. by apply IH.
  - apply (own_count_nonneg countsById nonneg id).
  - apply (Hb0 id). by rewrite lookup_insert_eq.
Qed.

Lemma aggregate_keys_double_agrees fuel keys r r' :
  aggregate_keys fuel keys r childrenById countsById = Some r' ->
  above_own countsById r -> bounded r' ->
  aggregate_keys_double fuel keys r childrenById countsById = Some r'.
Proof.
  revert r. induction keys as [|k keys IH]; intros r H Ha Hb; simpl in H |- *.
  - done.
  - destruct (run fuel r k) as [[r1 v]|] eqn:E; [|done].
    pose proof (getTotalCount_above_own _ _ nonneg _ _ _ _ _ E Ha) as Ha1.
    destruct (aggregate_keys_grows _ _ _ _ _ _ H) as [Hsub _].
    rewrite (getTotalCount_double_agrees _ _ _ _ _ E Ha).
    + by apply IH.
    + eapply below_bounded; [|exact Hb]. by apply subseteq_below.
Qed.
End Exact.

Lemma calculateAggregatedCounts_double_agrees ch counts fuel agg :
  counts_nonneg counts ->
  calculateAggregatedCounts fuel ch counts = Some agg ->
  bounded agg ->
  calculateAggregatedCounts_double fuel ch counts = Some agg.
Proof.
  intros Hnn H Hb. apply aggregate_keys_double_agrees; [done|done| |done].
  intros x v Hx. by rewrite lookup_empty in Hx.
Qed.

Lemma new_TypesFrequency_double_agrees fuel l idx ch counts f :
  counts_nonneg counts ->
  new_TypesFrequency fuel l idx ch counts = Some f ->
  (forall id, getAggregatedCount f id <= MAX_EXACT) ->
  new_TypesFrequency_double fuel l idx ch counts = Some f.
Proof.
  intros Hnn Hf Hb. apply getAggregatedCount_bounded in Hb.
  unfold new_TypesFrequency in Hf. unfold new_TypesFrequency_double.
  destruct (calculateAggregatedCounts fuel ch counts) as [agg|] eqn:E; [|done].
  injection Hf as <-. simpl in Hb.
  by rewrite (calculateAggregatedCounts_double_agrees _ _ _ _ Hnn E Hb).
Qed.

(** * The claims *)




(** C2 as stated fails: the frame of an id writes its memo entry before it
    visits the children, so a descendant that leads back to the id finds
    the entry and returns. On the two records that name each other as
    parent the engine returns with three frames, and no index, cyclic or
    not, exhausts every stack. *)
Lemma cyclic_hierarchy_returns :
  tc (edge (TypesAccess.childrenById loop2)) 1 1
  ∧ calculateAggregatedCounts 3 (TypesAccess.childrenById loop2) chain_counts
    = Some (<[1 := 4]> (<[2 := 3]> ∅))
  ∧ ~ (exists ch counts,
         ~ Acyclic ch ∧ forall fuel, calculateAggregatedCounts fuel ch counts = None).
Proof.
  split; [|split].
  - apply tc_l with 2; [|apply tc_once]; unfold edge.
    + assert (children_of (TypesAccess.childrenById loop2) 1 = [2]) as -> by reflexivity.
      left.
    + assert (children_of (TypesAccess.childrenById loop2) 2 = [1]) as -> by reflexivity.
      left.
  - by vm_compute.
  - intros (ch & counts & _ & H).
    destruct (calculateAggregatedCounts_returns ch counts (S (size (hierarchy_ids ch))))
      as [agg Hagg]; [lia|].
    by rewrite H in Hagg.
Qed.

(** C2, amended. For every [childrenById] index, with or without a
    parent-id cycle, the recursion of the aggregation engine is bounded:
    [calculateAggregatedCounts] returns as soon as the stack holds one frame
    more than the index has distinct ids, and its result has an entry for
    every id of the index. *)
Theorem aggregation_returns_on_any_hierarchy ch counts fuel :
  (size (hierarchy_ids ch) < fuel)%nat ->
  exists agg, calculateAggregatedCounts fuel ch counts = Some agg
    ∧ forall id, in_hierarchy ch id -> is_Some (agg !! id).
Proof.
  intros Hfuel.
  destruct (calculateAggregatedCounts_returns ch counts fuel Hfuel) as [agg Hagg].
  exists agg. split; [done|]. by eapply calculateAggregatedCounts_covers.
Qed.

Lemma aggregation_returns_on_any_hierarchy_witness :
  exists agg,
    calculateAggregatedCounts 3 (TypesAccess.childrenById loop2) chain_counts = Some agg
    ∧ forall id, in_hierarchy (TypesAccess.childrenById loop2) id -> is_Some (agg !! id).
Proof.
  apply aggregation_returns_on_any_hierarchy. vm_compute. lia.
Defined.

(** C3 as stated fails when an aggregated count is negative: the record is
    removed although its aggregated count is not 0. *)
Lemma dropZeroCounts_removes_negative :
  exists f f',
    createTypesFrequency 3 single owing_counts = Some f
    ∧ dropZeroCounts 1 f = Some f'
    ∧ plain 1 0 ∈ TypesAccess.localizedTypes (TypesFrequency.base f)
    ∧ (plain 1 0 ∉ TypesAccess.localizedTypes (TypesFrequency.base f'))
    ∧ getAggregatedCount f (LocalizedType.id (plain 1 0)) = -2.
Proof.
  eexists. eexists.
  split; [vm_compute; reflexivity|].
  split; [vm_compute; reflexivity|].
  split; [left|]. split; [|by vm_compute].
  simpl. apply not_elem_of_nil.
Qed.

(** C3, amended. For every TypesFrequency instance, [dropZeroCounts] keeps
    exactly the records whose aggregated count, evaluated on the receiver,
    is greater than zero, in their original relative order, and removes
    the others; when no record of the receiver has a negative aggregated
    count, the removed records are exactly those whose aggregated count
    was 0. *)
Theorem dropZeroCounts_keeps_positive f fuel :
  (size (hierarchy_ids
           (build_childrenById
              (List.filter
                 (fun r => (0 <? getAggregatedCount f (LocalizedType.id r))%Z)
                 (TypesAccess.localizedTypes (TypesFrequency.base f))))) < fuel)%nat ->
  exists f', dropZeroCounts fuel f = Some f'
    ∧ TypesAccess.localizedTypes (TypesFrequency.base f')
      = List.filter (fun r => 0 <? getAggregatedCount f (LocalizedType.id r))
          (TypesAccess.localizedTypes (TypesFrequency.base f))
    ∧ sublist (TypesAccess.localizedTypes (TypesFrequency.base f'))
              (TypesAccess.localizedTypes (TypesFrequency.base f))
    ∧ (forall r, r ∈ TypesAccess.localizedTypes (TypesFrequency.base f')
         <-> r ∈ TypesAccess.localizedTypes (TypesFrequency.base f)
             ∧ 0 < getAggregatedCount f (LocalizedType.id r))
    ∧ ((forall r, r ∈ TypesAccess.localizedTypes (TypesFrequency.base f) ->
          0 <= getAggregatedCount f (LocalizedType.id r)) ->
       forall r, r ∈ TypesAccess.localizedTypes (TypesFrequency.base f) ->
         (r ∉ TypesAccess.localizedTypes (TypesFrequency.base f')
          <-> getAggregatedCount f (LocalizedType.id r) = 0)).
Proof.
  intros Hfuel. unfold dropZeroCounts. rewrite TypesFrequency_filter_unfold.
  cbv zeta.
  set (kept := List.filter _ _) in *.
  match goal with |- context [new_TypesFrequency fuel kept ?i ?c ?n] =>
    destruct (new_TypesFrequency_returns fuel kept i c n Hfuel) as [f' Hf'] end.
  exists f'. split; [done|].
  destruct (new_TypesFrequency_Some _ _ _ _ _ _ Hf') as (Hbase & _ & _).
  rewrite Hbase. simpl.
  assert (forall r, r ∈ kept
            <-> r ∈ TypesAccess.localizedTypes (TypesFrequency.base f)
                ∧ 0 < getAggregatedCount f (LocalizedType.id r)) as Hmem.
  { intros r. unfold kept. rewrite elem_of_filter_bool. by rewrite Z.ltb_lt. }
  split; [done|]. split; [apply filter_sublist|]. split; [done|].
  intros Hnn r Hr. rewrite Hmem. specialize (Hnn r Hr). split.
  - intros Hnot. destruct (decide (getAggregatedCount f (LocalizedType.id r) = 0)); [done|].
    exfalso. apply Hnot. split; [done|lia].
  - intros Hz [_ Hpos]. lia.
Qed.

Lemma dropZeroCounts_keeps_positive_witness :
  exists f f',
    createTypesFrequency 4 forked forked_counts = Some f
    ∧ dropZeroCounts 4 f = Some f'
    ∧ TypesAccess.localizedTypes (TypesFrequency.base f') = [plain 1 0; plain 2 1].
Proof.
  destruct (createTypesFrequency 4 forked forked_counts) as [f|] eqn:Hf;
    [|by vm_compute in Hf].
  vm_compute in Hf. injection Hf as <-.
  match goal with |- context [Some ?f = _] =>
    destruct (dropZeroCounts_keeps_positive f 4) as (f' & Hf' & Hkept & _);
      [|exists f, f'] end.
  - vm_compute. lia.
  - split; [reflexivity|]. split; [exact Hf'|]. rewrite Hkept. reflexivity.
Defined.

(** C4. Filtering twice with the same predicate gives the same TypesAccess
    as filtering once: the same record list, the same [idIndex] and the
    same [childrenById]. *)
Theorem filter_twice_is_filter_once a p :
  TypesAccess_filter (TypesAccess_filter a p) p = TypesAccess_filter a p
  ∧ TypesAccess.localizedTypes (TypesAccess_filter (TypesAccess_filter a p) p)
    = TypesAccess.localizedTypes (TypesAccess_filter a p)
  ∧ TypesAccess.idIndex (TypesAccess_filter (TypesAccess_filter a p) p)
    = TypesAccess.idIndex (TypesAccess_filter a p)
  ∧ TypesAccess.childrenById (TypesAccess_filter (TypesAccess_filter a p) p)
    = TypesAccess.childrenById (TypesAccess_filter a p).
Proof.
  assert (TypesAccess_filter (TypesAccess_filter a p) p = TypesAccess_filter a p) as H.
  { rewrite !TypesAccess_filter_unfold, !createTypesAccess_unfold. simpl.
    by rewrite filter_idem. }
  by rewrite H.
Qed.

(** C5. In the TypesAccess built from any record list, [getType] of an id
    that some record has returns a record of the list whose id is that id;
    for an id that no record has, [getType] returns undefined,
    [getCommonName] and [getScientificName] return the empty string and
    [getMenuEntry] returns null. Every accessor is a total function. *)
Theorem accessors_on_present_and_absent_ids l id :
  (id ∈ map LocalizedType.id l ->
   exists r, getType (createTypesAccess l) id = Some r
     ∧ LocalizedType.id r = id ∧ r ∈ l)
  ∧ (id ∉ map LocalizedType.id l ->
     getType (createTypesAccess l) id = None
     ∧ getCommonName (createTypesAccess l) id = EmptyString
     ∧ getScientificName (createTypesAccess l) id = EmptyString
     ∧ getMenuEntry (createTypesAccess l) id = None).
Proof.
  split.
  - intros Hin. rewrite getType_createTypesAccess. unfold build_idIndex.
    destruct (forEach_id_step_is_Some l 0 ∅ id Hin) as [i Hi]. rewrite Hi.
    apply forEach_id_step_Some in Hi as [[Hi _]|(r & _ & Hr & Hid)].
    + by rewrite lookup_empty in Hi.
    + rewrite Nat.sub_0_r in Hr. exists r. split; [done|]. split; [done|].
      by eapply list_elem_of_lookup_2.
  - intros Hnot.
    assert (getType (createTypesAccess l) id = None) as H.
    { rewrite getType_createTypesAccess. unfold build_idIndex.
      rewrite forEach_id_step_None by done. by rewrite lookup_empty. }
    unfold getCommonName, getScientificName, getMenuEntry.
    unfold getType in H. by rewrite H.
Qed.

Lemma accessors_on_present_and_absent_ids_witness :
  (exists r, getType chain 2 = Some r ∧ LocalizedType.id r = 2
             ∧ r ∈ [plain 1 0; plain 2 1; plain 3 2])
  ∧ (getType chain 7 = None
     ∧ getCommonName chain 7 = EmptyString
     ∧ getScientificName chain 7 = EmptyString
     ∧ getMenuEntry chain 7 = None).
Proof.
  split.
  - apply (proj1 (accessors_on_present_and_absent_ids [plain 1 0; plain 2 1; plain 3 2] 2)).
    simpl. right. left.
  - apply (proj2 (accessors_on_present_and_absent_ids [plain 1 0; plain 2 1; plain 3 2] 7)).
    simpl. rewrite !not_elem_of_cons. repeat split; try lia. apply not_elem_of_nil.
Defined.

(** C6. The records of [typesAccessInLanguage] are the localized input
    records and, beside them, exactly one synthetic Pending Review record
    (id -1, parentId 0, taxonomicRank 0, commonName "Pending Review") when
    some input record has a true [pending], and no synthetic record
    otherwise. When no input record has the id -1 itself, the result holds
    one record with that id in the first case and none in the second. *)
Theorem pending_review_injected_iff_pending types language :
  Permutation
    (TypesAccess.localizedTypes (typesAccessInLanguage types language))
    (map (fun t => localize t language) types
       ++ (if existsb (fun t => truthy_pending (SchemaType.pending t)) types
           then [pendingReview] else []))
  ∧ (existsb (fun t => truthy_pending (SchemaType.pending t)) types = true
     <-> exists t, t ∈ types ∧ SchemaType.pending t = Some true)
  ∧ (LocalizedType.id pendingReview = -1
     ∧ LocalizedType.parentId pendingReview = 0
     ∧ LocalizedType.taxonomicRank pendingReview = 0
     ∧ LocalizedType.commonName pendingReview = "Pending Review"%string)
  ∧ ((forall t, t ∈ types -> SchemaType.id t ≠ PENDING_ID) ->
     length (List.filter (fun r => LocalizedType.id r =? PENDING_ID)
               (TypesAccess.localizedTypes (typesAccessInLanguage types language)))
     = if existsb (fun t => truthy_pending (SchemaType.pending t)) types
       then 1%nat else 0%nat).
Proof.
  rewrite typesAccessInLanguage_localizedTypes.
  split; [apply sortBy_Permutation|]. split; [|split; [done|]].
  - rewrite existsb_exists. split.
    + intros (t & Ht & Hp). exists t. split; [by apply list_elem_of_In|].
      destruct (SchemaType.pending t) as [[]|]; done.
    + intros (t & Ht & Hp). exists t. split; [by apply list_elem_of_In|].
      by rewrite Hp.
  - intros Hids.
    rewrite (filter_length_Permutation _ _ _ (sortBy_Permutation display_compare _)).
    rewrite List.filter_app, filter_pending_id_localize by done.
    by destruct (existsb _ types).
Qed.

Lemma pending_review_injected_iff_pending_witness :
  length (List.filter (fun r => LocalizedType.id r =? PENDING_ID)
            (TypesAccess.localizedTypes
               (typesAccessInLanguage
                  [SchemaType.mk 5 (Some 2) (Some true) None None None None;
                   SchemaType.mk 2 None None None None None None]
                  "en")))
  = 1%nat.
Proof.
  apply (proj2 (proj2 (proj2 (pending_review_injected_iff_pending
           [SchemaType.mk 5 (Some 2) (Some true) None None None None;
            SchemaType.mk 2 None None None None None None] "en")))).
  intros t. rewrite !elem_of_cons, elem_of_nil.
  intros [->|[->|[]]]; simpl; unfold PENDING_ID; lia.
Defined.

(** C7. [filter] keeps exactly the records that satisfy the predicate, in
    their original relative order, and its indices are those the index
    builder makes from the kept records alone; [childrenById] lists every
    kept record under its own [parentId], whether or not a record with
    that id was kept. *)
Theorem filter_rebuilds_and_keeps_parents a p :
  TypesAccess.localizedTypes (TypesAccess_filter a p)
  = List.filter p (TypesAccess.localizedTypes a)
  ∧ sublist (TypesAccess.localizedTypes (TypesAccess_filter a p))
            (TypesAccess.localizedTypes a)
  ∧ (forall r, r ∈ TypesAccess.localizedTypes (TypesAccess_filter a p)
       <-> r ∈ TypesAccess.localizedTypes a ∧ p r = true)
  ∧ TypesAccess_filter a p
    = createTypesAccess (TypesAccess.localizedTypes (TypesAccess_filter a p))
  ∧ (forall q, children_of (TypesAccess.childrenById (TypesAccess_filter a p)) q
       = ids_with_parent q (TypesAccess.localizedTypes (TypesAccess_filter a p)))
  ∧ (forall r, r ∈ TypesAccess.localizedTypes (TypesAccess_filter a p) ->
       LocalizedType.id r
       ∈ children_of (TypesAccess.childrenById (TypesAccess_filter a p))
           (LocalizedType.parentId r)).
Proof.
  rewrite TypesAccess_filter_unfold, createTypesAccess_unfold. simpl.
  split; [done|]. split; [apply filter_sublist|].
  split; [intros r; apply elem_of_filter_bool|].
  split; [by rewrite createTypesAccess_unfold|].
  split; [intros q; apply build_childrenById_children|].
  intros r Hr. rewrite build_childrenById_children. unfold ids_with_parent.
  rewrite list_elem_of_In. apply in_map, filter_In.
  split; [by apply list_elem_of_In|]. apply Z.eqb_refl.
Qed.

Lemma filter_rebuilds_and_keeps_parents_witness :
  2 ∈ children_of
        (TypesAccess.childrenById
           (TypesAccess_filter chain (fun r => negb (LocalizedType.id r =? 1))))
        1
  ∧ getType (TypesAccess_filter chain (fun r => negb (LocalizedType.id r =? 1))) 1 = None.
Proof.
  split; [|reflexivity].
  apply (proj2 (proj2 (proj2 (proj2 (proj2
           (filter_rebuilds_and_keeps_parents chain
              (fun r => negb (LocalizedType.id r =? 1)))))))
           (plain 2 1)).
  simpl. left.
Defined.

(** C8. In the display order every record with a non-empty scientificName
    stands before every record with an empty one; records with non-empty
    scientificName are in ascending order of scientificName, those with
    the same scientificName in descending order of taxonomicRank, and
    those with the same rank too in ascending order of commonName; the
    sorter only rearranges its input. The order is the one fed to index
    construction: [typesAccessInLanguage] builds its indices over the
    display order of the localized input records, followed by the
    Pending Review record when an input record is pending, and this is the
    record list of the TypesAccess it returns. Names are strings of 8-bit
    characters compared by their codes, which is how JavaScript compares
    strings whose code units are below 256. *)
Theorem display_order_sorted :
  (forall l,
      Permutation (toDisplayOrder l) l
      ∧ forall i j a b, (i < j)%nat ->
          toDisplayOrder l !! i = Some a -> toDisplayOrder l !! j = Some b ->
          display_before a b)
  ∧ (forall types language,
        typesAccessInLanguage types language
        = createTypesAccess
            (toDisplayOrder
               (map (fun t => localize t language) types
                  ++ (if existsb (fun t => truthy_pending (SchemaType.pending t)) types
                      then [pendingReview] else [])))
        ∧ TypesAccess.localizedTypes (typesAccessInLanguage types language)
          = toDisplayOrder
              (map (fun t => localize t language) types
                 ++ (if existsb (fun t => truthy_pending (SchemaType.pending t)) types
                     then [pendingReview] else []))
        ∧ typesAccessInLanguage types language
          = createTypesAccess
              (TypesAccess.localizedTypes (typesAccessInLanguage types language))
        ∧ forall i j a b, (i < j)%nat ->
            TypesAccess.localizedTypes (typesAccessInLanguage types language) !! i = Some a ->
            TypesAccess.localizedTypes (typesAccessInLanguage types language) !! j = Some b ->
            display_before a b).
Proof.
  assert (forall l i j a b, (i < j)%nat ->
            toDisplayOrder l !! i = Some a -> toDisplayOrder l !! j = Some b ->
            display_before a b) as Hsorted.
  { intros l i j a b Hij Ha Hb. apply not_after_display_before.
    eapply (StronglySorted_lookup_lt
              (fun a b => not_after display_compare a b = true)); [|exact Hij|exact Ha|exact Hb].
    apply sortBy_StronglySorted, display_compare_RecordOrder. }
  split.
  - intros l. split; [apply sortBy_Permutation|apply Hsorted].
  - intros types language. split; [|split; [|split]].
    + unfold typesAccessInLanguage.
      destruct (existsb _ types); [done|]. by rewrite app_nil_r.
    + apply typesAccessInLanguage_localizedTypes.
    + unfold typesAccessInLanguage. by rewrite createTypesAccess_localizedTypes.
    + rewrite typesAccessInLanguage_localizedTypes. apply Hsorted.
Qed.

Lemma display_order_sorted_witness :
  display_before
    (LocalizedType.mk 3 0 "Malus" "Apple" 5 ∅)
    (LocalizedType.mk 1 0 EmptyString "Unknown" 0 ∅).
Proof.
  apply (proj2 (proj1 display_order_sorted
                  [LocalizedType.mk 1 0 EmptyString "Unknown" 0 ∅;
                   LocalizedType.mk 2 3 "Malus" "Crab apple" 5 ∅;
                   LocalizedType.mk 3 0 "Malus" "Apple" 5 ∅])
           0%nat 2%nat).
  - lia.
  - reflexivity.
  - reflexivity.
Defined.

(** C9. [a.addType(r, language)] returns an instance made of objects that
    did not exist before the call, which stands for the receiver's records
    followed by the localized [r], indexed anew; the call writes to no
    object that existed before it, so the receiver's record list, its
    [idIndex], its [childrenById] and the arrays of children are as they
    were, and [a.getType(id)] returns after the call what it returned
    before, for every id. *)
Theorem addType_leaves_receiver_unchanged h this a newType language :
  Heap.view h this a ->
  exists this' h',
    Heap.addType this newType language h = Some (this', h')
    ∧ Heap.view h' this' (addType a newType language)
    ∧ (h !! Heap.localizedTypes this' = None
       ∧ h !! Heap.idIndex this' = None
       ∧ h !! Heap.childrenById this' = None)
    ∧ (forall l, is_Some (h !! l) -> h' !! l = h !! l)
    ∧ Heap.view h' this a
    ∧ (forall id,
          Heap.getType this id h' = Heap.getType this id h
          ∧ Heap.getType this id h = Some (getType a id)).
Proof.
  intros Hview. pose proof Hview as (Hrec & _).
  unfold Heap.addType. rewrite Hrec. simpl.
  set (l := fresh (dom h)).
  set (records := TypesAccess.localizedTypes a ++ [localize newType language]).
  set (h1 := <[l := Heap.Records records]> h).
  assert (h !! l = None) as Hl by apply is_fresh_lookup.
  assert (forall l', is_Some (h !! l') -> h1 !! l' = h !! l') as Hframe1.
  { intros l' Hl'. unfold h1. apply lookup_insert_ne.
    intros <-. rewrite Hl in Hl'. by destruct Hl'. }
  destruct (heap_createTypesAccess h1 l records)
    as (this' & h' & -> & Hlt & Hidx & Hch & Hframe & Hview').
  { unfold Heap.read_records, h1. by rewrite lookup_insert_eq. }
  assert (forall l', is_Some (h !! l') -> h' !! l' = h !! l') as Hframe'.
  { intros l' Hl'. rewrite Hframe; [by apply Hframe1|]. by rewrite Hframe1. }
  assert (forall l', h1 !! l' = None -> h !! l' = None) as Hnew.
  { intros l' E. destruct (h !! l') eqn:E'; [|done].
    rewrite Hframe1 in E; [congruence|eauto]. }
  exists this', h'. split; [done|]. split; [exact Hview'|].
  split; [by rewrite Hlt; auto|]. split; [exact Hframe'|].
  assert (Heap.view h' this a) as Hkept by by eapply view_frame.
  split; [done|]. intros id.
  by rewrite (getType_view h' this a), (getType_view h this a).
Qed.

Lemma addType_leaves_receiver_unchanged_witness :
  exists this' h',
    Heap.addType single_instance
      (SchemaType.mk 2 (Some 1) None None None None None) "en" single_heap
    = Some (this', h')
    ∧ Heap.view h' single_instance single
    ∧ Heap.getType single_instance 1 h' = Some (Some (plain 1 0)).
Proof.
  destruct (addType_leaves_receiver_unchanged single_heap single_instance single
              (SchemaType.mk 2 (Some 1) None None None None None) "en")
    as (this' & h' & Hadd & _ & _ & _ & Hkept & Hget).
  - split; [reflexivity|]. split; [reflexivity|].
    exists [(0, 4%positive)]. split; [reflexivity|]. split; [|reflexivity].
    split; [apply NoDup_singleton|]. repeat constructor. by eexists.
  - exists this', h'. split; [exact Hadd|]. split; [exact Hkept|].
    destruct (Hget 1) as [-> ->]. reflexivity.
Defined.

(** C10 as stated fails on an id that has a raw count but is neither a
    record's id nor a record's parent: the engine never visits it, so its
    aggregated count is 0 and lies below its raw count. *)
Lemma stray_count_is_not_aggregated :
  counts_nonneg stray_counts
  ∧ Acyclic (TypesAccess.childrenById single)
  ∧ exists f, createTypesFrequency 3 single stray_counts = Some f
      ∧ getCount f 7 = 5
      ∧ getAggregatedCount f 7 = 0
      ∧ ~ (getAggregatedCount f 7 >= getCount f 7).
Proof.
  split; [|split].
  - repeat apply counts_nonneg_insert; try lia. apply counts_nonneg_empty.
  - apply (ranked_by_Acyclic (fun x => - x)). reflexivity.
  - eexists. split; [vm_compute; reflexivity|]. by vm_compute.
Qed.

(** C10, amended. For every TypesFrequency whose supplied raw counts are
    all nonnegative, whether or not the hierarchy is acyclic: every id of
    the hierarchy satisfies getAggregatedCount(id) >= getCount(id) >= 0;
    for any id whatsoever both accessors return a nonnegative number; and
    an id outside the hierarchy has the aggregated count 0. *)
Theorem aggregated_count_bounds l idx ch counts fuel :
  counts_nonneg counts ->
  (size (hierarchy_ids ch) < fuel)%nat ->
  exists f, new_TypesFrequency fuel l idx ch counts = Some f
    ∧ (forall id, in_hierarchy ch id ->
         0 <= getCount f id ∧ getCount f id <= getAggregatedCount f id)
    ∧ (forall id, 0 <= getCount f id ∧ 0 <= getAggregatedCount f id)
    ∧ (forall id, id ∉ hierarchy_ids ch -> getAggregatedCount f id = 0).
Proof.
  intros Hnn Hfuel.
  destruct (new_TypesFrequency_returns fuel l idx ch counts Hfuel) as [f Hf].
  exists f. split; [done|].
  destruct (new_TypesFrequency_Some _ _ _ _ _ _ Hf) as (_ & Hcounts & Hagg).
  pose proof (calculateAggregatedCounts_above_own _ _ _ _ Hnn Hagg) as Habove.
  assert (forall id, 0 <= getCount f id) as Hcount.
  { intros id. rewrite getCount_own, Hcounts. by apply own_count_nonneg. }
  split; [|split].
  - intros id Hid. split; [done|].
    destruct (calculateAggregatedCounts_covers _ _ _ _ Hagg id Hid) as [v Hv].
    rewrite getAggregatedCount_read, (result_read_Some _ _ _ Hv).
    rewrite getCount_own, Hcounts. by eapply Habove.
  - intros id. split; [done|].
    rewrite getAggregatedCount_read. unfold result_read.
    destruct (TypesFrequency.aggregatedCountsById f !! id) as [v|] eqn:Hv; [|lia].
    pose proof (Habove _ _ Hv). pose proof (own_count_nonneg counts Hnn id). lia.
  - intros id Hid. rewrite getAggregatedCount_read. unfold result_read.
    destruct (TypesFrequency.aggregatedCountsById f !! id) as [v|] eqn:Hv; [|done].
    exfalso. apply Hid. eapply calculateAggregatedCounts_dom; [exact Hagg|].
    apply elem_of_dom. eauto.
Qed.

Lemma aggregated_count_bounds_witness :
  exists f,
    new_TypesFrequency 3 (TypesAccess.localizedTypes single) (TypesAccess.idIndex single)
      (TypesAccess.childrenById single) stray_counts = Some f
    ∧ (forall id, in_hierarchy (TypesAccess.childrenById single) id ->
         0 <= getCount f id ∧ getCount f id <= getAggregatedCount f id)
    ∧ (forall id, 0 <= getCount f id ∧ 0 <= getAggregatedCount f id)
    ∧ (forall id, id ∉ hierarchy_ids (TypesAccess.childrenById single) ->
         getAggregatedCount f id = 0).
Proof.
  apply aggregated_count_bounds.
  - repeat apply counts_nonneg_insert; try lia. apply counts_nonneg_empty.
  - vm_compute. lia.
Defined.

(** * Further properties *)

(** ** The index builder: last write wins, and the children partition *)

Lemma build_idIndex_snoc l x :
  build_idIndex (l ++ [x]) = <[LocalizedType.id x := length l]> (build_idIndex l).
Proof. unfold build_idIndex. by rewrite forEach_app. Qed.

Lemma build_childrenById_snoc l x :
  build_childrenById (l ++ [x])
  = push_child (build_childrenById l) (LocalizedType.parentId x) (LocalizedType.id x).
Proof. unfold build_childrenById. by rewrite forEach_app. Qed.

Lemma build_idIndex_lookup_lt l k i :
  build_idIndex l !! k = Some i -> (i < length l)%nat.
Proof.
  intros H. apply forEach_id_step_Some in H as [[H _]|(r & _ & Hr & _)].
  - by rewrite lookup_empty in H.
  - apply lookup_lt_Some in Hr. lia.
Qed.

Lemma getType_last_with_id l k :
  getType (createTypesAccess l) k = last_with_id k l.
Proof.
  rewrite getType_createTypesAccess. unfold last_with_id.
  induction l as [|x l IH] using rev_ind; [done|].
  rewrite build_idIndex_snoc, List.filter_app. simpl.
  destruct (Z.eqb_spec (LocalizedType.id x) k) as [->|Hne].
  - rewrite lookup_insert_eq, last_snoc.
    by rewrite lookup_app_r, Nat.sub_diag by lia.
  - rewrite lookup_insert_ne, app_nil_r by done. rewrite <- IH.
    destruct (build_idIndex l !! k) as [i|] eqn:Hi; [|done].
    apply lookup_app_l. by eapply build_idIndex_lookup_lt.
Qed.

Lemma last_with_id_Some k l r :
  last_with_id k l = Some r -> r ∈ l ∧ LocalizedType.id r = k.
Proof.
  unfold last_with_id. intros H. apply last_Some in H as [l' H].
  assert (r ∈ List.filter (fun r => LocalizedType.id r =? k) l) as Hin.
  { rewrite H. apply elem_of_app. right. left. }
  apply elem_of_filter_bool in Hin as [Hin Hk]. split; [done|]. by apply Z.eqb_eq.
Qed.

Lemma filter_id_absent k l :
  k ∉ map LocalizedType.id l ->
  List.filter (fun r => LocalizedType.id r =? k) l = [].
Proof.
  induction l as [|x l IH]; simpl; [done|].
  rewrite not_elem_of_cons. intros [Hne Hnot].
  destruct (Z.eqb_spec (LocalizedType.id x) k); [congruence|auto].
Qed.

Lemma filter_filter_and {A} (p q : A -> bool) l :
  List.filter q (List.filter p l) = List.filter (fun x => p x && q x) l.
Proof.
  induction l as [|x l IH]; simpl; [done|].
  destruct (p x); simpl; [|done]. destruct (q x); by rewrite IH.
Qed.

Lemma filter_ext_bool {A} (p q : A -> bool) l :
  (forall x, p x = q x) -> List.filter p l = List.filter q l.
Proof. intros H. induction l as [|x l IH]; simpl; [done|]. by rewrite H, IH. Qed.

(** With unique ids, the last kept record with an id is the record with
    that id, when it is kept. *)
Lemma last_with_id_filter_NoDup p k l :
  NoDup (map LocalizedType.id l) ->
  last_with_id k (List.filter p l)
  = match last_with_id k l with
    | Some r => if p r then Some r else None
    | None => None
    end.
Proof.
  unfold last_with_id. induction l as [|x l IH]; simpl; [done|].
  intros [Hx Hnd]%NoDup_cons.
  destruct (Z.eqb_spec (LocalizedType.id x) k) as [<-|Hne].
  - rewrite (filter_id_absent _ l Hx). simpl.
    destruct (p x) eqn:Hp; simpl.
    + rewrite Z.eqb_refl. simpl.
      rewrite filter_filter_and.
      rewrite (filter_ext_bool _ (fun r => (LocalizedType.id r =? LocalizedType.id x) && p r)).
      2:{ intros r. apply andb_comm. }
      rewrite <- filter_filter_and, (filter_id_absent _ l Hx). done.
    + rewrite filter_filter_and.
      rewrite (filter_ext_bool _ (fun r => (LocalizedType.id r =? LocalizedType.id x) && p r)).
      2:{ intros r. apply andb_comm. }
      rewrite <- filter_filter_and, (filter_id_absent _ l Hx). done.
  - destruct (p x); simpl.
    + destruct (Z.eqb_spec (LocalizedType.id x) k); [done|]. by apply IH.
    + by apply IH.
Qed.

(** X1. [getType] on the instance built from any record list returns the
    last record of the list that has the id, so when records share an id
    the latest one wins; the record returned is a record of the list with
    that id, and an id of no record gives undefined. *)
Theorem getType_returns_last_record_with_id l k :
  getType (createTypesAccess l) k
  = last (List.filter (fun r => LocalizedType.id r =? k) l)
  ∧ (forall r, getType (createTypesAccess l) k = Some r ->
       r ∈ l ∧ LocalizedType.id r = k)
  ∧ (forall l1 x l2,
       l = l1 ++ x :: l2 -> LocalizedType.id x = k ->
       k ∉ map LocalizedType.id l2 ->
       getType (createTypesAccess l) k = Some x).
Proof.
  split; [apply getType_last_with_id|]. split.
  - intros r H. rewrite getType_last_with_id in H. by apply last_with_id_Some.
  - intros l1 x l2 -> Hx Hl2. rewrite getType_last_with_id. unfold last_with_id.
    rewrite List.filter_app. simpl. rewrite Hx, Z.eqb_refl.
    rewrite (filter_id_absent _ _ Hl2). apply last_snoc.
Qed.

Lemma getType_returns_last_record_with_id_witness :
  getType (createTypesAccess [plain 1 0; plain 1 5; plain 2 1]) 1 = Some (plain 1 5).
Proof.
  apply (proj2 (proj2 (getType_returns_last_record_with_id
                         [plain 1 0; plain 1 5; plain 2 1] 1))
           [plain 1 0] (plain 1 5) [plain 2 1]).
  - reflexivity.
  - reflexivity.
  - simpl. rewrite not_elem_of_cons. split; [lia|apply not_elem_of_nil].
Defined.

Lemma NoDup_fst_oset {T} (d : ODict T) k v :
  NoDup (map fst d) -> NoDup (map fst (oset d k v)).
Proof.
  induction d as [|[k0 v0] d IH]; simpl.
  - intros _. apply NoDup_singleton.
  - intros [Hk0 Hnd]%NoDup_cons. destruct (Z.eqb_spec k0 k) as [->|Hne]; simpl.
    + by apply NoDup_cons.
    + apply NoDup_cons. split; [|by apply IH].
      intros Hin. apply oget_key_Some in Hin as [x Hx].
      rewrite oget_oset_ne in Hx by done. apply Hk0. by eapply oget_Some_key.
Qed.

Lemma concat_snd_oset (d : ODict (list Id)) k v :
  Permutation (children_of d k ++ concat (map snd (oset d k v)))
              (v ++ concat (map snd d)).
Proof.
  unfold children_of. induction d as [|[k0 v0] d IH]; simpl.
  - done.
  - destruct (Z.eqb_spec k0 k) as [->|Hne]; simpl.
    + rewrite !(assoc_L (++)). f_equiv. apply Permutation_app_comm.
    + rewrite (Permutation_app_swap_app _ v0), IH.
      apply Permutation_app_swap_app.
Qed.

Lemma push_child_concat ch p c :
  Permutation (concat (map snd (push_child ch p c))) (concat (map snd ch) ++ [c]).
Proof.
  unfold push_child. destruct (oget ch p) as [cs|] eqn:E.
  - rewrite E. pose proof (concat_snd_oset ch p (cs ++ [c])) as H.
    unfold children_of in H. rewrite E in H.
    rewrite <- (assoc_L (++)) in H. apply Permutation_app_inv_l in H.
    rewrite H. apply Permutation_app_comm.
  - rewrite oget_oset_eq.
    pose proof (concat_snd_oset (oset ch p []) p ([] ++ [c])) as H.
    unfold children_of in H. rewrite oget_oset_eq in H. simpl in H.
    rewrite H.
    pose proof (concat_snd_oset ch p []) as H'.
    unfold children_of in H'. rewrite E in H'. simpl in H'.
    rewrite H'. apply Permutation_cons_append.
Qed.

Lemma build_childrenById_NoDup l : NoDup (map fst (build_childrenById l)).
Proof.
  induction l as [|x l IH] using rev_ind; [apply NoDup_nil_2|].
  rewrite build_childrenById_snoc. unfold push_child.
  destruct (oget (build_childrenById l) (LocalizedType.parentId x)) as [cs|] eqn:E.
  - rewrite E. by apply NoDup_fst_oset.
  - rewrite oget_oset_eq. by do 2 apply NoDup_fst_oset.
Qed.

Lemma build_childrenById_concat l :
  Permutation (concat (map snd (build_childrenById l))) (map LocalizedType.id l).
Proof.
  induction l as [|x l IH] using rev_ind; [done|].
  rewrite build_childrenById_snoc, push_child_concat, map_app, IH. done.
Qed.

Lemma ids_with_parent_nonempty p l :
  p ∈ map LocalizedType.parentId l -> ids_with_parent p l ≠ [].
Proof.
  unfold ids_with_parent. induction l as [|x l IH]; simpl.
  - intros H. by apply elem_of_nil in H.
  - rewrite elem_of_cons. intros [->|H].
    + by rewrite Z.eqb_refl.
    + destruct (LocalizedType.parentId x =? p); [done|auto].
Qed.

(** X2. The index of children that [createTypesAccess] builds partitions
    the records: each parent id is a key once, the children listed under a
    key are, in record order, the ids of the records that name it as
    parent (so no key has an empty list), and all the lists together hold
    each record's id once per record. *)
Theorem children_index_partitions_records l :
  NoDup (map fst (TypesAccess.childrenById (createTypesAccess l)))
  ∧ Permutation
      (concat (map snd (TypesAccess.childrenById (createTypesAccess l))))
      (map LocalizedType.id l)
  ∧ (forall p,
       is_Some (oget (TypesAccess.childrenById (createTypesAccess l)) p)
       <-> p ∈ map LocalizedType.parentId l)
  ∧ (forall p,
       children_of (TypesAccess.childrenById (createTypesAccess l)) p
       = map LocalizedType.id
           (List.filter (fun r => LocalizedType.parentId r =? p) l))
  ∧ (forall p,
       is_Some (oget (TypesAccess.childrenById (createTypesAccess l)) p) ->
       children_of (TypesAccess.childrenById (createTypesAccess l)) p ≠ []).
Proof.
  rewrite createTypesAccess_unfold. simpl.
  split; [apply build_childrenById_NoDup|].
  split; [apply build_childrenById_concat|].
  split; [apply build_childrenById_key|].
  split; [apply build_childrenById_children|].
  intros p Hp. rewrite build_childrenById_children.
  apply ids_with_parent_nonempty. by apply build_childrenById_key.
Qed.

Lemma children_index_partitions_records_witness :
  children_of (TypesAccess.childrenById (createTypesAccess [plain 1 0; plain 2 0])) 0
  ≠ [].
Proof.
  apply (proj2 (proj2 (proj2 (proj2
           (children_index_partitions_records [plain 1 0; plain 2 0]))))).
  by eexists.
Defined.

(** X3. Filtering by [p] and then by [q] gives the same instance as
    filtering once by "p and q"; so the order of two filters does not
    matter. *)
Theorem filter_composes a p q :
  TypesAccess_filter (TypesAccess_filter a p) q
  = TypesAccess_filter a (fun r => p r && q r)
  ∧ TypesAccess_filter (TypesAccess_filter a p) q
    = TypesAccess_filter (TypesAccess_filter a q) p.
Proof.
  assert (forall p q, TypesAccess_filter (TypesAccess_filter a p) q
                      = TypesAccess_filter a (fun r => p r && q r)) as H.
  { intros p' q'. rewrite !TypesAccess_filter_unfold, createTypesAccess_localizedTypes.
    by rewrite filter_filter_and. }
  split; [apply H|]. rewrite !H, !TypesAccess_filter_unfold. f_equal.
  apply filter_ext_bool. intros r. apply andb_comm.
Qed.

(** X4. On an instance built from records with pairwise different ids,
    [getType] after a filter returns the record that [getType] returned
    before when that record satisfies the predicate, and undefined
    otherwise. *)
Theorem getType_after_filter l p k :
  NoDup (map LocalizedType.id l) ->
  getType (TypesAccess_filter (createTypesAccess l) p) k
  = match getType (createTypesAccess l) k with
    | Some r => if p r then Some r else None
    | None => None
    end.
Proof.
  intros Hnd. rewrite TypesAccess_filter_unfold, createTypesAccess_localizedTypes.
  rewrite !getType_last_with_id. by apply last_with_id_filter_NoDup.
Qed.

Lemma getType_after_filter_witness :
  getType (TypesAccess_filter (createTypesAccess [plain 1 0; plain 2 1; plain 3 2])
             (fun r => negb (LocalizedType.id r =? 2))) 2
  = match getType (createTypesAccess [plain 1 0; plain 2 1; plain 3 2]) 2 with
    | Some r => if negb (LocalizedType.id r =? 2) then Some r else None
    | None => None
    end.
Proof.
  apply getType_after_filter. simpl.
  repeat (apply NoDup_cons; split;
          [rewrite ?not_elem_of_cons; repeat split; try lia; apply not_elem_of_nil|]).
  apply NoDup_nil_2.
Defined.

Lemma onlyAllowedParents_unfold a :
  onlyAllowedParents a = TypesAccess_filter a allowed_parent.
Proof. reflexivity. Qed.

Lemma allowed_parent_true t :
  allowed_parent t = true
  <-> LocalizedType.taxonomicRank t ≠ 9 ∧ LocalizedType.id t ≠ PENDING_ID.
Proof.
  unfold allowed_parent. rewrite andb_true_iff, !negb_true_iff, !Z.eqb_neq. done.
Qed.

(** X5. [onlyAllowedParents] keeps exactly the records that have neither
    the rank 9 nor the id of the Pending Review node; in its result no id
    leads [getType] to a record of rank 9, the Pending Review id leads to
    nothing, and applying it again changes nothing. *)
Theorem onlyAllowedParents_excludes_leaves_and_pending a :
  (forall r, r ∈ TypesAccess.localizedTypes (onlyAllowedParents a)
     <-> r ∈ TypesAccess.localizedTypes a
         ∧ LocalizedType.taxonomicRank r ≠ 9 ∧ LocalizedType.id r ≠ PENDING_ID)
  ∧ (forall k r, getType (onlyAllowedParents a) k = Some r ->
       LocalizedType.id r = k
       ∧ LocalizedType.taxonomicRank r ≠ 9 ∧ k ≠ PENDING_ID
       ∧ r ∈ TypesAccess.localizedTypes a)
  ∧ getType (onlyAllowedParents a) PENDING_ID = None
  ∧ onlyAllowedParents (onlyAllowedParents a) = onlyAllowedParents a.
Proof.
  rewrite !onlyAllowedParents_unfold.
  assert (forall r, r ∈ TypesAccess.localizedTypes (TypesAccess_filter a allowed_parent)
            <-> r ∈ TypesAccess.localizedTypes a
                ∧ LocalizedType.taxonomicRank r ≠ 9 ∧ LocalizedType.id r ≠ PENDING_ID) as Hmem.
  { intros r. rewrite TypesAccess_filter_unfold, createTypesAccess_localizedTypes.
    rewrite elem_of_filter_bool. by rewrite allowed_parent_true. }
  assert (forall k r, getType (TypesAccess_filter a allowed_parent) k = Some r ->
            LocalizedType.id r = k
            ∧ LocalizedType.taxonomicRank r ≠ 9 ∧ k ≠ PENDING_ID
            ∧ r ∈ TypesAccess.localizedTypes a) as Hget.
  { intros k r H. rewrite TypesAccess_filter_unfold, getType_last_with_id in H.
    apply last_with_id_Some in H as [Hin Hid].
    apply elem_of_filter_bool in Hin as [Hin Hp].
    apply allowed_parent_true in Hp as [Hrank Hpend]. subst k. auto. }
  split; [exact Hmem|]. split; [exact Hget|]. split.
  - destruct (getType (TypesAccess_filter a allowed_parent) PENDING_ID) as [r|] eqn:E;
      [|done].
    apply Hget in E as (_ & _ & Hne & _). done.
  - rewrite (TypesAccess_filter_unfold (TypesAccess_filter a allowed_parent)).
    rewrite TypesAccess_filter_unfold, createTypesAccess_localizedTypes.
    by rewrite filter_idem.
Qed.

Lemma onlyAllowedParents_excludes_leaves_and_pending_witness :
  LocalizedType.taxonomicRank (plain 2 1) ≠ 9.
Proof.
  apply (proj2 (proj1 (proj2 (onlyAllowedParents_excludes_leaves_and_pending
           (createTypesAccess
              [LocalizedType.mk 1 0 EmptyString EmptyString 9 ∅; plain 2 1])))
           2 (plain 2 1) eq_refl)).
Defined.

Lemma last_with_id_snoc_ne k l x :
  LocalizedType.id x ≠ k -> last_with_id k (l ++ [x]) = last_with_id k l.
Proof.
  intros Hne. unfold last_with_id. rewrite List.filter_app. simpl.
  destruct (Z.eqb_spec (LocalizedType.id x) k); [done|]. by rewrite app_nil_r.
Qed.

Lemma localize_id t language :
  LocalizedType.id (localize t language) = SchemaType.id t.
Proof. reflexivity. Qed.

(** X6. After [addType], [getType] of the new record's id returns the new
    localized record, whether or not the id was present before; on an
    instance built by the index builder every other id returns what it
    returned before; the new record is the last of the list, and its id is
    the last child of its parent. *)
Theorem addType_then_getType l newType language :
  getType (addType (createTypesAccess l) newType language) (SchemaType.id newType)
  = Some (localize newType language)
  ∧ (forall k, k ≠ SchemaType.id newType ->
       getType (addType (createTypesAccess l) newType language) k
       = getType (createTypesAccess l) k)
  ∧ TypesAccess.localizedTypes (addType (createTypesAccess l) newType language)
    = l ++ [localize newType language]
  ∧ children_of
      (TypesAccess.childrenById (addType (createTypesAccess l) newType language))
      (LocalizedType.parentId (localize newType language))
    = children_of (TypesAccess.childrenById (createTypesAccess l))
        (LocalizedType.parentId (localize newType language))
      ++ [SchemaType.id newType].
Proof.
  unfold addType. rewrite createTypesAccess_localizedTypes.
  split; [|split; [|split]].
  - rewrite getType_last_with_id. unfold last_with_id.
    rewrite List.filter_app. simpl. rewrite Z.eqb_refl. apply last_snoc.
  - intros k Hk. rewrite !getType_last_with_id. apply last_with_id_snoc_ne.
    rewrite localize_id. congruence.
  - apply createTypesAccess_localizedTypes.
  - rewrite !createTypesAccess_unfold. simpl.
    rewrite build_childrenById_snoc. unfold children_of at 1.
    by rewrite push_child_same.
Qed.

Lemma addType_then_getType_witness :
  getType (addType (createTypesAccess [plain 1 0; plain 2 1])
             (SchemaType.mk 9 (Some 1) None None None None None) "en") 2
  = getType (createTypesAccess [plain 1 0; plain 2 1]) 2.
Proof.
  apply (proj1 (proj2 (addType_then_getType [plain 1 0; plain 2 1]
           (SchemaType.mk 9 (Some 1) None None None None None) "en"))).
  simpl. lia.
Defined.

(** ** Menu entries *)

Lemma string_app_nonempty (s t : string) :
  s ≠ EmptyString -> (s ++ t)%string ≠ EmptyString.
Proof. by destruct s. Qed.

Lemma string_prefix_app (s t : string) : String.prefix s (s ++ t) = true.
Proof.
  induction s as [|c s IH]; simpl; [by destruct t|].
  destruct (ascii_dec c c); [done|congruence].
Qed.

Lemma string_prefix_refl (s : string) : String.prefix s s = true.
Proof.
  induction s as [|c s IH]; simpl; [done|].
  destruct (ascii_dec c c); [done|congruence].
Qed.

Lemma is_empty_false s : is_empty s = false <-> s ≠ EmptyString.
Proof. destruct s; simpl; split; congruence. Qed.

(** X7. The label of a menu entry is never the empty string, not even for
    a record without any name; when the record has a scientific name the
    label begins with it; the other fields of the entry are the record's
    own. *)
Theorem menu_label_never_empty t :
  TypeSelectMenuEntry.label (toMenuEntry t) ≠ EmptyString
  ∧ (LocalizedType.scientificName t ≠ EmptyString ->
     String.prefix (LocalizedType.scientificName t)
       (TypeSelectMenuEntry.label (toMenuEntry t)) = true)
  ∧ (LocalizedType.scientificName t = EmptyString ->
     TypeSelectMenuEntry.label (toMenuEntry t)
     = (dquote ++ LocalizedType.commonName t ++ dquote)%string)
  ∧ TypeSelectMenuEntry.value (toMenuEntry t) = LocalizedType.id t.
Proof.
  destruct t as [i p sci com rank u]. unfold toMenuEntry. simpl.
  destruct sci as [|c sci]; simpl.
  - split; [done|]. split; [done|]. done.
  - split; [by destruct com|]. split; [|done]. intros _.
    destruct com as [|c' com]; simpl.
    + destruct (ascii_dec c c); [|congruence]. apply string_prefix_refl.
    + destruct (ascii_dec c c); [|congruence]. apply string_prefix_app.
Qed.

Lemma menu_label_never_empty_witness :
  String.prefix "Malus"
    (TypeSelectMenuEntry.label
       (toMenuEntry (LocalizedType.mk 3 0 "Malus" "Apple" 5 ∅))) = true.
Proof.
  apply (proj1 (proj2 (menu_label_never_empty
                         (LocalizedType.mk 3 0 "Malus" "Apple" 5 ∅)))).
  simpl. congruence.
Defined.

(** X8. [asMenuEntries] has one entry for each record, in record order,
    whose value is the record's id; and on an instance built by the index
    builder, [getMenuEntry] of an id that some record has returns one of
    these entries, with that id as its value. *)
Theorem menu_entries_follow_records l :
  map TypeSelectMenuEntry.value (asMenuEntries (createTypesAccess l))
  = map LocalizedType.id l
  ∧ length (asMenuEntries (createTypesAccess l)) = length l
  ∧ (forall k, k ∈ map LocalizedType.id l ->
       exists e, getMenuEntry (createTypesAccess l) k = Some e
         ∧ e ∈ asMenuEntries (createTypesAccess l)
         ∧ TypeSelectMenuEntry.value e = k).
Proof.
  unfold asMenuEntries. rewrite createTypesAccess_localizedTypes.
  split; [by rewrite map_map|]. split; [apply length_map|].
  intros k Hk.
  assert (exists r, getType (createTypesAccess l) k = Some r) as [r Hr].
  { rewrite getType_createTypesAccess. unfold build_idIndex.
    destruct (forEach_id_step_is_Some l 0 ∅ k Hk) as [i Hi]. rewrite Hi.
    apply forEach_id_step_Some in Hi as [[Hi _]|(r & _ & Hr & _)].
    - by rewrite lookup_empty in Hi.
    - rewrite Nat.sub_0_r in Hr. eauto. }
  pose proof Hr as Hr'. rewrite getType_last_with_id in Hr'.
  apply last_with_id_Some in Hr' as [Hin Hid].
  exists (toMenuEntry r). unfold getMenuEntry. unfold getType in Hr. rewrite Hr.
  split; [done|]. split; [|done].
  rewrite list_elem_of_In. apply in_map. by apply list_elem_of_In.
Qed.

Lemma menu_entries_follow_records_witness :
  exists e, getMenuEntry (createTypesAccess [plain 1 0; plain 2 1]) 2 = Some e
    ∧ e ∈ asMenuEntries (createTypesAccess [plain 1 0; plain 2 1])
    ∧ TypeSelectMenuEntry.value e = 2.
Proof.
  apply (proj2 (proj2 (menu_entries_follow_records [plain 1 0; plain 2 1]))).
  simpl. right. left.
Defined.

(** ** The localizer *)



(** ** Counts carried over by a filter *)

Lemma forEach_counts_lookup (counts : IdDict (option Z)) l i (c0 : IdDict (option Z)) k :
  forEach (fun c (type : LocalizedType) (_ : nat) =>
             <[LocalizedType.id type := dict_get counts (LocalizedType.id type)]> c)
    l i c0 !! k
  = if decide (k ∈ map LocalizedType.id l) then Some (dict_get counts k) else c0 !! k.
Proof.
  revert i c0. induction l as [|x l IH]; intros i c0; cbn [forEach map].
  - destruct (decide (k ∈ [])) as [H|_]; [by apply elem_of_nil in H|done].
  - rewrite IH. destruct (decide (k ∈ map LocalizedType.id l)) as [Hin|Hnot].
    + destruct (decide (k ∈ LocalizedType.id x :: map LocalizedType.id l)) as [_|H];
        [done|]. exfalso. apply H. by right.
    + destruct (decide (k ∈ LocalizedType.id x :: map LocalizedType.id l)) as [H|H].
      * apply elem_of_cons in H as [->|H]; [|done]. by rewrite lookup_insert_eq.
      * apply not_elem_of_cons in H as [Hne _]. by rewrite lookup_insert_ne.
Qed.

(** X10. [TypesFrequency.filter] returns an instance over the filtered
    TypesAccess that carries the raw count of every id of a kept record
    and forgets every other raw count: for an id that is not the id of a
    kept record, such as a removed record or a parent id without a record,
    [getCount] is 0 afterwards. *)
Theorem frequency_filter_carries_kept_counts f p fuel :
  (size (hierarchy_ids
           (build_childrenById
              (List.filter p (TypesAccess.localizedTypes (TypesFrequency.base f)))))
   < fuel)%nat ->
  exists f', TypesFrequency_filter fuel f p = Some f'
    ∧ TypesFrequency.base f' = TypesAccess_filter (TypesFrequency.base f) p
    ∧ (forall k,
         k ∈ map LocalizedType.id
               (List.filter p (TypesAccess.localizedTypes (TypesFrequency.base f))) ->
         getCount f' k = getCount f k)
    ∧ (forall k,
         k ∉ map LocalizedType.id
               (List.filter p (TypesAccess.localizedTypes (TypesFrequency.base f))) ->
         getCount f' k = 0).
Proof.
  intros Hfuel. rewrite TypesFrequency_filter_unfold. cbv zeta.
  set (kept := List.filter p _) in *.
  match goal with |- context [new_TypesFrequency fuel kept ?i ?c ?n] =>
    destruct (new_TypesFrequency_returns fuel kept i c n Hfuel) as [f' Hf'] end.
  exists f'. split; [done|].
  destruct (new_TypesFrequency_Some _ _ _ _ _ _ Hf') as (Hbase & Hcounts & _).
  split.
  { rewrite Hbase, TypesAccess_filter_unfold, createTypesAccess_unfold. done. }
  split; intros k Hk; unfold getCount at 1; rewrite Hcounts; unfold dict_get at 1;
    rewrite forEach_counts_lookup.
  - by rewrite decide_True.
  - rewrite decide_False by done. by rewrite lookup_empty.
Qed.

Lemma frequency_filter_carries_kept_counts_witness :
  exists f f',
    createTypesFrequency 4 chain chain_counts = Some f
    ∧ TypesFrequency_filter 5 f (fun r => negb (LocalizedType.id r =? 2)) = Some f'
    ∧ getCount f' 3 = getCount f 3
    ∧ getCount f' 2 = 0.
Proof.
  destruct (createTypesFrequency 4 chain chain_counts) as [f|] eqn:Hf;
    [|by vm_compute in Hf].
  vm_compute in Hf. injection Hf as <-.
  match goal with |- context [Some ?f = _] =>
    destruct (frequency_filter_carries_kept_counts f
                (fun r => negb (LocalizedType.id r =? 2)) 5)
      as (f' & Hf' & _ & Hkept & Hgone); [|exists f, f'] end.
  - vm_compute. lia.
  - split; [reflexivity|]. split; [exact Hf'|]. split.
    + apply Hkept. simpl. right. left.
    + apply Hgone. simpl. rewrite !not_elem_of_cons.
      repeat split; try lia. apply not_elem_of_nil.
Defined.

(** ** The factory *)

Lemma filter_Permutation {A} (p : A -> bool) l l' :
  Permutation l l' -> Permutation (List.filter p l) (List.filter p l').
Proof.
  induction 1 as [|x l l' _ IH|x y l|l l' l'' _ IH1 _ IH2]; simpl.
  - done.
  - destruct (p x); [by constructor|done].
  - destruct (p x), (p y); try done. apply perm_swap.
  - by etrans.
Qed.

Lemma elem_of_ids_with_parent r l :
  r ∈ l -> LocalizedType.id r ∈ ids_with_parent (LocalizedType.parentId r) l.
Proof.
  intros Hr. unfold ids_with_parent. rewrite list_elem_of_In.
  apply in_map, filter_In. split; [by apply list_elem_of_In|]. apply Z.eqb_refl.
Qed.

Lemma existsb_pending_true types t :
  t ∈ types -> SchemaType.pending t = Some true ->
  existsb (fun t => truthy_pending (SchemaType.pending t)) types = true.
Proof.
  intros Ht Hp. apply existsb_exists. exists t.
  split; [by apply list_elem_of_In|]. by rewrite Hp.
Qed.

(** X11. In the TypesAccess that [typesAccessInLanguage] returns there is
    one record for each input record, and one more when some input is
    pending; [getType] finds a record for the id of every input record;
    every pending input record is listed among the children of the
    Pending Review id, and that id among the children of the root 0; and
    when no input record has the id -1 itself, [getType] of -1 is the
    Pending Review record exactly when some input is pending. *)
Theorem factory_indexes_inputs_and_pending types language :
  length (TypesAccess.localizedTypes (typesAccessInLanguage types language))
  = (length types
     + if existsb (fun t => truthy_pending (SchemaType.pending t)) types
       then 1 else 0)%nat
  ∧ (forall t, t ∈ types ->
       exists r, getType (typesAccessInLanguage types language) (SchemaType.id t) = Some r
         ∧ LocalizedType.id r = SchemaType.id t)
  ∧ (forall t, t ∈ types -> SchemaType.pending t = Some true ->
       SchemaType.id t
       ∈ children_of (TypesAccess.childrenById (typesAccessInLanguage types language))
           PENDING_ID
       ∧ PENDING_ID
         ∈ children_of (TypesAccess.childrenById (typesAccessInLanguage types language)) 0)
  ∧ ((forall t, t ∈ types -> SchemaType.id t ≠ PENDING_ID) ->
     getType (typesAccessInLanguage types language) PENDING_ID
     = if existsb (fun t => truthy_pending (SchemaType.pending t)) types
       then Some pendingReview else None).
Proof.
  set (any := existsb (fun t => truthy_pending (SchemaType.pending t)) types).
  set (input := map (fun t => localize t language) types
                  ++ (if any then [pendingReview] else [])).
  assert (typesAccessInLanguage types language = createTypesAccess (toDisplayOrder input))
    as Hfactory.
  { unfold typesAccessInLanguage, input, any.
    destruct (existsb _ types); [done|]. by rewrite app_nil_r. }
  assert (Permutation (toDisplayOrder input) input) as Hperm
    by apply sortBy_Permutation.
  rewrite Hfactory, createTypesAccess_localizedTypes.
  split; [|split; [|split]].
  - rewrite Hperm. unfold input. rewrite length_app, length_map.
    by destruct any.
  - intros t Ht.
    assert (SchemaType.id t ∈ map LocalizedType.id (toDisplayOrder input)) as Hin.
    { rewrite Hperm. unfold input. rewrite map_app, elem_of_app. left.
      rewrite map_map. rewrite list_elem_of_In. apply in_map_iff.
      exists t. split; [done|]. by apply list_elem_of_In. }
    rewrite getType_createTypesAccess. unfold build_idIndex.
    destruct (forEach_id_step_is_Some _ 0 ∅ _ Hin) as [i Hi]. rewrite Hi.
    apply forEach_id_step_Some in Hi as [[Hi _]|(r & _ & Hr & Hid)].
    + by rewrite lookup_empty in Hi.
    + rewrite Nat.sub_0_r in Hr. eauto.
  - intros t Ht Hp. rewrite createTypesAccess_unfold. simpl.
    rewrite !build_childrenById_children.
    assert (any = true) as Hany by by eapply existsb_pending_true.
    split.
    + assert (localize t language ∈ toDisplayOrder input) as Hin.
      { rewrite Hperm. unfold input. apply elem_of_app. left.
        rewrite list_elem_of_In. apply (in_map (fun t => localize t language)).
        by apply list_elem_of_In. }
      apply elem_of_ids_with_parent in Hin.
      unfold localize in Hin at 1 2. simpl in Hin. by rewrite Hp in Hin.
    + assert (pendingReview ∈ toDisplayOrder input) as Hin.
      { rewrite Hperm. unfold input. rewrite Hany. apply elem_of_app. right. left. }
      by apply elem_of_ids_with_parent in Hin.
  - intros Hids. rewrite getType_last_with_id. unfold last_with_id.
    pose proof (filter_Permutation (fun r => LocalizedType.id r =? PENDING_ID) _ _ Hperm)
      as Hf.
    unfold input in Hf. rewrite List.filter_app in Hf.
    rewrite filter_pending_id_localize in Hf by done. simpl in Hf.
    unfold input. destruct any; simpl in Hf.
    + apply Permutation_singleton_r in Hf. by rewrite Hf.
    + apply Permutation_nil_r in Hf. by rewrite Hf.
Qed.

Lemma factory_indexes_inputs_and_pending_witness :
  5 ∈ children_of
        (TypesAccess.childrenById
           (typesAccessInLanguage
              [SchemaType.mk 5 (Some 2) (Some true) None None None None;
               SchemaType.mk 2 None None None None None None]
              "en"))
        PENDING_ID.
Proof.
  apply (proj1 (proj2 (proj2 (factory_indexes_inputs_and_pending
           [SchemaType.mk 5 (Some 2) (Some true) None None None None;
            SchemaType.mk 2 None None None None None None] "en")))
           (SchemaType.mk 5 (Some 2) (Some true) None None None None)).
  - left.
  - reflexivity.
Defined.

(** ** Aggregated counts along the hierarchy *)

Lemma edge_key ch p c : edge ch p c -> p ∈ hierarchy_ids ch.
Proof.
  unfold edge, children_of. intros H. apply hierarchy_ids_key.
  destruct (oget ch p) as [cs|] eqn:E; [|by apply elem_of_nil in H].
  by eapply oget_Some_key.
Qed.

(** An index without a cycle has no infinite descent: the set of ids that
    are not yet ancestors shrinks at each step down. *)
Lemma acyclic_Acc_aux ch n :
  Acyclic ch ->
  forall (S : gset Id) x,
    (size (hierarchy_ids ch ∖ S) <= n)%nat ->
    (forall s, s ∈ S -> tc (edge ch) s x) ->
    Acc (fun c p => edge ch p c) x.
Proof.
  intros Hacyc. induction n as [|n IH]; intros S x Hsize HS; constructor; intros y Hy.
  all: assert (x ∈ hierarchy_ids ch ∖ S) as Hx by
    (apply elem_of_difference; split; [by eapply edge_key|];
     intros Hin; by apply (Hacyc x), HS).
  all: assert (hierarchy_ids ch ∖ (S ∪ {[x]}) ⊂ hierarchy_ids ch ∖ S) as Hsub
    by (split; [set_solver|]; intros H; specialize (H x Hx); set_solver).
  all: pose proof (subset_size _ _ Hsub) as Hlt.
  - lia.
  - apply (IH (S ∪ {[x]})); [lia|].
    intros s [Hs| ->%elem_of_singleton]%elem_of_union.
    + eapply tc_r; [by apply HS|done].
    + by apply tc_once.
Qed.

Lemma acyclic_Acc ch x : Acyclic ch -> Acc (fun c p => edge ch p c) x.
Proof.
  intros Hacyc. apply (acyclic_Acc_aux ch (size (hierarchy_ids ch)) Hacyc ∅).
  - apply subseteq_size. set_solver.
  - set_solver.
Qed.

Lemma tc_edge_mono ch ch' x y :
  (forall p c, edge ch' p c -> edge ch p c) -> tc (edge ch') x y -> tc (edge ch) x y.
Proof.
  intros Hsub. induction 1 as [a b Hab|a b c Hab Hbc IH].
  - apply tc_once. by apply Hsub.
  - eapply tc_l; [by apply Hsub|done].
Qed.

Lemma Zsum_ge_elem l x :
  Forall (fun y => 0 <= y) l -> x ∈ l -> x <= Zsum l.
Proof.
  unfold Zsum. induction 1 as [|y l Hy Hl IH]; simpl.
  - intros H. by apply elem_of_nil in H.
  - pose proof (Zsum_nonneg l Hl) as Hs. unfold Zsum in Hs.
    rewrite elem_of_cons. intros [->|Hin]; [lia|]. specialize (IH Hin). lia.
Qed.

Lemma Zsum_map_filter {A} (g : A -> Z) (q : A -> bool) l :
  (forall c, c ∈ l -> q c = false -> g c = 0) ->
  Zsum (map g (List.filter q l)) = Zsum (map g l).
Proof.
  unfold Zsum. induction l as [|x l IH]; intros H; simpl; [done|].
  assert (foldr Z.add 0 (map g (List.filter q l)) = foldr Z.add 0 (map g l)) as IH'.
  { apply IH. intros c Hc. apply H. by right. }
  destruct (q x) eqn:E; simpl; [lia|].
  rewrite IH', (H x); [lia|left|done].
Qed.

Lemma elem_of_hierarchy_ids_build l x :
  x ∈ hierarchy_ids (build_childrenById l)
  <-> x ∈ map LocalizedType.parentId l ∨ x ∈ map LocalizedType.id l.
Proof.
  unfold hierarchy_ids. rewrite elem_of_list_to_set, elem_of_app.
  rewrite build_childrenById_concat.
  assert (x ∈ map fst (build_childrenById l) <-> x ∈ map LocalizedType.parentId l) as ->.
  { rewrite <- build_childrenById_key. split.
    - apply oget_key_Some.
    - intros [cs H]. by eapply oget_Some_key. }
  done.
Qed.

Lemma hierarchy_ids_build_filter p l :
  hierarchy_ids (build_childrenById (List.filter p l))
  ⊆ hierarchy_ids (build_childrenById l).
Proof.
  intros x. rewrite !elem_of_hierarchy_ids_build.
  rewrite !list_elem_of_In, !in_map_iff.
  intros [(r & Hr & Hin)|(r & Hr & Hin)]; [left|right]; exists r;
    apply filter_In in Hin; tauto.
Qed.

Lemma ids_with_parent_filter (q : Id -> bool) p l :
  ids_with_parent p (List.filter (fun r => q (LocalizedType.id r)) l)
  = List.filter q (ids_with_parent p l).
Proof.
  unfold ids_with_parent. induction l as [|x l IH]; simpl; [done|].
  destruct (q (LocalizedType.id x)) eqn:Hq; simpl;
    destruct (LocalizedType.parentId x =? p); simpl; rewrite ?Hq, IH; done.
Qed.

Lemma elem_of_ids_with_parent_inv c p l :
  c ∈ ids_with_parent p l ->
  exists r, r ∈ l ∧ LocalizedType.id r = c ∧ LocalizedType.parentId r = p.
Proof.
  unfold ids_with_parent. rewrite list_elem_of_In, in_map_iff.
  intros (r & Hid & Hin). apply filter_In in Hin as [Hin Hp].
  exists r. split; [by apply list_elem_of_In|]. split; [done|]. by apply Z.eqb_eq.
Qed.

Lemma elem_of_map_id_in_hierarchy l x :
  x ∈ map LocalizedType.id l -> in_hierarchy (build_childrenById l) x.
Proof. intros H. apply in_hierarchy_build. by right. Qed.

(** Two settled tables agree on the kept ids when the second index is the
    first one restricted to the ids that satisfy [q], the raw counts of
    kept ids are the same, and the ids that do not satisfy [q] count for
    nothing in the first table. *)
Lemma kept_aggregates_agree l (q : Id -> bool) counts counts' agg agg' :
  Acyclic (build_childrenById l) ->
  settled (build_childrenById l) counts ∅ agg ->
  settled (build_childrenById (List.filter (fun r => q (LocalizedType.id r)) l))
    counts' ∅ agg' ->
  (forall x, in_hierarchy (build_childrenById l) x -> is_Some (agg !! x)) ->
  (forall x,
      in_hierarchy (build_childrenById (List.filter (fun r => q (LocalizedType.id r)) l)) x ->
      is_Some (agg' !! x)) ->
  (forall x, x ∈ map LocalizedType.id (List.filter (fun r => q (LocalizedType.id r)) l) ->
     own_count counts' x = own_count counts x) ->
  (forall c, in_hierarchy (build_childrenById l) c -> q c = false -> result_read agg c = 0) ->
  forall x, x ∈ map LocalizedType.id (List.filter (fun r => q (LocalizedType.id r)) l) ->
    result_read agg' x = result_read agg x.
Proof.
  intros Hacyc Hs Hs' Hcov Hcov' Hown Hzero x.
  induction (acyclic_Acc (build_childrenById l) x Hacyc) as [x _ IH]. intros Hx.
  assert (x ∈ map LocalizedType.id l) as Hxl.
  { rewrite list_elem_of_In, in_map_iff in Hx. destruct Hx as (r & <- & Hr).
    apply filter_In in Hr as [Hr _]. rewrite list_elem_of_In. by apply in_map. }
  destruct (Hcov' x (elem_of_map_id_in_hierarchy _ _ Hx)) as [v' Hv'].
  destruct (Hcov x (elem_of_map_id_in_hierarchy _ _ Hxl)) as [v Hv].
  rewrite (result_read_Some _ _ _ Hv'), (result_read_Some _ _ _ Hv).
  destruct (Hs' x v' Hv') as [_ ->]; [set_solver|].
  destruct (Hs x v Hv) as [_ ->]; [set_solver|].
  rewrite (Hown x Hx). f_equal.
  rewrite !build_childrenById_children, ids_with_parent_filter.
  rewrite <- (Zsum_map_filter (result_read agg) q (ids_with_parent x l)).
  - f_equal. apply map_ext_in. intros c Hc.
    apply filter_In in Hc as [Hc Hq]. apply list_elem_of_In in Hc.
    apply IH.
    + unfold edge. by rewrite build_childrenById_children.
    + apply elem_of_ids_with_parent_inv in Hc as (r & Hr & <- & _).
      rewrite list_elem_of_In. apply in_map, filter_In.
      split; [by apply list_elem_of_In|done].
  - intros c Hc. apply Hzero. right. exists x.
    by rewrite build_childrenById_children.
Qed.

Lemma createTypesFrequency_Some fuel l counts f :
  createTypesFrequency fuel (createTypesAccess l) counts = Some f ->
  TypesFrequency.base f = createTypesAccess l
  ∧ TypesFrequency.countsById f = counts
  ∧ calculateAggregatedCounts fuel (build_childrenById l) counts
    = Some (TypesFrequency.aggregatedCountsById f).
Proof.
  intros H. unfold createTypesFrequency in H.
  rewrite createTypesAccess_unfold in H. simpl in H.
  apply new_TypesFrequency_Some in H as (Hb & Hc & Ha).
  by rewrite createTypesAccess_unfold.
Qed.

Lemma nonneg_read_zero counts agg c :
  counts_nonneg counts -> above_own counts agg ->
  (0 <? or_zero (agg !! c)) = false -> result_read agg c = 0.
Proof.
  intros Hnn Habove Hq. apply Z.ltb_ge in Hq. unfold result_read.
  destruct (agg !! c) as [v|] eqn:E; [|done].
  rewrite or_zero_Z in Hq.
  pose proof (Habove _ _ E). pose proof (own_count_nonneg counts Hnn c). lia.
Qed.

(** What [dropZeroCounts] does to an instance made from records, counts
    that are not negative and a hierarchy without a cycle. *)
Lemma dropZeroCounts_on_built l counts fuel :
  Acyclic (build_childrenById l) ->
  counts_nonneg counts ->
  (size (hierarchy_ids (build_childrenById l)) < fuel)%nat ->
  exists f f',
    createTypesFrequency fuel (createTypesAccess l) counts = Some f
    ∧ dropZeroCounts fuel f = Some f'
    ∧ TypesFrequency.base f = createTypesAccess l
    ∧ TypesFrequency.base f'
      = createTypesAccess
          (List.filter (fun r => 0 <? getAggregatedCount f (LocalizedType.id r)) l)
    ∧ (forall x, 0 <= getAggregatedCount f x)
    ∧ (forall p c, c ∈ children_of (build_childrenById l) p ->
         getAggregatedCount f c <= getAggregatedCount f p)
    ∧ (forall x,
         x ∈ map LocalizedType.id
               (List.filter (fun r => 0 <? getAggregatedCount f (LocalizedType.id r)) l) ->
         getAggregatedCount f' x = getAggregatedCount f x
         ∧ getCount f' x = getCount f x)
    ∧ new_TypesFrequency fuel
        (List.filter (fun r => 0 <? getAggregatedCount f (LocalizedType.id r)) l)
        (build_idIndex
           (List.filter (fun r => 0 <? getAggregatedCount f (LocalizedType.id r)) l))
        (build_childrenById
           (List.filter (fun r => 0 <? getAggregatedCount f (LocalizedType.id r)) l))
        (TypesFrequency.countsById f') = Some f'
    ∧ (forall k,
         TypesFrequency.countsById f' !! k
         = if decide (k ∈ map LocalizedType.id
                       (List.filter
                          (fun r => 0 <? getAggregatedCount f (LocalizedType.id r)) l))
           then Some (dict_get counts k) else None).
Proof.
  intros Hacyc Hnn Hfuel.
  destruct (new_TypesFrequency_returns fuel l (build_idIndex l) (build_childrenById l)
              counts Hfuel) as [f Hf].
  assert (createTypesFrequency fuel (createTypesAccess l) counts = Some f) as Hf'.
  { unfold createTypesFrequency. by rewrite createTypesAccess_unfold. }
  destruct (createTypesFrequency_Some _ _ _ _ Hf') as (Hbase & Hcounts & Hagg).
  set (agg := TypesFrequency.aggregatedCountsById f) in *.
  pose proof (calculateAggregatedCounts_settled _ _ _ _ Hacyc Hagg) as Hs.
  pose proof (calculateAggregatedCounts_covers _ _ _ _ Hagg) as Hcov.
  pose proof (calculateAggregatedCounts_above_own _ _ _ _ Hnn Hagg) as Habove.
  assert (forall x, 0 <= result_read agg x) as Hpos.
  { intros x. unfold result_read. destruct (agg !! x) as [v|] eqn:E; [|lia].
    pose proof (Habove _ _ E). pose proof (own_count_nonneg counts Hnn x). lia. }
  set (q := fun c : Id => 0 <? getAggregatedCount f c).
  set (kept := List.filter (fun r => q (LocalizedType.id r)) l).
  assert (size (hierarchy_ids (build_childrenById kept)) < fuel)%nat as Hfuel'.
  { eapply Nat.le_lt_trans; [|exact Hfuel].
    apply subseteq_size, hierarchy_ids_build_filter. }
  assert (dropZeroCounts fuel f
          = new_TypesFrequency fuel kept (build_idIndex kept) (build_childrenById kept)
              (forEach (fun c (type : LocalizedType) (_ : nat) =>
                          <[LocalizedType.id type :=
                              dict_get counts (LocalizedType.id type)]> c)
                 kept 0%nat ∅)) as Hdrop.
  { unfold dropZeroCounts. rewrite TypesFrequency_filter_unfold. cbv zeta.
    rewrite Hbase, createTypesAccess_localizedTypes, Hcounts. done. }
  match type of Hdrop with _ = new_TypesFrequency _ _ ?i ?c ?n =>
    destruct (new_TypesFrequency_returns fuel kept i c n Hfuel') as [f' Hf2] end.
  destruct (new_TypesFrequency_Some _ _ _ _ _ _ Hf2) as (Hbase' & Hcounts' & Hagg').
  exists f, f'. split; [done|]. split; [by rewrite Hdrop|]. split; [done|].
  split; [by rewrite Hbase', createTypesAccess_unfold|].
  split; [intros x; rewrite getAggregatedCount_read; apply Hpos|].
  split.
  { intros p c Hc. rewrite !getAggregatedCount_read. fold agg.
    assert (in_hierarchy (build_childrenById l) p) as Hp.
    { left. unfold children_of in Hc.
      destruct (oget (build_childrenById l) p); [eauto|by apply elem_of_nil in Hc]. }
    destruct (Hcov p Hp) as [v Hv]. rewrite (result_read_Some _ _ _ Hv).
    destruct (Hs p v Hv) as [_ ->]; [set_solver|].
    pose proof (own_count_nonneg counts Hnn p).
    assert (result_read agg c
            <= Zsum (map (result_read agg) (children_of (build_childrenById l) p))).
    { apply Zsum_ge_elem.
      - apply Forall_forall. intros y Hy.
        rewrite list_elem_of_In, in_map_iff in Hy. destruct Hy as (c' & <- & _). apply Hpos.
      - rewrite list_elem_of_In. apply in_map. by apply list_elem_of_In. }
    lia. }
  split; [|split; [by rewrite Hcounts'|]].
  2:{ intros k. rewrite Hcounts', forEach_counts_lookup.
      destruct (decide _); [done|apply lookup_empty]. }
  intros x Hx.
  assert (own_count
            (forEach (fun c (type : LocalizedType) (_ : nat) =>
                        <[LocalizedType.id type :=
                            dict_get counts (LocalizedType.id type)]> c)
               kept 0%nat ∅) x
          = own_count counts x) as Hown.
  { unfold own_count. f_equal. unfold dict_get at 1.
    rewrite forEach_counts_lookup. by rewrite decide_True. }
  split.
  - rewrite !getAggregatedCount_read. fold agg.
    eapply (kept_aggregates_agree l q counts); [exact Hacyc|exact Hs|..].
    + eapply calculateAggregatedCounts_settled; [|exact Hagg'].
      intros y Hy. apply (Hacyc y). eapply tc_edge_mono; [|exact Hy].
      intros p c. unfold edge. rewrite !build_childrenById_children.
      unfold kept. rewrite ids_with_parent_filter.
      rewrite !list_elem_of_In. intros Hin. by apply filter_In in Hin as [? _].
    + exact Hcov.
    + by eapply calculateAggregatedCounts_covers.
    + intros y Hy. unfold own_count. f_equal. unfold dict_get at 1.
      rewrite forEach_counts_lookup. by rewrite decide_True.
    + intros c _ Hq. unfold q, getAggregatedCount in Hq.
      by eapply nonneg_read_zero.
    + exact Hx.
  - rewrite !getCount_own, Hcounts', Hcounts. exact Hown.
Qed.

(** X12. With raw counts that are not negative and a hierarchy without a
    cycle, the aggregated count of a parent is at least that of each of
    its children; so a record with a positive aggregated count has a
    parent with a positive aggregated count. *)
Theorem parent_aggregate_at_least_child l counts fuel :
  Acyclic (TypesAccess.childrenById (createTypesAccess l)) ->
  counts_nonneg counts ->
  (size (hierarchy_ids (TypesAccess.childrenById (createTypesAccess l))) < fuel)%nat ->
  exists f, createTypesFrequency fuel (createTypesAccess l) counts = Some f
    ∧ (forall p c,
         c ∈ children_of (TypesAccess.childrenById (createTypesAccess l)) p ->
         getAggregatedCount f c <= getAggregatedCount f p)
    ∧ (forall r, r ∈ l ->
         getAggregatedCount f (LocalizedType.id r)
         <= getAggregatedCount f (LocalizedType.parentId r)).
Proof.
  rewrite createTypesAccess_unfold. simpl. intros Hacyc Hnn Hfuel.
  destruct (dropZeroCounts_on_built l counts fuel Hacyc Hnn Hfuel)
    as (f & _ & Hf & _ & _ & _ & _ & Hle & _).
  rewrite createTypesAccess_unfold in Hf.
  exists f. split; [done|]. split; [exact Hle|].
  intros r Hr. apply Hle. rewrite build_childrenById_children.
  by apply elem_of_ids_with_parent.
Qed.

Lemma parent_aggregate_at_least_child_witness :
  exists f, createTypesFrequency 5 (createTypesAccess [plain 1 0; plain 2 1; plain 3 2])
              chain_counts = Some f
    ∧ getAggregatedCount f 3 <= getAggregatedCount f 2.
Proof.
  destruct (parent_aggregate_at_least_child [plain 1 0; plain 2 1; plain 3 2]
              chain_counts 5) as (f & Hf & _ & Hle).
  - apply (ranked_by_Acyclic (fun x => - x)). reflexivity.
  - repeat apply counts_nonneg_insert; try lia. apply counts_nonneg_empty.
  - vm_compute. lia.
  - exists f. split; [exact Hf|]. apply (Hle (plain 3 2)).
    simpl. right. right. left.
Defined.

(** X13. With raw counts that are not negative and a hierarchy without a
    cycle, [dropZeroCounts] changes neither the aggregated count, which
    is above 0, nor the raw count, which may be 0, of any record it keeps,
    and it keeps, with a record, every record that the record names as its
    parent: what it removes are whole subtrees that count for nothing. *)
Theorem dropZeroCounts_preserves_kept_counts l counts fuel :
  Acyclic (TypesAccess.childrenById (createTypesAccess l)) ->
  counts_nonneg counts ->
  (size (hierarchy_ids (TypesAccess.childrenById (createTypesAccess l))) < fuel)%nat ->
  exists f f',
    createTypesFrequency fuel (createTypesAccess l) counts = Some f
    ∧ dropZeroCounts fuel f = Some f'
    ∧ (forall r, r ∈ TypesAccess.localizedTypes (TypesFrequency.base f') ->
         getAggregatedCount f' (LocalizedType.id r)
         = getAggregatedCount f (LocalizedType.id r)
         ∧ getCount f' (LocalizedType.id r) = getCount f (LocalizedType.id r)
         ∧ 0 < getAggregatedCount f' (LocalizedType.id r))
    ∧ (forall r q,
         r ∈ TypesAccess.localizedTypes (TypesFrequency.base f') ->
         q ∈ l -> LocalizedType.id q = LocalizedType.parentId r ->
         q ∈ TypesAccess.localizedTypes (TypesFrequency.base f')).
Proof.
  rewrite createTypesAccess_unfold. simpl. intros Hacyc Hnn Hfuel.
  destruct (dropZeroCounts_on_built l counts fuel Hacyc Hnn Hfuel)
    as (f & f' & Hf & Hf' & _ & Hbase' & _ & Hle & Hkeep & _).
  rewrite createTypesAccess_unfold in Hf.
  exists f, f'. split; [done|]. split; [done|].
  rewrite Hbase', createTypesAccess_localizedTypes. split.
  - intros r Hr.
    assert (LocalizedType.id r
            ∈ map LocalizedType.id
                (List.filter (fun r => 0 <? getAggregatedCount f (LocalizedType.id r)) l))
      as Hid.
    { rewrite list_elem_of_In. apply in_map. by apply list_elem_of_In. }
    destruct (Hkeep _ Hid) as [Hagg Hcount]. split; [done|]. split; [done|].
    rewrite Hagg. apply elem_of_filter_bool in Hr as [_ Hr]. by apply Z.ltb_lt.
  - intros r q Hr Hq Hparent.
    apply elem_of_filter_bool in Hr as [Hr Hpos]. apply Z.ltb_lt in Hpos.
    apply elem_of_filter_bool. split; [done|]. apply Z.ltb_lt.
    assert (getAggregatedCount f (LocalizedType.id r)
            <= getAggregatedCount f (LocalizedType.id q)) as H.
    { apply Hle. rewrite Hparent, build_childrenById_children.
      by apply elem_of_ids_with_parent. }
    lia.
Qed.

Lemma dropZeroCounts_preserves_kept_counts_witness :
  exists f f',
    createTypesFrequency 5 (createTypesAccess [plain 1 0; plain 2 1; plain 3 0])
      forked_counts = Some f
    ∧ dropZeroCounts 5 f = Some f'
    ∧ getAggregatedCount f' 1 = getAggregatedCount f 1.
Proof.
  destruct (dropZeroCounts_preserves_kept_counts [plain 1 0; plain 2 1; plain 3 0]
              forked_counts 5) as (f & f' & Hf & Hf' & Hkeep & _).
  - apply (ranked_by_Acyclic (fun x => - x)). reflexivity.
  - repeat apply counts_nonneg_insert; try lia. apply counts_nonneg_empty.
  - vm_compute. lia.
  - exists f, f'. split; [exact Hf|]. split; [exact Hf'|].
    apply (Hkeep (plain 1 0)).
    pose proof Hf as Hf0. vm_compute in Hf0. injection Hf0 as <-.
    pose proof Hf' as Hf1. vm_compute in Hf1. injection Hf1 as <-.
    simpl. left.
Defined.

Lemma filter_all_true {A} (p : A -> bool) l :
  (forall x, x ∈ l -> p x = true) -> List.filter p l = l.
Proof.
  induction l as [|x l IH]; intros H; simpl; [done|].
  rewrite (H x) by left. f_equal. apply IH. intros y Hy. apply H. by right.
Qed.

(** X14. With raw counts that are not negative and a hierarchy without a
    cycle, [dropZeroCounts] applied to its own result returns that result
    again. *)
Theorem dropZeroCounts_twice l counts fuel :
  Acyclic (TypesAccess.childrenById (createTypesAccess l)) ->
  counts_nonneg counts ->
  (size (hierarchy_ids (TypesAccess.childrenById (createTypesAccess l))) < fuel)%nat ->
  exists f f',
    createTypesFrequency fuel (createTypesAccess l) counts = Some f
    ∧ dropZeroCounts fuel f = Some f'
    ∧ dropZeroCounts fuel f' = Some f'.
Proof.
  rewrite createTypesAccess_unfold. simpl. intros Hacyc Hnn Hfuel.
  destruct (dropZeroCounts_on_built l counts fuel Hacyc Hnn Hfuel)
    as (f & f' & Hf & Hf' & _ & Hbase' & _ & _ & Hkeep & Hnew & Hlookup).
  rewrite createTypesAccess_unfold in Hf.
  exists f, f'. split; [done|]. split; [done|].
  set (kept := List.filter (fun r => 0 <? getAggregatedCount f (LocalizedType.id r)) l) in *.
  unfold dropZeroCounts. rewrite TypesFrequency_filter_unfold. cbv zeta.
  rewrite Hbase', createTypesAccess_localizedTypes.
  assert (List.filter (fun r => 0 <? getAggregatedCount f' (LocalizedType.id r)) kept
          = kept) as ->.
  { apply filter_all_true. intros r Hr.
    assert (LocalizedType.id r ∈ map LocalizedType.id kept) as Hid.
    { rewrite list_elem_of_In. apply in_map. by apply list_elem_of_In. }
    destruct (Hkeep _ Hid) as [-> _].
    unfold kept in Hr. by apply elem_of_filter_bool in Hr as [_ Hr]. }
  etrans; [|exact Hnew]. f_equal.
  apply map_eq. intros k. rewrite forEach_counts_lookup, Hlookup.
  destruct (decide (k ∈ map LocalizedType.id kept)) as [Hk|Hk]; [|done].
  f_equal. unfold dict_get. rewrite Hlookup. by rewrite decide_True.
Qed.

Lemma dropZeroCounts_twice_witness :
  exists f f',
    createTypesFrequency 5 (createTypesAccess [plain 1 0; plain 2 1; plain 3 0])
      forked_counts = Some f
    ∧ dropZeroCounts 5 f = Some f'
    ∧ dropZeroCounts 5 f' = Some f'.
Proof.
  apply dropZeroCounts_twice.
  - apply (ranked_by_Acyclic (fun x => - x)). reflexivity.
  - repeat apply counts_nonneg_insert; try lia. apply counts_nonneg_empty.
  - vm_compute. lia.
Defined.

(** ** The store: the index builder and the filter *)

(** X15. On the store, [createTypesAccess] called on an array of records
    returns an instance that refers to that same array, not to a copy,
    and to two new dictionaries; it writes to no object that existed
    before the call; and the indices it has filled in place are those of
    the functional index builder. *)
Theorem createTypesAccess_in_place h l records :
  Heap.read_records h l = Some records ->
  exists this h',
    Heap.createTypesAccess l h = Some (this, h')
    ∧ Heap.localizedTypes this = l
    ∧ (h !! Heap.idIndex this = None ∧ h !! Heap.childrenById this = None)
    ∧ (forall l', is_Some (h !! l') -> h' !! l' = h !! l')
    ∧ Heap.view h' this (createTypesAccess records)
    ∧ (forall id, Heap.getType this id h' = Some (getType (createTypesAccess records) id)).
Proof.
  intros Hrec.
  destruct (heap_createTypesAccess h l records Hrec)
    as (this & h' & Hrun & Hl & Hidx & Hch & Hframe & Hview).
  exists this, h'. split; [done|]. split; [done|]. split; [done|].
  split; [done|]. split; [done|]. intros id. by apply getType_view.
Qed.

Lemma createTypesAccess_in_place_witness :
  exists this h',
    Heap.createTypesAccess 1%positive single_heap = Some (this, h')
    ∧ Heap.localizedTypes this = 1%positive
    ∧ Heap.getType this 1 h' = Some (Some (plain 1 0)).
Proof.
  destruct (createTypesAccess_in_place single_heap 1%positive [plain 1 0])
    as (this & h' & Hrun & Hl & _ & _ & _ & Hget).
  - reflexivity.
  - exists this, h'. split; [exact Hrun|]. split; [exact Hl|].
    rewrite Hget. reflexivity.
Defined.

Lemma heap_filter_unfold this p h :
  Heap.filter this p h
  = records ← Heap.read_records h (Heap.localizedTypes this);
    Heap.createTypesAccess (fresh (dom h))
      (<[fresh (dom h) := Heap.Records (List.filter p records)]> h).
Proof.
  unfold Heap.filter, Heap.createTypesAccess, Heap.alloc.
  destruct (Heap.read_records h (Heap.localizedTypes this)) as [records|]; [|done].
  simpl. unfold Heap.read_records at 1. by rewrite lookup_insert_eq.
Qed.

(** X16. On the store, [filter] returns an instance made of objects that
    did not exist before the call, which stands for the functional
    [filter] of the receiver; the call writes to no object that existed
    before it, so the receiver stands for the same value afterwards and
    its [getType] results are unchanged. *)
Theorem filter_leaves_receiver_unchanged h this a p :
  Heap.view h this a ->
  exists this' h',
    Heap.filter this p h = Some (this', h')
    ∧ Heap.view h' this' (TypesAccess_filter a p)
    ∧ (h !! Heap.localizedTypes this' = None
       ∧ h !! Heap.idIndex this' = None
       ∧ h !! Heap.childrenById this' = None)
    ∧ (forall l, is_Some (h !! l) -> h' !! l = h !! l)
    ∧ Heap.view h' this a
    ∧ (forall id, Heap.getType this id h' = Heap.getType this id h).
Proof.
  intros Hview. pose proof Hview as (Hrec & _).
  rewrite heap_filter_unfold, Hrec. simpl.
  set (l := fresh (dom h)).
  set (records := List.filter p (TypesAccess.localizedTypes a)).
  set (h1 := <[l := Heap.Records records]> h).
  assert (h !! l = None) as Hl by apply is_fresh_lookup.
  assert (forall l', is_Some (h !! l') -> h1 !! l' = h !! l') as Hframe1.
  { intros l' Hl'. unfold h1. apply lookup_insert_ne.
    intros <-. rewrite Hl in Hl'. by destruct Hl'. }
  destruct (heap_createTypesAccess h1 l records)
    as (this' & h' & -> & Hlt & Hidx & Hch & Hframe & Hview').
  { unfold Heap.read_records, h1. by rewrite lookup_insert_eq. }
  assert (forall l', is_Some (h !! l') -> h' !! l' = h !! l') as Hframe'.
  { intros l' Hl'. rewrite Hframe; [by apply Hframe1|]. by rewrite Hframe1. }
  assert (forall l', h1 !! l' = None -> h !! l' = None) as Hnew.
  { intros l' E. destruct (h !! l') eqn:E'; [|done].
    rewrite Hframe1 in E; [congruence|eauto]. }
  exists this', h'. split; [done|]. split; [exact Hview'|].
  split; [by rewrite Hlt; auto|]. split; [exact Hframe'|].
  assert (Heap.view h' this a) as Hkept by by eapply view_frame.
  split; [done|]. intros id.
  by rewrite (getType_view h' this a), (getType_view h this a).
Qed.

Lemma filter_leaves_receiver_unchanged_witness :
  exists this' h',
    Heap.filter single_instance (fun r => negb (LocalizedType.id r =? 1)) single_heap
    = Some (this', h')
    ∧ Heap.view h' single_instance single.
Proof.
  destruct (filter_leaves_receiver_unchanged single_heap single_instance single
              (fun r => negb (LocalizedType.id r =? 1)))
    as (this' & h' & Hrun & _ & _ & _ & Hkept & _).
  - split; [reflexivity|]. split; [reflexivity|].
    exists [(0, 4%positive)]. split; [reflexivity|]. split; [|reflexivity].
    split; [apply NoDup_singleton|]. repeat constructor. by eexists.
  - exists this', h'. split; [exact Hrun|exact Hkept].
Defined.

(** ** The order in which the keys are visited *)

Lemma settled_unique ch counts agg1 agg2 x :
  Acyclic ch ->
  settled ch counts ∅ agg1 -> settled ch counts ∅ agg2 ->
  is_Some (agg1 !! x) -> is_Some (agg2 !! x) ->
  agg1 !! x = agg2 !! x.
Proof.
  intros Hacyc Hs1 Hs2.
  induction (acyclic_Acc ch x Hacyc) as [x _ IH]. intros [v1 H1] [v2 H2].
  rewrite H1, H2. f_equal.
  destruct (Hs1 x v1 H1) as [Hc1 ->]; [set_solver|].
  destruct (Hs2 x v2 H2) as [Hc2 ->]; [set_solver|].
  f_equal. f_equal. apply map_ext_in. intros c Hc. apply list_elem_of_In in Hc.
  unfold result_read. rewrite (IH c Hc); [done| |].
  - by destruct (Hc1 c Hc).
  - by destruct (Hc2 c Hc).
Qed.

Lemma NoDup_fst_oget {T} (d : ODict T) k v :
  NoDup (map fst d) -> (k, v) ∈ d -> oget d k = Some v.
Proof.
  induction d as [|[k0 v0] d IH]; simpl.
  - intros _ H. by apply elem_of_nil in H.
  - intros [Hk0 Hnd]%NoDup_cons [[= -> ->]|Hin]%elem_of_cons.
    + by rewrite Z.eqb_refl.
    + destruct (Z.eqb_spec k0 k) as [->|Hne]; [|by apply IH].
      exfalso. apply Hk0. rewrite list_elem_of_In. apply in_map_iff.
      exists (k, v). split; [done|]. by apply list_elem_of_In.
Qed.

Lemma hierarchy_ids_in_hierarchy ch x :
  NoDup (map fst ch) -> x ∈ hierarchy_ids ch -> in_hierarchy ch x.
Proof.
  intros Hnd. unfold hierarchy_ids.
  rewrite elem_of_list_to_set, elem_of_app. intros [H|H].
  - left. by apply oget_key_Some.
  - right. rewrite list_elem_of_In, in_concat in H. destruct H as (cs & Hcs & Hx).
    apply in_map_iff in Hcs as ([k cs'] & Hsnd & Hin). simpl in Hsnd. subst cs'.
    exists k. unfold children_of.
    rewrite (NoDup_fst_oget ch k cs Hnd); [by apply list_elem_of_In|].
    by apply list_elem_of_In.
Qed.

(** What any order of visiting the keys gives. *)
Lemma aggregate_keys_any_order ch counts fuel keys agg :
  Acyclic ch ->
  (forall k, k ∈ keys <-> k ∈ map fst ch) ->
  aggregate_keys fuel keys ∅ ch counts = Some agg ->
  settled ch counts ∅ agg
  ∧ (forall x, in_hierarchy ch x -> is_Some (agg !! x))
  ∧ dom agg ⊆ hierarchy_ids ch.
Proof.
  intros Hacyc Hkeys H.
  assert (settled ch counts ∅ (∅ : IdDict Z)) as Hs0.
  { intros x v Hx. by rewrite lookup_empty in Hx. }
  assert (children_memoised ch ∅ (∅ : IdDict Z)) as Hm0.
  { intros x [? Hx]. by rewrite lookup_empty in Hx. }
  split; [by eapply aggregate_keys_settled|]. split.
  - pose proof (aggregate_keys_grows _ _ _ _ _ _ H) as [_ Hin].
    pose proof (aggregate_keys_memoised _ _ _ _ _ _ H Hm0) as Hm.
    assert (forall k, is_Some (oget ch k) -> is_Some (agg !! k)) as Hkey.
    { intros k [cs Hk]. apply Hin, Hkeys. by eapply oget_Some_key. }
    intros x [Hx|[p Hp]]; [auto|].
    eapply (Hm p); [|set_solver|exact Hp].
    apply Hkey. unfold children_of in Hp.
    destruct (oget ch p); [eauto|]. by apply elem_of_nil in Hp.
  - eapply aggregate_keys_dom; [apply hierarchy_ids_closed| | |exact H].
    + apply Forall_forall. intros k Hk. by apply hierarchy_ids_key, Hkeys.
    + rewrite dom_empty_L. set_solver.
Qed.

(** X17. On a hierarchy without a cycle whose index has each key once, as
    every index made by the index builder has, the aggregated counts do
    not depend on the order in which the keys of [childrenById] are
    visited: visiting them in any other order, with the same stack, gives
    the same table as [calculateAggregatedCounts]. *)
Theorem aggregation_independent_of_key_order ch counts fuel keys :
  Acyclic ch ->
  NoDup (map fst ch) ->
  Permutation keys (map fst ch) ->
  (size (hierarchy_ids ch) < fuel)%nat ->
  exists agg,
    calculateAggregatedCounts fuel ch counts = Some agg
    ∧ aggregate_keys fuel keys ∅ ch counts = Some agg.
Proof.
  intros Hacyc Hnd Hperm Hfuel.
  destruct (calculateAggregatedCounts_returns ch counts fuel Hfuel) as [agg Hagg].
  assert (is_Some (aggregate_keys fuel keys ∅ ch counts)) as [agg' Hagg'].
  { apply (aggregate_keys_returns ch counts (hierarchy_ids ch)).
    - apply hierarchy_ids_closed.
    - apply Forall_forall. intros k Hk. apply hierarchy_ids_key. by rewrite <- Hperm.
    - by rewrite dom_empty_L, difference_empty_L. }
  exists agg. split; [done|]. rewrite Hagg'. f_equal.
  destruct (aggregate_keys_any_order ch counts fuel (own_keys ch) agg Hacyc)
    as (Hs & Hcov & Hdom); [apply elem_of_own_keys|exact Hagg|].
  destruct (aggregate_keys_any_order ch counts fuel keys agg' Hacyc)
    as (Hs' & Hcov' & Hdom'); [by intros k; rewrite Hperm|exact Hagg'|].
  apply map_eq. intros x.
  destruct (decide (x ∈ hierarchy_ids ch)) as [Hx|Hx].
  - apply hierarchy_ids_in_hierarchy in Hx; [|done].
    apply (settled_unique ch counts); auto.
  - assert (agg !! x = None) as -> by (apply not_elem_of_dom; set_solver).
    apply not_elem_of_dom. set_solver.
Qed.

Lemma aggregation_independent_of_key_order_witness :
  exists agg,
    calculateAggregatedCounts 5 (TypesAccess.childrenById chain) chain_counts = Some agg
    ∧ aggregate_keys 5 [2; 0; 1] ∅ (TypesAccess.childrenById chain) chain_counts
      = Some agg.
Proof.
  apply aggregation_independent_of_key_order.
  - apply (ranked_by_Acyclic (fun x => - x)). reflexivity.
  - simpl. repeat (apply NoDup_cons; split;
      [rewrite ?not_elem_of_cons; repeat split; try lia; apply not_elem_of_nil|]).
    apply NoDup_nil_2.
  - simpl. etrans; [apply perm_swap|]. apply perm_skip. apply perm_swap.
  - vm_compute. lia.
Defined.
